(** * Salesforce -> MongoDB middleware: the three sync endpoints

    A shallow embedding of [src/middleware.js]: the JSON values the
    handlers receive, the JavaScript operations they apply to them
    (truthiness, property access, [Array.isArray], [Map]), the document
    store they talk to, and the three request handlers
    [/sync_prompt_versions], [/delete_prompt_versions] and
    [/sync_member_dependencies]. *)

From Stdlib Require Import List Ascii String ZArith Bool Lia PeanoNat.
Import ListNotations.
Open Scope string_scope.
Open Scope list_scope.

(* ===================================================================== *)
(** ** JSON values *)
(* ===================================================================== *)

(** What [bodyParser.json()] hands to a handler, and what a stored
    document holds.  A number is kept as an integer; an object is the
    ordered list of its properties, and the first binding of a name is the
    property (a parsed object has one binding per name).  [JDate] is the
    value of [new Date()]: no request body contains one, the documents
    written by [/sync_member_dependencies] do. *)
#[warnings="-register-all"]
Inductive jsval : Type :=
| JNull
| JBool (b : bool)
| JNum (n : Z)
| JStr (s : string)
| JDate (ms : Z)
| JArr (items : list jsval)
| JObj (fields : list (string * jsval)).

Definition doc := list (string * jsval).

Section JsvalInduction.
Variable P : jsval -> Prop.
Hypothesis HNull : P JNull.
Hypothesis HBool : forall b, P (JBool b).
Hypothesis HNum : forall n, P (JNum n).
Hypothesis HStr : forall s, P (JStr s).
Hypothesis HDate : forall ms, P (JDate ms).
Hypothesis HArr : forall l, Forall P l -> P (JArr l).
Hypothesis HObj : forall fs, Forall (fun nv => P (snd nv)) fs -> P (JObj fs).

Fixpoint jsval_nested_ind (v : jsval) : P v :=
  match v with
  | JNull => HNull
  | JBool b => HBool b
  | JNum n => HNum n
  | JStr s => HStr s
  | JDate ms => HDate ms
  | JArr l =>
      HArr l ((fix go (l : list jsval) : Forall P l :=
               match l with
               | [] => Forall_nil _
               | x :: l' => Forall_cons _ (jsval_nested_ind x) (go l')
               end) l)
  | JObj fs =>
      HObj fs ((fix go (fs : doc) : Forall (fun nv => P (snd nv)) fs :=
               match fs with
               | [] => Forall_nil _
               | nv :: fs' =>
                   Forall_cons _ (jsval_nested_ind (snd nv)) (go fs')
               end) fs)
  end.
End JsvalInduction.

(** Structural equality of two values. *)
Fixpoint jsval_eqb (a b : jsval) {struct a} : bool :=
  match a, b with
  | JNull, JNull => true
  | JBool x, JBool y => Bool.eqb x y
  | JNum x, JNum y => Z.eqb x y
  | JStr x, JStr y => String.eqb x y
  | JDate x, JDate y => Z.eqb x y
  | JArr xs, JArr ys =>
      (fix go (xs ys : list jsval) {struct xs} : bool :=
         match xs, ys with
         | [], [] => true
         | x :: xs', y :: ys' => jsval_eqb x y && go xs' ys'
         | _, _ => false
         end) xs ys
  | JObj xs, JObj ys =>
      (fix go (xs ys : doc) {struct xs} : bool :=
         match xs, ys with
         | [], [] => true
         | (n, x) :: xs', (m, y) :: ys' =>
             String.eqb n m && jsval_eqb x y && go xs' ys'
         | _, _ => false
         end) xs ys
  | _, _ => false
  end.

(** JavaScript's ToBoolean on a parsed value: [null], [false], [0] and the
    empty string are falsy, every array and object is truthy. *)
Definition truthy (v : jsval) : bool :=
  match v with
  | JNull => false
  | JBool b => b
  | JNum n => negb (Z.eqb n 0)
  | JStr s => negb (String.eqb s EmptyString)
  | JDate _ => true
  | JArr _ => true
  | JObj _ => true
  end.

(** ToBoolean of the result of a property read: [None] is [undefined]. *)
Definition truthy_opt (o : option jsval) : bool :=
  match o with
  | Some v => truthy v
  | None => false
  end.

(** A primitive is compared by value, an array or object by reference. *)
Definition primitive (v : jsval) : bool :=
  match v with
  | JDate _ | JArr _ | JObj _ => false
  | _ => true
  end.

(** [Array.isArray(v) ? v : []] reads the elements of an array. *)
Definition is_array (o : option jsval) : bool :=
  match o with
  | Some (JArr _) => true
  | _ => false
  end.

(** The own property [name] of an object, [None] when it has none. *)
Fixpoint get_field (name : string) (d : doc) : option jsval :=
  match d with
  | [] => None
  | (n, v) :: d' => if String.eqb name n then Some v else get_field name d'
  end.

(* ===================================================================== *)
(** ** Exceptions *)
(* ===================================================================== *)

(** The only exception the handlers can raise by themselves is the
    TypeError of a property read on [null]; [err.message] is its text. *)
Inductive result (A : Type) : Type :=
| Ok (a : A)
| Throw (message : string).

Arguments Ok {A} a.
Arguments Throw {A} message.

Definition rbind {A B} (r : result A) (k : A -> result B) : result B :=
  match r with
  | Ok a => k a
  | Throw m => Throw m
  end.

Fixpoint rmap {A B} (f : A -> result B) (l : list A) : result (list B) :=
  match l with
  | [] => Ok []
  | x :: l' =>
      rbind (f x) (fun y => rbind (rmap f l') (fun ys => Ok (y :: ys)))
  end.

Definition null_read (name : string) : string :=
  "Cannot read properties of null (reading '" ++ name ++ "')".

(** [v.name]: a TypeError on [null]; the property of an object; and
    [undefined] on a boolean, number, string, date or array, none of which has
    a property of the names the handlers read. *)
Definition js_get (v : jsval) (name : string) : result (option jsval) :=
  match v with
  | JNull => Throw (null_read name)
  | JObj fs => Ok (get_field name fs)
  | _ => Ok None
  end.

(** [v?.name] where [v] is itself the result of a read: [undefined] when
    [v] is [undefined] or [null]. *)
Definition js_get_opt (v : option jsval) (name : string) : option jsval :=
  match v with
  | Some (JObj fs) => get_field name fs
  | _ => None
  end.

(** [list.filter(Boolean)] on a list of read results. *)
Fixpoint filter_truthy (l : list (option jsval)) : list jsval :=
  match l with
  | [] => []
  | Some v :: l' => if truthy v then v :: filter_truthy l' else filter_truthy l'
  | None :: l' => filter_truthy l'
  end.

(** [list.filter(Boolean)] on a list whose elements are [null] or an
    object: the objects, in order. *)
Fixpoint filter_some {A} (l : list (option A)) : list A :=
  match l with
  | [] => []
  | Some a :: l' => a :: filter_some l'
  | None :: l' => filter_some l'
  end.

(* ===================================================================== *)
(** ** Keyed sequences *)
(* ===================================================================== *)

(** The properties of an object, the entries of a [Map] and the documents
    of a collection are all sequences in which an operation finds the
    first element of its key, changes that element in place, and appends
    a new element when there is none. *)
Section Keyed.
Variables A Op K : Type.
Variable cls : A -> K.            (* the key an element is found under *)
Variable tgt : Op -> K.           (* the key an operation looks for *)
Variable keq : K -> K -> bool.    (* looked-for key against element key *)
Variable app : Op -> A -> A.      (* the operation on the element found *)
Variable mk : Op -> A.            (* the element made when none is found *)

Fixpoint upsert1 (o : Op) (l : list A) : list A :=
  match l with
  | [] => [mk o]
  | a :: l' =>
      if keq (tgt o) (cls a) then app o a :: l' else a :: upsert1 o l'
  end.

Definition upsert_all (ops : list Op) (l : list A) : list A :=
  fold_left (fun l o => upsert1 o l) ops l.

Definition app_all (ops : list Op) (a : A) : A :=
  fold_left (fun a o => app o a) ops a.

Definition select (c : K) (ops : list Op) : list Op :=
  filter (fun o => keq (tgt o) c) ops.

Definition reject (c : K) (ops : list Op) : list Op :=
  filter (fun o => negb (keq (tgt o) c)) ops.

Fixpoint find_first (k : K) (l : list A) : option A :=
  match l with
  | [] => None
  | a :: l' => if keq k (cls a) then Some a else find_first k l'
  end.

Definition of_class (k : K) (l : list A) : list A :=
  filter (fun a => keq k (cls a)) l.
End Keyed.

Arguments upsert1 {A Op K} cls tgt keq app mk o l.
Arguments upsert_all {A Op K} cls tgt keq app mk ops l.
Arguments app_all {A Op} app ops a.
Arguments select {Op K} tgt keq c ops.
Arguments reject {Op K} tgt keq c ops.
Arguments find_first {A K} cls keq k l.
Arguments of_class {A K} cls keq k l.

(* ===================================================================== *)
(** ** Objects as ordered property lists *)
(* ===================================================================== *)

Definition name_differs (n : string) (nv : string * jsval) : bool :=
  negb (String.eqb (fst nv) n).

(** The own properties of an object, one binding per name. *)
Fixpoint entries (fs : doc) : doc :=
  match fs with
  | [] => []
  | (n, v) :: fs' => (n, v) :: filter (name_differs n) (entries fs')
  end.

(** Assignment of one property: in place when the object has it, at the
    end when it does not. *)
Definition set_field (nv : string * jsval) (d : doc) : doc :=
  upsert1 fst fst String.eqb (fun o _ => o) (fun o => o) nv d.

Definition set_all (ops : doc) (d : doc) : doc :=
  upsert_all fst fst String.eqb (fun o _ => o) (fun o => o) ops d.

(** Every property of [fs] assigned, in order, as a property of [d]
    itself; the other properties of [d] stay.  This is what
    [{ $set: fs }] makes of [d] when no name of [fs] has a dot; a name
    with a dot is a path, which [mongo_set] below follows. *)
Definition set_fields (fs : doc) (d : doc) : doc := set_all (entries fs) d.

(* ===================================================================== *)
(** ** The [Map] that removes duplicate dependents *)
(* ===================================================================== *)

(** Key equality of a [Map] (SameValueZero): primitives by value, objects
    by reference.  Every object of a parsed body is a reference of its
    own, so two keys read from two entries are equal only as primitives. *)
Definition same_value_zero (a b : jsval) : bool :=
  primitive a && jsval_eqb a b.

Definition js_map := list (jsval * jsval).

(** [m.set(k, v)]: an existing key keeps its place and takes the new
    value, a new key goes last. *)
Definition map_set (kv : jsval * jsval) (m : js_map) : js_map :=
  upsert1 fst fst same_value_zero (fun o a => (fst a, snd o)) (fun o => o) kv m.

(** [Array.from(m.values())]. *)
Definition map_values (m : js_map) : list jsval := map snd m.

(** One round of [dependents.forEach(d => { if (d.memberDependencyId)
    uniqueDependentsMap.set(d.memberDependencyId, d) })]. *)
Definition dedup_step (m : js_map) (d : jsval) : result js_map :=
  rbind (js_get d "memberDependencyId") (fun id =>
    match id with
    | Some k => if truthy k then Ok (map_set (k, d) m) else Ok m
    | None => Ok m
    end).

Fixpoint dedup_loop (m : js_map) (ds : list jsval) : result js_map :=
  match ds with
  | [] => Ok m
  | d :: ds' => rbind (dedup_step m d) (fun m' => dedup_loop m' ds')
  end.

(** [uniqueDependents] of lines 138-144. *)
Definition uniqueDependents (dependents : list jsval) : result (list jsval) :=
  rbind (dedup_loop [] dependents) (fun m => Ok (map_values m)).

(* ===================================================================== *)
(** ** The document store *)
(* ===================================================================== *)

(** The store behind [collection.bulkWrite] and [collection.deleteMany]
    is MongoDB, reached through its driver; neither is part of this
    repository (section 6 of the specification lists the store as the
    Persistence Gateway).  The model follows the documented behaviour of
    the operations the handlers use.  A collection is the sequence of its
    documents.  Identity values are opaque strings in the specification
    (section 3) and are compared as whole values here: the element-wise
    matching the store applies to array values is outside the model.  A
    filter on a property a document does not have compares against
    [null], which is also what the driver sends for [undefined].

    A name in the operand of [$set] is a path: [a.b] is the property [b]
    of the embedded document [a], and a component of digits is a position
    when it meets an array.  The positional operators (a component that
    starts with [$]) are outside the model: an update that names one is
    taken as rejected.  The texts of the store's messages are shortened.
    The [_id] the store adds to a new document is left out, and so are
    failures of the connection. *)
Definition collection := list doc.

Definition bson (o : option jsval) : jsval :=
  match o with
  | Some v => v
  | None => JNull
  end.

(** What an equality filter on [field] compares a document by. *)
Definition key_of (field : string) (d : doc) : jsval :=
  bson (get_field field d).

(** The components of a path: the first one and the ones after it. *)
Fixpoint split_dots (s : string) : string * list string :=
  match s with
  | EmptyString => (EmptyString, [])
  | String a s' =>
      let (c, p) := split_dots s' in
      if Ascii.eqb a "." then (EmptyString, c :: p) else (String a c, p)
  end.

Definition path_of (name : string) : list string :=
  let (c, p) := split_dots name in c :: p.

(** A component the store takes as the name of a property: it is not
    empty and does not start with [$]. *)
Definition component_ok (c : string) : bool :=
  match c with
  | EmptyString => false
  | String a _ => negb (Ascii.eqb a "$")
  end.

Definition digit (a : ascii) : option nat :=
  let n := nat_of_ascii a in
  if ((48 <=? n) && (n <=? 57))%nat then Some (n - 48)%nat else None.

Fixpoint digits (s : string) (acc : nat) : option nat :=
  match s with
  | EmptyString => Some acc
  | String a s' =>
      match digit a with
      | Some d => digits s' (10 * acc + d)%nat
      | None => None
      end
  end.

(** A component read as a position of an array. *)
Definition array_index (c : string) : option nat :=
  match c with
  | EmptyString => None
  | _ => digits c 0
  end.

(** What a path that is not there yet is created as: embedded documents
    down to the value. *)
Fixpoint nest (p : list string) (v : jsval) : jsval :=
  match p with
  | [] => v
  | c :: p' => JObj [(c, nest p' v)]
  end.

Definition no_field (c : string) : string :=
  "Cannot create field '" ++ c ++ "'".

(** The property [c] of a document: changed by [inner] when it is there,
    created as [absent] when it is not. *)
Definition set_member (inner : jsval -> result jsval) (absent : jsval)
    (c : string) (fs : doc) : result doc :=
  match get_field c fs with
  | Some y => rbind (inner y) (fun y' => Ok (set_field (c, y') fs))
  | None => Ok (set_field (c, absent) fs)
  end.

(** The element [i] of an array, which is filled up with [null] when it
    is shorter. *)
Fixpoint set_item (inner : jsval -> result jsval) (absent : jsval)
    (i : nat) (items : list jsval) : result (list jsval) :=
  match i, items with
  | O, y :: rest => rbind (inner y) (fun y' => Ok (y' :: rest))
  | O, [] => Ok [absent]
  | S i', y :: rest =>
      rbind (set_item inner absent i' rest) (fun rest' => Ok (y :: rest'))
  | S i', [] =>
      rbind (set_item inner absent i' []) (fun rest' => Ok (JNull :: rest'))
  end.

(** The value [v] at the path [p] inside [x]: through embedded documents
    and array positions; any other value in the way cannot take a
    property. *)
Fixpoint set_in (p : list string) (v x : jsval) {struct p} : result jsval :=
  match p with
  | [] => Ok v
  | c :: p' =>
      match x with
      | JObj fs =>
          rbind (set_member (set_in p' v) (nest p' v) c fs)
                (fun fs' => Ok (JObj fs'))
      | JArr items =>
          match array_index c with
          | Some i =>
              rbind (set_item (set_in p' v) (nest p' v) i items)
                    (fun items' => Ok (JArr items'))
          | None => Throw (no_field c)
          end
      | _ => Throw (no_field c)
      end
  end.

(** One assignment of a [$set]: the value at the path [name] spells. *)
Definition set_path (nv : string * jsval) (d : doc) : result doc :=
  let (c, p) := split_dots (fst nv) in
  set_member (set_in p (snd nv)) (nest p (snd nv)) c d.

Fixpoint set_paths (ops : doc) (d : doc) : result doc :=
  match ops with
  | [] => Ok d
  | nv :: ops' => rbind (set_path nv d) (fun d' => set_paths ops' d')
  end.

Fixpoint prefix_of (p q : list string) : bool :=
  match p, q with
  | [], _ => true
  | c :: p', c' :: q' => String.eqb c c' && prefix_of p' q'
  | _ :: _, [] => false
  end.

(** Two paths of one update are in conflict when one leads through the
    other. *)
Definition clash (p q : list string) : bool :=
  prefix_of p q || prefix_of q p.

Fixpoint conflict_free (ps : list (list string)) : bool :=
  match ps with
  | [] => true
  | p :: ps' => forallb (fun q => negb (clash p q)) ps' && conflict_free ps'
  end.

(** The update document the store accepts before it looks at any stored
    document: every component of every path names a property, and no two
    paths are in conflict. *)
Definition paths_ok (fs : doc) : bool :=
  let ps := map (fun nv => path_of (fst nv)) (entries fs) in
  forallb (forallb component_ok) ps && conflict_free ps.

Definition bad_set : string :=
  "Modifiers operate on fields but we found another type instead".

Definition bad_path : string := "The update path is not valid".

(** [{ $set: operand }] applied to the document [d].  The operand has to
    be a document; its assignments are made in order, and the document is
    left as it was when one of them fails. *)
Definition mongo_set (operand : jsval) (d : doc) : result doc :=
  match operand with
  | JObj fs => if paths_ok fs then set_paths (entries fs) d else Throw bad_path
  | _ => Throw bad_set
  end.

(** [{ updateOne: { filter: { [filter_field]: filter_value },
                    update: { $set: set_value }, upsert: true } }] *)
Record update_op : Type := UpdateOne {
  filter_field : string;
  filter_value : option jsval;
  set_value : jsval
}.

Definition op_key (o : update_op) : jsval := bson (filter_value o).

Definition op_apply (o : update_op) (d : doc) : result doc :=
  mongo_set (set_value o) d.

(** The document an upsert inserts: the filter's equality, then the
    update. *)
Definition op_seed (o : update_op) : doc := [(filter_field o, op_key o)].

Definition op_insert (o : update_op) : result doc := op_apply o (op_seed o).

(** [updateOne] with [upsert: true]: the first document the filter
    matches is updated; when no document matches, one is inserted. *)
Fixpoint updateOne (o : update_op) (c : collection) : result collection :=
  match c with
  | [] => rbind (op_insert o) (fun d => Ok [d])
  | d :: c' =>
      if jsval_eqb (op_key o) (key_of (filter_field o) d)
      then rbind (op_apply o d) (fun d' => Ok (d' :: c'))
      else rbind (updateOne o c') (fun c'' => Ok (d :: c''))
  end.

(** An ordered bulk write: the operations in order, stopping at the first
    one that fails; what was written before stays written. *)
Fixpoint bulkWrite (ops : list update_op) (c : collection)
  : result unit * collection :=
  match ops with
  | [] => (Ok tt, c)
  | o :: ops' =>
      match updateOne o c with
      | Ok c' => bulkWrite ops' c'
      | Throw e => (Throw e, c)
      end
  end.

(** The filters of the two [deleteMany] calls:
    [{ [field]: { $in: values } }] and [{ [field]: { $nin: values } }]. *)
Inductive delete_filter : Type :=
| FieldIn (field : string) (values : list jsval)
| FieldNin (field : string) (values : list jsval).

Definition value_in (v : jsval) (values : list jsval) : bool :=
  existsb (jsval_eqb v) values.

Definition matches (q : delete_filter) (d : doc) : bool :=
  match q with
  | FieldIn f vs => value_in (key_of f d) vs
  | FieldNin f vs => negb (value_in (key_of f d) vs)
  end.

(** [deleteMany(q)]: [deletedCount] and the documents that stay. *)
Definition deleteMany (q : delete_filter) (c : collection) : nat * collection :=
  (List.length (filter (matches q) c), filter (fun d => negb (matches q d)) c).

(* ===================================================================== *)
(** ** Requests, responses and the handler monad *)
(* ===================================================================== *)

(** A call on the store, as the handlers issue them. *)
Inductive store_call : Type :=
| Connect
| BulkWrite (coll : string) (ops : list update_op)
| DeleteMany (coll : string) (q : delete_filter)
| Close.

Definition database := string -> collection.

Record world : Type := World {
  db : database;
  calls : list store_call
}.

Record response : Type := Response {
  status : Z;
  body : jsval
}.

Definition db_set (name : string) (c : collection) (d : database) : database :=
  fun n => if String.eqb n name then c else d n.

(** A handler step: it may throw, and it leaves a world behind either way. *)
Definition M (A : Type) : Type := world -> result A * world.

Definition ret {A} (a : A) : M A := fun w => (Ok a, w).

Definition bind {A B} (m : M A) (k : A -> M B) : M B :=
  fun w =>
    match m w with
    | (Ok a, w') => k a w'
    | (Throw e, w') => (Throw e, w')
    end.

Definition lift {A} (r : result A) : M A := fun w => (r, w).

Declare Scope handler_scope.
Delimit Scope handler_scope with handler.
Notation "x <- m ;; k" := (bind m (fun x => k))
  (at level 61, m at next level, right associativity) : handler_scope.
Notation "m ;;; k" := (bind m (fun _ => k))
  (at level 61, right associativity) : handler_scope.

Definition log_call (c : store_call) : M unit :=
  fun w => (Ok tt, World (db w) (calls w ++ [c])).

(** [getMongoClient()] and [client.close()]. *)
Definition getMongoClient : M unit := log_call Connect.
Definition client_close : M unit := log_call Close.

Definition collection_bulkWrite (coll : string) (ops : list update_op) : M unit :=
  fun w =>
    let (r, c') := bulkWrite ops (db w coll) in
    (r, World (db_set coll c' (db w)) (calls w ++ [BulkWrite coll ops])).

Definition collection_deleteMany (coll : string) (q : delete_filter) : M nat :=
  fun w =>
    let (n, c') := deleteMany q (db w coll) in
    (Ok n, World (db_set coll c' (db w)) (calls w ++ [DeleteMany coll q])).

(** A request: [req.query.domain] and [req.body]; [None] is [undefined]. *)
Record request : Type := Request {
  query_domain : option string;
  req_body : option jsval
}.

(** [req.query.domain || 'Prompt'] *)
Definition domain_of (req : request) : string :=
  match query_domain req with
  | Some s => if String.eqb s EmptyString then "Prompt" else s
  | None => "Prompt"
  end.

(** [!Array.isArray(payload) || payload.length === 0] fails: the elements
    of the non-empty array. *)
Definition nonempty_array (payload : option jsval) : option (list jsval) :=
  match payload with
  | Some (JArr (x :: l)) => Some (x :: l)
  | _ => None
  end.

Definition JNat (n : nat) : jsval := JNum (Z.of_nat n).

Definition error_body (msg : string) : jsval := JObj [("error", JStr msg)].

(** The [try { ... } catch (err) { res.status(500).send(...) }] around the
    body of a handler: every call ends in one response, what the body
    returns or the 500 of the [catch], and what was done before a throw
    stays done. *)
Definition respond (m : M response) (w : world) : response * world :=
  match m w with
  | (Ok r, w') => (r, w')
  | (Throw e, w') => (Response 500 (error_body e), w')
  end.

(* ===================================================================== *)
(** ** POST /sync_prompt_versions *)
(* ===================================================================== *)

Local Open Scope handler_scope.

(** One element of [payload.map(doc => ({ updateOne: ... }))]. *)
Definition prompt_op (doc : jsval) : result update_op :=
  rbind (js_get doc "promptVersionId") (fun id =>
    Ok (UpdateOne "promptVersionId" id doc)).

Definition upsert_body (domain : string) (count : nat) : jsval :=
  JObj [("message", JStr "UPSERT completed");
        ("domain", JStr domain);
        ("count", JNat count)].

Definition sync_prompt_versions (req : request) (w : world) : response * world :=
  let domain := domain_of req in
  match nonempty_array (req_body req) with
  | None => (Response 400 (error_body "Empty payload"), w)
  | Some payload =>
      respond
        (getMongoClient ;;;
         bulkOps <- lift (rmap prompt_op payload) ;;
         (if (0 <? List.length bulkOps)%nat
          then collection_bulkWrite domain bulkOps
          else ret tt) ;;;
         client_close ;;;
         ret (Response 200 (upsert_body domain (List.length payload))))
        w
  end.

(* ===================================================================== *)
(** ** POST /delete_prompt_versions *)
(* ===================================================================== *)

Definition prompt_id (p : jsval) : result (option jsval) :=
  js_get p "promptVersionId".

Definition delete_body (domain : string) (count : nat) : jsval :=
  JObj [("message", JStr "DELETE completed");
        ("domain", JStr domain);
        ("count", JNat count)].

Definition delete_prompt_versions (req : request) (w : world) : response * world :=
  let domain := domain_of req in
  match nonempty_array (req_body req) with
  | None => (Response 400 (error_body "Empty payload"), w)
  | Some payload =>
      respond
        (getMongoClient ;;;
         ids <- lift (rmap prompt_id payload) ;;
         let idsToDelete := filter_truthy ids in
         (if (0 <? List.length idsToDelete)%nat
          then (collection_deleteMany domain
                  (FieldIn "promptVersionId" idsToDelete) ;;; ret tt)
          else ret tt) ;;;
         client_close ;;;
         ret (Response 200 (delete_body domain (List.length idsToDelete))))
        w
  end.

(* ===================================================================== *)
(** ** POST /sync_member_dependencies *)
(* ===================================================================== *)

Definition member_collection : string := "MemberDependencies".

(** [p.parentMember?.parentMemberId] *)
Definition parent_id (p : jsval) : result (option jsval) :=
  rbind (js_get p "parentMember") (fun pm => Ok (js_get_opt pm "parentMemberId")).

(** [Array.isArray(x) ? x : []] *)
Definition array_or_empty (x : option jsval) : list jsval :=
  match x with
  | Some (JArr l) => l
  | _ => []
  end.

Definition member_set (parentId parentMember : option jsval)
    (uniqueDependents : list jsval) (now : Z) : jsval :=
  JObj [("parentMemberId", bson parentId);
        ("parentMember", bson parentMember);
        ("dependentMembers", JArr uniqueDependents);
        ("lastSyncedAt", JDate now)].

(** One element of the [payload.map(doc => { ... })] of lines 130-160:
    [None] is the [null] of a record without a parent id; [now] is what
    [new Date()] gives for this record. *)
Definition member_op (now : Z) (doc : jsval) : result (option update_op) :=
  rbind (parent_id doc) (fun parentId =>
    if negb (truthy_opt parentId) then Ok None
    else
      rbind (js_get doc "dependentMembers") (fun dm =>
        let dependents := array_or_empty dm in
        rbind (uniqueDependents dependents) (fun uniq =>
          rbind (js_get doc "parentMember") (fun pm =>
            Ok (Some (UpdateOne "parentMemberId" parentId
                        (member_set parentId pm uniq now))))))).

(** [payload.map] with the clock read once per record: [clock i] is the
    time at the record of index [i]. *)
Fixpoint member_ops (clock : nat -> Z) (i : nat) (payload : list jsval)
  : result (list (option update_op)) :=
  match payload with
  | [] => Ok []
  | doc :: rest =>
      rbind (member_op (clock i) doc) (fun o =>
        rbind (member_ops clock (S i) rest) (fun os => Ok (o :: os)))
  end.

Definition snapshot_body (upserted deleted : nat) : jsval :=
  JObj [("message", JStr "Member dependency snapshot sync completed");
        ("upserted", JNat upserted);
        ("deleted", JNat deleted)].

Definition sync_member_dependencies (clock : nat -> Z) (req : request)
    (w : world) : response * world :=
  match nonempty_array (req_body req) with
  | None => (Response 400 (error_body "Payload must be a non-empty array"), w)
  | Some payload =>
      respond
        (getMongoClient ;;;
         ids <- lift (rmap parent_id payload) ;;
         let parentIdsFromPayload := filter_truthy ids in
         if (List.length parentIdsFromPayload =? 0)%nat
         then
           client_close ;;;
           ret (Response 400
                  (error_body "No valid parentMemberId found in payload"))
         else
           raw <- lift (member_ops clock 0 payload) ;;
           let bulkOps := filter_some raw in
           (if (0 <? List.length bulkOps)%nat
            then collection_bulkWrite member_collection bulkOps
            else ret tt) ;;;
           deleted <- collection_deleteMany member_collection
                        (FieldNin "parentMemberId" parentIdsFromPayload) ;;
           client_close ;;;
           ret (Response 200 (snapshot_body (List.length bulkOps) deleted)))
        w
  end.

Local Close Scope handler_scope.

(* ===================================================================== *)
(** ** Views used by the statements below *)
(* ===================================================================== *)

(** The properties an operation sets. *)
Definition op_fields (o : update_op) : doc :=
  match set_value o with
  | JObj fs => fs
  | _ => []
  end.

(** An update the store accepts before it looks at any stored document. *)
Definition op_valid (o : update_op) : bool :=
  match set_value o with
  | JObj fs => paths_ok fs
  | _ => false
  end.

Definition op_error (o : update_op) : string :=
  match set_value o with
  | JObj _ => bad_path
  | _ => bad_set
  end.

(** A name without a dot: the name of a property of the document itself. *)
Fixpoint dotted (s : string) : bool :=
  match s with
  | EmptyString => false
  | String a s' => Ascii.eqb a "." || dotted s'
  end.

Definition top_level (fs : doc) : bool :=
  forallb (fun nv => negb (dotted (fst nv))) fs.

(** An operation whose update names properties of the document itself. *)
Definition op_top_level (o : update_op) : bool := top_level (op_fields o).

(** What an update that names properties of the document itself leaves of
    a document, and the document it inserts. *)
Definition plain_apply (o : update_op) (d : doc) : doc :=
  set_fields (op_fields o) d.

Definition plain_insert (o : update_op) : doc := plain_apply o (op_seed o).

(** The operations of a bulk write the store accepts before it looks at
    any stored document: the ones before the first it rejects. *)
Fixpoint valid_prefix (ops : list update_op) : list update_op :=
  match ops with
  | [] => []
  | o :: ops' => if op_valid o then o :: valid_prefix ops' else []
  end.

(** How such a bulk write ends. *)
Fixpoint bulk_outcome (ops : list update_op) : result unit :=
  match ops with
  | [] => Ok tt
  | o :: ops' => if op_valid o then bulk_outcome ops' else Throw (op_error o)
  end.

(** A sequence of operations that all filter on [field] and name
    properties of the document itself. *)
Definition store_upsert_all (field : string) (ops : list update_op)
    (c : collection) : collection :=
  upsert_all (key_of field) op_key jsval_eqb plain_apply plain_insert ops c.

(** The operations of an ordered bulk write that are applied: the ones
    before the first that fails. *)
Fixpoint applied (ops : list update_op) (c : collection) : list update_op :=
  match ops with
  | [] => []
  | o :: ops' =>
      match updateOne o c with
      | Ok c' => o :: applied ops' c'
      | Throw _ => []
      end
  end.

(** What an operation leaves of the document it matched: the document as
    it was when the update fails on it. *)
Definition op_leaves (o : update_op) (d : doc) : doc :=
  match op_apply o d with
  | Ok d' => d'
  | Throw _ => d
  end.

Definition op_inserts (o : update_op) : doc := op_leaves o (op_seed o).

(** A sequence of operations that all filter on [field] and have been
    applied. *)
Definition store_apply_all (field : string) (ops : list update_op)
    (c : collection) : collection :=
  upsert_all (key_of field) op_key jsval_eqb op_leaves op_inserts ops c.

(** A record whose properties all have names without a dot. *)
Definition top_level_record (r : jsval) : bool :=
  match r with
  | JObj fs => top_level fs
  | _ => true
  end.

(** A name whose path starts at the property [field]: [field] itself, or
    a name that leads below it, [field.x]. *)
Definition touches (field name : string) : bool :=
  String.eqb (fst (split_dots name)) field.

Definition below (field name : string) : bool :=
  touches field name &&
  match snd (split_dots name) with
  | [] => false
  | _ :: _ => true
  end.

Definition none_below (field : string) (fs : doc) : bool :=
  forallb (fun nv => negb (below field (fst nv))) fs.

(** [findOne({ [field]: k })]: the first document an equality filter
    matches, which is the one [updateOne] with that filter changes. *)
Definition findOne (field : string) (k : jsval) (c : collection) : option doc :=
  find_first (key_of field) jsval_eqb k c.

(** An operation whose update leaves the filtered property at the value
    the filter looks for. *)
Definition op_ok (field : string) (o : update_op) : Prop :=
  filter_field o = field /\
  forall v, get_field field (op_fields o) = Some v -> v = op_key o.

(** The key a dependent entry is kept under: its [memberDependencyId]
    when the [if (d.memberDependencyId)] of line 140 lets it through. *)
Definition dependency_id (d : jsval) : option jsval :=
  match js_get d "memberDependencyId" with
  | Ok (Some k) => if truthy k then Some k else None
  | _ => None
  end.

(** The [set] calls of the [forEach] of lines 139-143, in order. *)
Definition keyed_entries (ds : list jsval) : js_map :=
  flat_map (fun d => match dependency_id d with
                     | Some k => [(k, d)]
                     | None => []
                     end) ds.

Definition map_set_all (ops m : js_map) : js_map :=
  upsert_all fst fst same_value_zero (fun o a => (fst a, snd o)) (fun o => o)
    ops m.

(** The entries of a list of dependents that carry the key [k]. *)
Definition with_key (k : jsval) (ds : list jsval) : list jsval :=
  filter (fun d => match dependency_id d with
                   | Some k' => jsval_eqb k' k
                   | None => false
                   end) ds.

(** A payload the two sync endpoints turn away: an empty array, or no
    array at all. *)
Definition rejected_payload (b : option jsval) : Prop :=
  b = Some (JArr []) \/ forall l, b <> Some (JArr l).

(** A record with a resolvable parent id: [p.parentMember?.parentMemberId]
    reads a truthy value. *)
Definition resolvable (p : jsval) : bool :=
  match parent_id p with
  | Ok v => truthy_opt v
  | Throw _ => false
  end.

(** A record [/sync_member_dependencies] reads without a TypeError. *)
Definition well_formed_record (r : jsval) : Prop :=
  r <> JNull /\
  forall dm, resolvable r = true -> js_get r "dependentMembers" = Ok dm ->
             ~ In JNull (array_or_empty dm).

(** A record: a JSON object. *)
Definition is_object (r : jsval) : bool :=
  match r with
  | JObj _ => true
  | _ => false
  end.

(** The elements of an array payload; none for any other payload. *)
Definition payload_items (b : option jsval) : list jsval :=
  match b with
  | Some (JArr l) => l
  | _ => []
  end.

(** What [p.promptVersionId] reads on a record that is not [null]. *)
Definition read_prompt_id (p : jsval) : option jsval :=
  match p with
  | JObj fs => get_field "promptVersionId" fs
  | _ => None
  end.

(** The truthy ids of a payload: [idsToDelete] of line 85. *)
Definition prompt_ids (items : list jsval) : list jsval :=
  filter_truthy (map read_prompt_id items).

(** The key the flat sync files a record under. *)
Definition prompt_key (r : jsval) : jsval := bson (read_prompt_id r).

(** The property [n] of a record. *)
Definition record_field (n : string) (r : jsval) : option jsval :=
  match r with
  | JObj fs => get_field n fs
  | _ => None
  end.

(* ===================================================================== *)
(** ** Sample data *)
(* ===================================================================== *)

Definition dependent (id : string) (v : Z) : jsval :=
  JObj [("memberDependencyId", JStr id); ("v", JNum v)].

Definition keyless_dependent : jsval := JObj [("v", JNum 7)].

Definition parent (id : string) : jsval := JObj [("parentMemberId", JStr id)].

(** The example of section 8 of the specification. *)
Definition sample_record : jsval :=
  JObj [("parentMember", parent "P1");
        ("dependentMembers", JArr [dependent "D1" 1; dependent "D1" 2])].

Definition sample_keyless_record : jsval :=
  JObj [("parentMember", parent "P1");
        ("dependentMembers", JArr [keyless_dependent; dependent "D1" 2])].

Definition sample_bare_record : jsval := JObj [("parentMember", parent "P1")].

Definition sample_clock : nat -> Z := fun i => (1700000000000 + Z.of_nat i)%Z.

(** A database whose member collection holds a document for [P2]. *)
Definition sample_world : world :=
  World (fun n => if String.eqb n member_collection
                  then [[("parentMemberId", JStr "P2")]]
                  else [])
        [].

Definition sample_version : doc :=
  [("promptVersionId", JStr "v1"); ("name", JStr "first")].

(** A database whose [Prompt] collection holds a version [v1] with a
    property the next sync does not send. *)
Definition sample_prompt_world : world :=
  World (fun n => if String.eqb n "Prompt"
                  then [[("promptVersionId", JStr "v1"); ("legacy", JNum 1)]]
                  else [])
        [].

(* ===================================================================== *)
(** ** Views used by the further properties *)
(* ===================================================================== *)

(** An operation that leaves the document it writes under the key its
    filter looks for: it sets the filtered property to that key, or it
    sets neither the property nor anything below it. *)
Definition op_keeps (field : string) (o : update_op) : Prop :=
  op_ok field o /\
  (get_field field (op_fields o) = None ->
   none_below field (op_fields o) = true).

(** A record that, when it has no [promptVersionId], names no path below
    [promptVersionId] either. *)
Definition id_unnested (r : jsval) : bool :=
  match r with
  | JObj fs =>
      match get_field "promptVersionId" fs with
      | Some _ => true
      | None => none_below "promptVersionId" fs
      end
  | _ => true
  end.

(** Whether a keyed sequence holds an element under the key [k]. *)
Definition has_element {A K} (cls : A -> K) (keq : K -> K -> bool)
    (k : K) (l : list A) : bool :=
  existsb (fun a => keq k (cls a)) l.

(** The keys of a sequence of [set] calls in the order a [Map] holds them:
    each key where it first occurs. *)
Fixpoint first_keys (ks : list jsval) : list jsval :=
  match ks with
  | [] => []
  | k :: ks' =>
      k :: filter (fun k' => negb (same_value_zero k' k)) (first_keys ks')
  end.

(** What [p.parentMember?.parentMemberId] reads on a record that is not
    [null]. *)
Definition read_parent_id (p : jsval) : option jsval :=
  match p with
  | JObj fs => js_get_opt (get_field "parentMember" fs) "parentMemberId"
  | _ => None
  end.

(** The four properties the [$set] of [/sync_member_dependencies] names. *)
Definition member_property (n : string) : bool :=
  String.eqb n "parentMemberId" || String.eqb n "parentMember" ||
  String.eqb n "dependentMembers" || String.eqb n "lastSyncedAt".

(** A flat record with an id: an object whose [promptVersionId] is truthy. *)
Definition has_prompt_id (r : jsval) : bool :=
  is_object r && truthy_opt (read_prompt_id r).

Definition is_session_call (c : store_call) : bool :=
  match c with
  | Connect | Close => true
  | _ => false
  end.

(** Whether a handler lets the payload through its first check: the body
    is a non-empty array. *)
Definition accepted (req : request) : bool :=
  match nonempty_array (req_body req) with
  | Some _ => true
  | None => false
  end.

(** The calls of a handler that opened the connection once, as its first
    call, and closed it as its last. *)
Definition connection_closed (added : list store_call) : Prop :=
  exists mid, added = Connect :: mid ++ [Close] /\
              forallb (fun c => negb (is_session_call c)) mid = true.

(** The calls of a handler that opened the connection once, as its first
    call, and did not close it. *)
Definition connection_left_open (added : list store_call) : Prop :=
  exists mid, added = Connect :: mid /\
              forallb (fun c => negb (is_session_call c)) mid = true.

(** How a handler that answers [r] has used the connection: not at all
    when it turned the payload away at its first check; otherwise opened,
    and left open on the 500 of its [catch], closed on any other answer. *)
Definition session_of (passed : bool) (r : response)
    (before after : list store_call) : Prop :=
  exists added,
    after = before ++ added /\
    if passed
    then if Z.eqb (status r) 500
         then connection_left_open added
         else connection_closed added
    else added = [].

(* ===================================================================== *)
(** * Properties *)
(* ===================================================================== *)

(** ** Structural equality decides equality *)

Lemma jsval_eqb_refl (v : jsval) : jsval_eqb v v = true.
Proof.
  induction v using jsval_nested_ind; simpl;
    auto using Bool.eqb_reflx, Z.eqb_refl, String.eqb_refl.
  - induction H as [|x l Hx _ IH]; [reflexivity|].
    now rewrite Hx, IH.
  - induction H as [|[n x] fs Hx _ IH]; [reflexivity|].
    simpl in Hx. now rewrite String.eqb_refl, Hx, IH.
Qed.

Lemma jsval_eqb_eq (a b : jsval) : jsval_eqb a b = true -> a = b.
Proof.
  revert b.
  induction a using jsval_nested_ind; intros [] E; simpl in E;
    try discriminate; try reflexivity.
  - now apply Bool.eqb_prop in E; subst.
  - now apply Z.eqb_eq in E; subst.
  - now apply String.eqb_eq in E; subst.
  - now apply Z.eqb_eq in E; subst.
  - f_equal. revert items E.
    induction H as [|x l Hx _ IH]; intros [|y ys] E;
      try discriminate; [reflexivity|].
    apply andb_prop in E as [E1 E2].
    f_equal; [now apply Hx | now apply IH].
  - f_equal. revert fields E.
    induction H as [|[n x] fs Hx _ IH]; intros [|[m y] ys] E;
      try discriminate; [reflexivity|].
    apply andb_prop in E as [E12 E3]. apply andb_prop in E12 as [E1 E2].
    apply String.eqb_eq in E1. simpl in Hx. apply Hx in E2. subst.
    f_equal. now apply IH.
Qed.

Lemma jsval_eqb_iff (a b : jsval) : jsval_eqb a b = true <-> a = b.
Proof.
  split; [apply jsval_eqb_eq | intros ->; apply jsval_eqb_refl].
Qed.

Lemma jsval_eqb_neq (a b : jsval) : jsval_eqb a b = false <-> a <> b.
Proof.
  rewrite <- jsval_eqb_iff. destruct (jsval_eqb a b); split; congruence.
Qed.

Lemma jsval_eq_dec (a b : jsval) : {a = b} + {a <> b}.
Proof.
  destruct (jsval_eqb a b) eqn:E.
  - left. now apply jsval_eqb_eq.
  - right. now apply jsval_eqb_neq.
Qed.

Lemma same_value_zero_eq (a b : jsval) : same_value_zero a b = true -> a = b.
Proof.
  unfold same_value_zero. intros E.
  apply andb_prop in E as [_ E]. now apply jsval_eqb_eq.
Qed.

Lemma string_eqb_eq (a b : string) : String.eqb a b = true -> a = b.
Proof. apply String.eqb_eq. Qed.

(** ** Keyed sequences *)

Section KeyedTheory.
Variables A Op K : Type.
Variable cls : A -> K.
Variable tgt : Op -> K.
Variable keq : K -> K -> bool.
Variable app : Op -> A -> A.
Variable mk : Op -> A.

(** The operations the results are about: the ones that leave the
    element they change under its key, and make a new element under
    the key they look for. *)
Variable ok : Op -> Prop.
Hypothesis keq_eq : forall x y, keq x y = true -> x = y.
Hypothesis app_cls :
  forall o a, ok o -> keq (tgt o) (cls a) = true -> cls (app o a) = cls a.
Hypothesis mk_cls : forall o, ok o -> cls (mk o) = tgt o.

Local Abbreviation up1 := (upsert1 cls tgt keq app mk).
Local Abbreviation upall := (upsert_all cls tgt keq app mk).
Local Abbreviation appall := (app_all app).
Local Abbreviation sel := (select tgt keq).
Local Abbreviation rej := (reject tgt keq).
Local Abbreviation ofc := (of_class cls keq).
Local Abbreviation ffirst := (find_first cls keq).

Lemma keq_sym x y : keq x y = keq y x.
Proof.
  destruct (keq x y) eqn:E1, (keq y x) eqn:E2; try reflexivity.
  - pose proof (keq_eq _ _ E1); subst; congruence.
  - pose proof (keq_eq _ _ E2); subst; congruence.
Qed.

Lemma keq_trans_false x y z : keq x y = true -> keq x z = false -> keq y z = false.
Proof. intros E1 E2. apply keq_eq in E1. now subst. Qed.

Lemma upsert_all_cons_op o ops l : upall (o :: ops) l = upall ops (up1 o l).
Proof. reflexivity. Qed.

Lemma upsert_all_app ops1 ops2 l : upall (ops1 ++ ops2) l = upall ops2 (upall ops1 l).
Proof. apply fold_left_app. Qed.

Lemma app_all_app F1 F2 a : appall (F1 ++ F2) a = appall F2 (appall F1 a).
Proof. apply fold_left_app. Qed.

Lemma app_all_cls F a :
  Forall ok F -> Forall (fun o => keq (tgt o) (cls a) = true) F ->
  cls (appall F a) = cls a.
Proof.
  intros Hok. revert a.
  induction Hok as [|o F Ho _ IH]; intros a Hm; [reflexivity|].
  inversion Hm as [|? ? Hmo HmF]; subst. simpl.
  rewrite IH.
  - now apply app_cls.
  - rewrite app_cls by assumption. exact HmF.
Qed.

Lemma select_matches c ops : Forall (fun o => keq (tgt o) c = true) (sel c ops).
Proof.
  apply Forall_forall. intros o Ho. now apply filter_In in Ho.
Qed.

Lemma select_ok c ops : Forall ok ops -> Forall ok (sel c ops).
Proof.
  intros H. apply Forall_forall. intros o Ho.
  apply filter_In in Ho as [Ho _].
  now apply (proj1 (Forall_forall _ _) H).
Qed.

Lemma reject_ok c ops : Forall ok ops -> Forall ok (rej c ops).
Proof.
  intros H. apply Forall_forall. intros o Ho.
  apply filter_In in Ho as [Ho _].
  now apply (proj1 (Forall_forall _ _) H).
Qed.

Lemma reject_length c ops : (List.length (rej c ops) <= List.length ops)%nat.
Proof. apply filter_length_le. Qed.

(** The elements under one key, after one operation. *)
Lemma of_class_upsert1 k o l :
  ok o ->
  ofc k (up1 o l) =
  if keq (tgt o) k
  then match ofc k l with
       | [] => [mk o]
       | a :: r => app o a :: r
       end
  else ofc k l.
Proof.
  intros Ho. induction l as [|a l IH]; simpl.
  - rewrite (mk_cls _ Ho), (keq_sym k (tgt o)).
    now destruct (keq (tgt o) k).
  - destruct (keq (tgt o) (cls a)) eqn:Eoa; simpl.
    + rewrite (app_cls _ _ Ho Eoa).
      pose proof (keq_eq _ _ Eoa) as Heq.
      rewrite Heq, (keq_sym (cls a) k).
      now destruct (keq k (cls a)).
    + rewrite IH. destruct (keq k (cls a)) eqn:Eka.
      * apply keq_eq in Eka. subst k. now rewrite Eoa.
      * reflexivity.
Qed.

(** The elements under one key, after a sequence of operations: the
    first of them has taken every operation on that key, in order. *)
Lemma of_class_upsert_all k ops l :
  Forall ok ops ->
  ofc k (upall ops l) =
  match ofc k l with
  | a :: r => appall (sel k ops) a :: r
  | [] => match sel k ops with
          | [] => []
          | o :: F => [appall F (mk o)]
          end
  end.
Proof.
  intros Hok. revert l.
  induction Hok as [|o ops Ho _ IH]; intros l.
  - simpl. now destruct (ofc k l).
  - rewrite upsert_all_cons_op, IH, (of_class_upsert1 k _ l Ho).
    unfold select. simpl. fold (sel k ops).
    destruct (keq (tgt o) k); [|reflexivity].
    now destruct (ofc k l).
Qed.

Lemma find_first_of_class k l : ffirst k l = hd_error (ofc k l).
Proof.
  induction l as [|a l IH]; simpl; [reflexivity|].
  now destruct (keq k (cls a)).
Qed.

Lemma find_first_upsert_all k ops l :
  Forall ok ops ->
  ffirst k (upall ops l) =
  match ffirst k l with
  | Some a => Some (appall (sel k ops) a)
  | None => match sel k ops with
            | [] => None
            | o :: F => Some (appall F (mk o))
            end
  end.
Proof.
  intros Hok. rewrite !find_first_of_class, (of_class_upsert_all k _ l Hok).
  destruct (ofc k l); [|reflexivity].
  now destruct (sel k ops).
Qed.

(** A sequence of operations on a sequence with a first element: the
    operations on its key go to it, the others to the rest. *)
Lemma upsert_all_cons ops a l :
  Forall ok ops ->
  upall ops (a :: l) = appall (sel (cls a) ops) a :: upall (rej (cls a) ops) l.
Proof.
  intros Hok. revert a l.
  induction Hok as [|o ops Ho _ IH]; intros a l; [reflexivity|].
  rewrite upsert_all_cons_op. simpl.
  destruct (keq (tgt o) (cls a)) eqn:E; simpl.
  - rewrite IH, (app_cls _ _ Ho E). reflexivity.
  - rewrite IH. reflexivity.
Qed.

Section Idempotence.
(** What a new element is made from. *)
Variable seed : Op -> A.
Hypothesis mk_seed : forall o, mk o = app o (seed o).
Hypothesis seed_cls : forall o, ok o -> cls (seed o) = tgt o.
Hypothesis keq_refl : forall x, keq x x = true.
Hypothesis app_all_idem :
  forall F a, Forall ok F ->
    Forall (fun o => keq (tgt o) (cls a) = true) F ->
    appall F (appall F a) = appall F a.

Lemma upsert_all_idem_nil n :
  forall ops, (List.length ops <= n)%nat -> Forall ok ops ->
    upall ops (upall ops []) = upall ops [].
Proof.
  induction n as [|n IH]; intros [|o ops] Hn Hok; try reflexivity.
  - simpl in Hn. lia.
  - inversion Hok as [|? ? Ho Hops]; subst.
    assert (Hc : cls (mk o) = tgt o) by now apply mk_cls.
    assert (E : upall (o :: ops) [] =
                appall (sel (tgt o) ops) (mk o) :: upall (rej (tgt o) ops) []).
    { change (upall (o :: ops) []) with (upall ops [mk o]).
      now rewrite (upsert_all_cons _ (mk o) [] Hops), Hc. }
    rewrite E, (upsert_all_cons _ _ _ Hok).
    assert (Hd : cls (appall (sel (tgt o) ops) (mk o)) = tgt o).
    { rewrite app_all_cls; auto using select_ok.
      rewrite Hc. apply select_matches. }
    rewrite Hd. unfold select, reject. simpl.
    rewrite keq_refl. simpl.
    fold (sel (tgt o) ops). fold (rej (tgt o) ops).
    f_equal.
    + rewrite mk_seed.
      change (appall (o :: sel (tgt o) ops)
                (appall (o :: sel (tgt o) ops) (seed o)) =
              appall (o :: sel (tgt o) ops) (seed o)).
      apply app_all_idem.
      * constructor; auto using select_ok.
      * rewrite (seed_cls _ Ho). constructor; [apply keq_refl|apply select_matches].
    + apply IH; [|now apply reject_ok].
      pose proof (reject_length (tgt o) ops). simpl in Hn. lia.
Qed.

(** Running a sequence of operations a second time changes nothing. *)
Theorem upsert_all_idem ops l :
  Forall ok ops -> upall ops (upall ops l) = upall ops l.
Proof.
  revert ops. induction l as [|a l IH]; intros ops Hok.
  - now apply (upsert_all_idem_nil (List.length ops)).
  - rewrite (upsert_all_cons _ a l Hok).
    rewrite (upsert_all_cons _ _ _ Hok).
    assert (Hd : cls (appall (sel (cls a) ops) a) = cls a).
    { apply app_all_cls; auto using select_ok, select_matches. }
    rewrite Hd. f_equal.
    + apply app_all_idem; auto using select_ok, select_matches.
    + apply IH. now apply reject_ok.
Qed.
End Idempotence.

Section LastWins.
Variable seed : Op -> A.
Hypothesis mk_seed : forall o, mk o = app o (seed o).

(** The first element under a key has taken the last operation on that
    key last. *)
Lemma find_first_last_op k ops l S o :
  Forall ok ops -> sel k ops = S ++ [o] ->
  exists x, ffirst k (upall ops l) = Some (app o x).
Proof.
  intros Hok HS. rewrite (find_first_upsert_all k _ l Hok), HS.
  destruct (ffirst k l) as [a|].
  - exists (appall S a). now rewrite app_all_app.
  - destruct S as [|o1 S]; simpl.
    + exists (seed o). now rewrite mk_seed.
    + exists (appall S (mk o1)). now rewrite app_all_app.
Qed.
End LastWins.

Lemma find_first_some k l a :
  ffirst k l = Some a -> In a l /\ keq k (cls a) = true.
Proof.
  induction l as [|b l IH]; simpl; [discriminate|].
  destruct (keq k (cls b)) eqn:E; intros H.
  - inversion H; subst. auto.
  - destruct (IH H). auto.
Qed.

Lemma find_first_filter k (p : A -> bool) l :
  (forall a, keq k (cls a) = true -> p a = true) ->
  ffirst k (filter p l) = ffirst k l.
Proof.
  intros Hp. induction l as [|b l IH]; [reflexivity|]. simpl.
  destruct (keq k (cls b)) eqn:E.
  - rewrite (Hp _ E). simpl. now rewrite E.
  - destruct (p b); simpl; [rewrite E|]; exact IH.
Qed.

Lemma upsert_all_Forall (P : A -> Prop) (Q : Op -> Prop) ops l :
  (forall o, Q o -> P (mk o)) ->
  (forall o a, Q o -> keq (tgt o) (cls a) = true -> P a -> P (app o a)) ->
  Forall Q ops -> Forall P l -> Forall P (upall ops l).
Proof.
  intros Hmk Happ HQ. revert l.
  induction HQ as [|o ops Ho _ IH]; intros l Hl; [exact Hl|].
  rewrite upsert_all_cons_op. apply IH. clear IH.
  induction Hl as [|a l Ha Hl IHl]; simpl.
  - constructor; auto.
  - destruct (keq (tgt o) (cls a)) eqn:E; constructor; auto.
Qed.

Lemma select_app c ops1 ops2 : sel c (ops1 ++ ops2) = sel c ops1 ++ sel c ops2.
Proof. apply filter_app. Qed.

Lemma select_none c ops :
  Forall (fun o => keq (tgt o) c = false) ops -> sel c ops = [].
Proof.
  induction 1 as [|o ops Ho _ IH]; [reflexivity|].
  unfold select in *. simpl. now rewrite Ho.
Qed.
End KeyedTheory.

Arguments upsert_all_idem {A Op K}.
Arguments find_first_upsert_all {A Op K}.
Arguments of_class_upsert_all {A Op K}.
Arguments find_first_of_class {A K}.
Arguments find_first_last_op {A Op K}.
Arguments find_first_some {A K}.
Arguments find_first_filter {A K}.
Arguments select_app {Op K}.
Arguments select_none {Op K}.
Arguments upsert_all_Forall {A Op K}.

(** ** Objects: assignment of properties *)

Lemma last_cons_any (F : doc) (o a b : string * jsval) :
  last (o :: F) a = last (o :: F) b.
Proof.
  revert o. induction F as [|o' F IH]; intros o; [reflexivity|].
  apply (IH o').
Qed.

Lemma app_all_last (F : doc) (a : string * jsval) :
  app_all (fun o _ => o) F a = last F a.
Proof.
  revert a. induction F as [|o F IH]; intros a; [reflexivity|].
  change (app_all (fun o _ => o) F o = last (o :: F) a).
  rewrite IH. destruct F as [|o' F]; [reflexivity|].
  change (last (o' :: F) o = last (o' :: F) a).
  apply last_cons_any.
Qed.

Lemma last_last (F : doc) (a : string * jsval) : last F (last F a) = last F a.
Proof.
  destruct F as [|o F]; [reflexivity|]. apply last_cons_any.
Qed.

(** Assigning the same properties a second time changes nothing. *)
Lemma set_all_idem (ops d : doc) : set_all ops (set_all ops d) = set_all ops d.
Proof.
  unfold set_all.
  apply (upsert_all_idem fst fst String.eqb (fun o _ => o) (fun o => o)
           (fun _ => True)) with (seed := fun o => o).
  - intros o a _ E. now apply String.eqb_eq in E.
  - reflexivity.
  - reflexivity.
  - reflexivity.
  - exact String.eqb_refl.
  - intros F a _ _. rewrite !app_all_last. apply last_last.
  - apply Forall_forall. auto.
Qed.

Lemma set_all_app (ops1 ops2 d : doc) :
  set_all (ops1 ++ ops2) d = set_all ops2 (set_all ops1 d).
Proof. apply fold_left_app. Qed.

Lemma get_field_find_first (n : string) (d : doc) :
  get_field n d = option_map snd (find_first fst String.eqb n d).
Proof.
  induction d as [|[m v] d IH]; [reflexivity|].
  simpl. now destruct (String.eqb n m).
Qed.

Lemma select_differs (n m : string) (l : doc) :
  String.eqb m n = false ->
  select fst String.eqb n (filter (name_differs m) l) = select fst String.eqb n l.
Proof.
  intros E. induction l as [|[x v] l IH]; [reflexivity|].
  unfold name_differs in *. simpl.
  destruct (String.eqb x m) eqn:Exm; simpl.
  - apply String.eqb_eq in Exm. subst x. now rewrite E.
  - now rewrite IH.
Qed.

Lemma select_same (n : string) (l : doc) :
  select fst String.eqb n (filter (name_differs n) l) = [].
Proof.
  induction l as [|[x v] l IH]; [reflexivity|].
  unfold name_differs in *. simpl.
  destruct (String.eqb x n) eqn:E; simpl; [assumption|].
  now rewrite E.
Qed.

(** The own properties of an object under one name: its first binding. *)
Lemma select_entries (n : string) (fs : doc) :
  select fst String.eqb n (entries fs) =
  match get_field n fs with
  | Some v => [(n, v)]
  | None => []
  end.
Proof.
  induction fs as [|[m v] fs IH]; [reflexivity|].
  simpl. rewrite (String.eqb_sym n m).
  destruct (String.eqb m n) eqn:E.
  - apply String.eqb_eq in E. subst m. now rewrite select_same.
  - now rewrite select_differs.
Qed.

(** What the assignment leaves under a name: the new value when [fs] has
    the property, the old one when it does not. *)
Lemma get_field_set_fields (n : string) (fs d : doc) :
  get_field n (set_fields fs d) =
  match get_field n fs with
  | Some v => Some v
  | None => get_field n d
  end.
Proof.
  unfold set_fields, set_all.
  rewrite (get_field_find_first n d), (get_field_find_first n (upsert_all _ _ _ _ _ _ _)).
  rewrite (find_first_upsert_all fst fst String.eqb (fun o _ => o) (fun o => o)
             (fun _ => True)).
  - rewrite select_entries.
    destruct (get_field n fs) as [v|].
    + now destruct (find_first fst String.eqb n d).
    + now destruct (find_first fst String.eqb n d).
  - exact string_eqb_eq.
  - intros o a _ E. now apply String.eqb_eq in E.
  - reflexivity.
  - apply Forall_forall. auto.
Qed.

(** ** Paths: names without a dot *)

Lemma split_dots_plain (s : string) :
  dotted s = false -> split_dots s = (s, []).
Proof.
  induction s as [|a s IH]; simpl; intros H; [reflexivity|].
  apply orb_false_iff in H as [Ha Hs]. now rewrite (IH Hs), Ha.
Qed.

(** On a name without a dot the assignment of a [$set] is the assignment
    of a property of the document itself. *)
Lemma set_path_top_level (nv : string * jsval) (d : doc) :
  dotted (fst nv) = false -> set_path nv d = Ok (set_field nv d).
Proof.
  intros H. unfold set_path. rewrite (split_dots_plain _ H).
  unfold set_member. destruct nv as [n v]. simpl.
  now destruct (get_field n d).
Qed.

Lemma set_paths_top_level (ops d : doc) :
  top_level ops = true -> set_paths ops d = Ok (set_all ops d).
Proof.
  revert d. induction ops as [|nv ops IH]; intros d H; [reflexivity|].
  simpl in H. apply andb_prop in H as [Hn H]. apply negb_true_iff in Hn.
  simpl. rewrite (set_path_top_level _ _ Hn). simpl. exact (IH _ H).
Qed.

Lemma forallb_filter_kept {A} (p q : A -> bool) (l : list A) :
  forallb p l = true -> forallb p (filter q l) = true.
Proof.
  induction l as [|a l IH]; simpl; intros H; [reflexivity|].
  apply andb_prop in H as [Ha H].
  destruct (q a); simpl; [rewrite Ha|]; auto.
Qed.

Lemma top_level_entries (fs : doc) :
  top_level fs = true -> top_level (entries fs) = true.
Proof.
  unfold top_level. induction fs as [|[n v] fs IH]; simpl; intros H;
    [reflexivity|].
  apply andb_prop in H as [Hn H]. rewrite Hn. simpl.
  apply forallb_filter_kept. now apply IH.
Qed.

Lemma op_apply_top_level (o : update_op) (d : doc) :
  op_top_level o = true ->
  op_apply o d =
  if op_valid o then Ok (plain_apply o d) else Throw (op_error o).
Proof.
  unfold op_top_level, op_apply, op_valid, op_error, plain_apply, op_fields.
  destruct (set_value o); simpl; try reflexivity.
  intros H. destruct (paths_ok fields); [|reflexivity].
  now rewrite (set_paths_top_level _ _ (top_level_entries _ H)).
Qed.

(** ** Collections: [updateOne] with [upsert] *)

Section StoreTheory.
Variable field : string.

Local Abbreviation run := (store_upsert_all field).

Lemma op_apply_key (o : update_op) (d : doc) :
  op_ok field o -> jsval_eqb (op_key o) (key_of field d) = true ->
  key_of field (plain_apply o d) = key_of field d.
Proof.
  intros [_ Hset] E. apply jsval_eqb_eq in E.
  unfold key_of, plain_apply in *. rewrite get_field_set_fields.
  destruct (get_field field (op_fields o)) as [v|] eqn:G; [|reflexivity].
  simpl. rewrite (Hset v eq_refl). exact E.
Qed.

Lemma op_insert_key (o : update_op) :
  op_ok field o -> key_of field (plain_insert o) = op_key o.
Proof.
  intros [Hf Hset]. unfold key_of, plain_insert, plain_apply, op_seed.
  rewrite get_field_set_fields, Hf.
  destruct (get_field field (op_fields o)) as [v|] eqn:G.
  - simpl. now apply Hset.
  - simpl. now rewrite String.eqb_refl.
Qed.

Lemma op_apply_all_set (F : list update_op) (d : doc) :
  app_all plain_apply F d =
  set_all (flat_map (fun o => entries (op_fields o)) F) d.
Proof.
  revert d. induction F as [|o F IH]; intros d; [reflexivity|].
  simpl. rewrite set_all_app, IH. reflexivity.
Qed.

Lemma updateOne_top_level (o : update_op) (c : collection) :
  filter_field o = field -> op_top_level o = true ->
  updateOne o c =
  if op_valid o
  then Ok (upsert1 (key_of field) op_key jsval_eqb plain_apply plain_insert o c)
  else Throw (op_error o).
Proof.
  intros <- Ht. induction c as [|d c IH]; simpl.
  - unfold op_insert. rewrite (op_apply_top_level _ _ Ht).
    now destruct (op_valid o).
  - destruct (jsval_eqb (op_key o) (key_of (filter_field o) d)).
    + rewrite (op_apply_top_level _ _ Ht). now destruct (op_valid o).
    + rewrite IH. now destruct (op_valid o).
Qed.

(** What an ordered bulk write of such operations leaves: its valid
    prefix, applied. *)
Lemma bulkWrite_store (ops : list update_op) (c : collection) :
  Forall (op_ok field) ops -> forallb op_top_level ops = true ->
  snd (bulkWrite ops c) = run (valid_prefix ops) c.
Proof.
  intros Hok. revert c.
  induction Hok as [|o ops [Hf _] _ IH]; intros c Ht; [reflexivity|].
  simpl in Ht. apply andb_prop in Ht as [Ho Ht].
  simpl. rewrite (updateOne_top_level _ _ Hf Ho).
  destruct (op_valid o); [|reflexivity].
  now rewrite IH.
Qed.

Lemma bulkWrite_fst (ops : list update_op) (c : collection) :
  Forall (op_ok field) ops -> forallb op_top_level ops = true ->
  fst (bulkWrite ops c) = bulk_outcome ops.
Proof.
  intros Hok. revert c.
  induction Hok as [|o ops [Hf _] _ IH]; intros c Ht; [reflexivity|].
  simpl in Ht. apply andb_prop in Ht as [Ho Ht].
  simpl. rewrite (updateOne_top_level _ _ Hf Ho).
  destruct (op_valid o); [|reflexivity].
  now apply IH.
Qed.

Lemma bulk_outcome_ok (ops : list update_op) :
  forallb op_valid ops = true -> bulk_outcome ops = Ok tt.
Proof.
  induction ops as [|o ops IH]; intros H; [reflexivity|].
  simpl in *. apply andb_prop in H as [Ho H]. rewrite Ho. now apply IH.
Qed.

Lemma bulk_outcome_valid (ops : list update_op) :
  bulk_outcome ops = Ok tt -> forallb op_valid ops = true.
Proof.
  induction ops as [|o ops IH]; intros H; [reflexivity|].
  simpl in *. destruct (op_valid o); [now apply IH|discriminate].
Qed.

Lemma valid_prefix_all (ops : list update_op) :
  forallb op_valid ops = true -> valid_prefix ops = ops.
Proof.
  induction ops as [|o ops IH]; intros H; [reflexivity|].
  simpl in *. apply andb_prop in H as [Ho H]. rewrite Ho. f_equal. now apply IH.
Qed.

Lemma valid_prefix_ok (ops : list update_op) :
  Forall (op_ok field) ops -> Forall (op_ok field) (valid_prefix ops).
Proof.
  induction 1 as [|o ops Ho _ IH]; [constructor|].
  simpl. destruct (op_valid o); constructor; assumption.
Qed.

(** The same operations a second time leave the collection as it is. *)
Lemma store_upsert_all_idem (ops : list update_op) (c : collection) :
  Forall (op_ok field) ops -> run ops (run ops c) = run ops c.
Proof.
  intros Hok. unfold store_upsert_all.
  apply (upsert_all_idem (key_of field) op_key jsval_eqb plain_apply plain_insert
           (op_ok field))
    with (seed := fun o => [(filter_field o, op_key o)]).
  - exact op_apply_key.
  - exact op_insert_key.
  - reflexivity.
  - intros o [Hf _]. unfold key_of. simpl. now rewrite Hf, String.eqb_refl.
  - exact jsval_eqb_refl.
  - intros F a _ _. rewrite !op_apply_all_set. apply set_all_idem.
  - exact Hok.
Qed.

(** The first document under a key after a sequence of operations. *)
Lemma findOne_store_upsert_all (k : jsval) (ops : list update_op) (c : collection) :
  Forall (op_ok field) ops ->
  findOne field k (run ops c) =
  match findOne field k c with
  | Some d => Some (app_all plain_apply (select op_key jsval_eqb k ops) d)
  | None => match select op_key jsval_eqb k ops with
            | [] => None
            | o :: F => Some (app_all plain_apply F (plain_insert o))
            end
  end.
Proof.
  intros Hok. unfold findOne, store_upsert_all.
  apply (find_first_upsert_all (key_of field) op_key jsval_eqb plain_apply
           plain_insert (op_ok field)).
  - exact jsval_eqb_eq.
  - exact op_apply_key.
  - exact op_insert_key.
  - exact Hok.
Qed.

End StoreTheory.

(** ** What the handlers build *)

Lemma rmap_length {A B} (f : A -> result B) (l : list A) (ys : list B) :
  rmap f l = Ok ys -> List.length ys = List.length l.
Proof.
  revert ys. induction l as [|x l IH]; intros ys H; simpl in H.
  - now inversion H.
  - destruct (f x) as [y|]; [|discriminate]. simpl in H.
    destruct (rmap f l) as [ys'|]; [|discriminate]. simpl in H.
    inversion H; subst. simpl. f_equal. now apply IH.
Qed.

Lemma rmap_Forall2 {A B} (f : A -> result B) (l : list A) (ys : list B) :
  rmap f l = Ok ys -> Forall2 (fun x y => f x = Ok y) l ys.
Proof.
  revert ys. induction l as [|x l IH]; intros ys H; simpl in H.
  - inversion H. constructor.
  - destruct (f x) as [y|] eqn:Ex; [|discriminate]. simpl in H.
    destruct (rmap f l) as [ys'|]; [|discriminate]. simpl in H.
    inversion H; subst. constructor; auto.
Qed.

Lemma nonempty_array_body (b : option jsval) (payload : list jsval) :
  nonempty_array b = Some payload -> b = Some (JArr payload) /\ payload <> [].
Proof.
  destruct b as [[| | | | |[|x l]|]|]; simpl; intros H; try discriminate.
  inversion H; subst. split; [reflexivity|discriminate].
Qed.

(** The update of a flat record restates the id its filter looks for. *)
Lemma prompt_op_ok (r : jsval) (o : update_op) :
  prompt_op r = Ok o -> op_ok "promptVersionId" o.
Proof.
  unfold prompt_op. destruct r; simpl; intros H; inversion H; subst;
    (split; [reflexivity|]); unfold op_fields, op_key; simpl;
    try discriminate.
  intros v Hv. now rewrite Hv.
Qed.

Lemma prompt_ops_ok (payload : list jsval) (ops : list update_op) :
  rmap prompt_op payload = Ok ops -> Forall (op_ok "promptVersionId") ops.
Proof.
  intros H. apply rmap_Forall2 in H.
  induction H as [|r o l ops Hr _ IH]; constructor; eauto using prompt_op_ok.
Qed.

Lemma nonempty_array_items (b : option jsval) (payload : list jsval) :
  nonempty_array b = Some payload -> payload_items b = payload.
Proof.
  intros H. apply nonempty_array_body in H as [-> _]. reflexivity.
Qed.

Lemma prompt_ops_top_level (payload : list jsval) (ops : list update_op) :
  rmap prompt_op payload = Ok ops ->
  forallb top_level_record payload = true ->
  forallb op_top_level ops = true.
Proof.
  intros H. apply rmap_Forall2 in H.
  induction H as [|r o l ops Hr _ IH]; intros Ht; [reflexivity|].
  simpl in Ht. apply andb_prop in Ht as [Ho Ht].
  simpl. rewrite (IH Ht), andb_true_r.
  unfold prompt_op in Hr. destruct r; simpl in Hr; inversion Hr; subst;
    try reflexivity.
  exact Ho.
Qed.

(** ** POST /sync_prompt_versions *)

(** The handler on a payload it accepts and can read. *)
Lemma sync_prompt_versions_run (req : request) (w : world)
    (payload : list jsval) (ops : list update_op) :
  nonempty_array (req_body req) = Some payload ->
  rmap prompt_op payload = Ok ops ->
  sync_prompt_versions req w =
  let dom := domain_of req in
  let w1 := World (db_set dom (snd (bulkWrite ops (db w dom))) (db w))
                  ((calls w ++ [Connect]) ++ [BulkWrite dom ops]) in
  match fst (bulkWrite ops (db w dom)) with
  | Ok _ => (Response 200 (upsert_body dom (List.length payload)),
             World (db w1) (calls w1 ++ [Close]))
  | Throw e => (Response 500 (error_body e), w1)
  end.
Proof.
  intros Hb Hops. unfold sync_prompt_versions. rewrite Hb.
  unfold respond, bind, lift, getMongoClient, client_close, log_call, ret.
  simpl. rewrite Hops.
  pose proof (rmap_length _ _ _ Hops) as Hlen.
  apply nonempty_array_body in Hb as [_ Hne].
  destruct ops as [|o ops]; [destruct payload; [congruence|discriminate]|].
  change (0 <? List.length (o :: ops))%nat with true. cbv iota.
  unfold collection_bulkWrite. simpl db. simpl calls.
  destruct (bulkWrite (o :: ops) (db w (domain_of req))) as [[[]|e] c']; reflexivity.
Qed.

(** The handler on a payload with a [null] element. *)
Lemma sync_prompt_versions_throw (req : request) (w : world)
    (payload : list jsval) (e : string) :
  nonempty_array (req_body req) = Some payload ->
  rmap prompt_op payload = Throw e ->
  sync_prompt_versions req w =
  (Response 500 (error_body e), World (db w) (calls w ++ [Connect])).
Proof.
  intros Hb Hops. unfold sync_prompt_versions. rewrite Hb.
  unfold respond, bind, lift, getMongoClient, client_close, log_call, ret.
  simpl. now rewrite Hops.
Qed.

Lemma db_set_same (name : string) (c : collection) (d : database) :
  db_set name c d name = c.
Proof. unfold db_set. now rewrite String.eqb_refl. Qed.

Lemma db_set_other (name n : string) (c : collection) (d : database) :
  n <> name -> db_set name c d n = d n.
Proof. unfold db_set. intros H. apply String.eqb_neq in H. now rewrite H. Qed.

(** What the flat sync leaves in the database, for records that name
    properties of the document itself. *)
Lemma sync_prompt_versions_db (req : request) (w : world) (coll : string) :
  forallb top_level_record (payload_items (req_body req)) = true ->
  db (snd (sync_prompt_versions req w)) coll =
  match nonempty_array (req_body req) with
  | Some payload =>
      match rmap prompt_op payload with
      | Ok ops =>
          if String.eqb coll (domain_of req)
          then store_upsert_all "promptVersionId" (valid_prefix ops)
                 (db w (domain_of req))
          else db w coll
      | Throw _ => db w coll
      end
  | None => db w coll
  end.
Proof.
  intros Ht.
  destruct (nonempty_array (req_body req)) as [payload|] eqn:Hb.
  - rewrite (nonempty_array_items _ _ Hb) in Ht.
    destruct (rmap prompt_op payload) as [ops|e] eqn:Hops.
    + rewrite (sync_prompt_versions_run _ w _ _ Hb Hops). cbv zeta.
      rewrite <- (bulkWrite_store _ _ _ (prompt_ops_ok _ _ Hops)
                    (prompt_ops_top_level _ _ Hops Ht)).
      destruct (fst (bulkWrite ops (db w (domain_of req)))); reflexivity.
    + now rewrite (sync_prompt_versions_throw _ w _ _ Hb Hops).
  - unfold sync_prompt_versions. now rewrite Hb.
Qed.

Lemma sync_prompt_versions_response (req : request) (w w' : world) :
  forallb top_level_record (payload_items (req_body req)) = true ->
  fst (sync_prompt_versions req w) = fst (sync_prompt_versions req w').
Proof.
  intros Ht.
  destruct (nonempty_array (req_body req)) as [payload|] eqn:Hb.
  - rewrite (nonempty_array_items _ _ Hb) in Ht.
    destruct (rmap prompt_op payload) as [ops|e] eqn:Hops.
    + rewrite !(sync_prompt_versions_run _ _ _ _ Hb Hops). cbv zeta.
      rewrite !(bulkWrite_fst "promptVersionId" _ _ (prompt_ops_ok _ _ Hops)
                  (prompt_ops_top_level _ _ Hops Ht)).
      now destruct (bulk_outcome ops).
    + now rewrite !(sync_prompt_versions_throw _ _ _ _ Hb Hops).
  - unfold sync_prompt_versions. now rewrite Hb.
Qed.

(** ** The [Map] of unique dependents *)

Lemma jsval_eqb_sym (a b : jsval) : jsval_eqb a b = jsval_eqb b a.
Proof.
  destruct (jsval_eqb a b) eqn:E1, (jsval_eqb b a) eqn:E2; try reflexivity.
  - apply jsval_eqb_eq in E1. subst. now rewrite jsval_eqb_refl in E2.
  - apply jsval_eqb_eq in E2. subst. now rewrite jsval_eqb_refl in E1.
Qed.

Lemma dependency_id_null : dependency_id JNull = None.
Proof. reflexivity. Qed.

Lemma dedup_step_id (m : js_map) (d : jsval) :
  d <> JNull ->
  dedup_step m d =
  Ok (map_set_all (match dependency_id d with
                   | Some k => [(k, d)]
                   | None => []
                   end) m).
Proof.
  intros Hd. unfold dedup_step, dependency_id.
  destruct d; simpl; try reflexivity; [congruence|].
  destruct (get_field "memberDependencyId" fields) as [k|]; [|reflexivity].
  now destruct (truthy k).
Qed.

(** The loop over non-null dependents is the sequence of its [set] calls. *)
Lemma dedup_loop_ok (m : js_map) (ds : list jsval) :
  ~ In JNull ds -> dedup_loop m ds = Ok (map_set_all (keyed_entries ds) m).
Proof.
  revert m. induction ds as [|d ds IH]; intros m Hn; [reflexivity|].
  simpl. rewrite dedup_step_id by (intros ->; apply Hn; now left).
  simpl. rewrite IH by (intros H; apply Hn; now right).
  unfold map_set_all, keyed_entries. simpl.
  now rewrite upsert_all_app.
Qed.

(** A [null] among the dependents stops the loop with a TypeError. *)
Lemma dedup_loop_throw (m : js_map) (ds : list jsval) :
  In JNull ds -> dedup_loop m ds = Throw (null_read "memberDependencyId").
Proof.
  revert m. induction ds as [|d ds IH]; intros m Hin; [destruct Hin|].
  simpl. destruct (jsval_eqb d JNull) eqn:E.
  - apply jsval_eqb_eq in E. subst. reflexivity.
  - apply jsval_eqb_neq in E. rewrite (dedup_step_id m d E). simpl.
    apply IH. destruct Hin; congruence.
Qed.

Lemma uniqueDependents_ok (ds : list jsval) :
  ~ In JNull ds ->
  uniqueDependents ds = Ok (map_values (map_set_all (keyed_entries ds) [])).
Proof. intros H. unfold uniqueDependents. now rewrite dedup_loop_ok. Qed.

Lemma uniqueDependents_inv (ds out : list jsval) :
  uniqueDependents ds = Ok out ->
  ~ In JNull ds /\ out = map_values (map_set_all (keyed_entries ds) []).
Proof.
  intros H. destruct (in_dec jsval_eq_dec JNull ds) as [Hin|Hn].
  - unfold uniqueDependents in H. now rewrite dedup_loop_throw in H.
  - split; [exact Hn|]. rewrite uniqueDependents_ok in H by exact Hn.
    now inversion H.
Qed.

Lemma keyed_entries_app (l1 l2 : list jsval) :
  keyed_entries (l1 ++ l2) = keyed_entries l1 ++ keyed_entries l2.
Proof. apply flat_map_app. Qed.

Lemma keyed_entries_In (ds : list jsval) (e : jsval * jsval) :
  In e (keyed_entries ds) -> In (snd e) ds /\ dependency_id (snd e) = Some (fst e).
Proof.
  unfold keyed_entries. intros H. apply in_flat_map in H as [d [Hd He]].
  destruct (dependency_id d) as [k|] eqn:E; [|destruct He].
  destruct He as [<-|[]]. auto.
Qed.

(** Every entry of the [Map] holds a dependent of the input under the key
    that dependent carries. *)
Lemma map_set_all_entries (ds : list jsval) :
  Forall (fun e => In (snd e) ds /\ dependency_id (snd e) = Some (fst e))
    (map_set_all (keyed_entries ds) []).
Proof.
  unfold map_set_all.
  apply (upsert_all_Forall fst fst same_value_zero (fun o a => (fst a, snd o))
           (fun o => o) _
           (fun e => In (snd e) ds /\ dependency_id (snd e) = Some (fst e))).
  - auto.
  - intros o a [Hin Hid] E _. apply same_value_zero_eq in E.
    simpl. rewrite <- E. auto.
  - apply Forall_forall. intros e. apply keyed_entries_In.
  - constructor.
Qed.

Lemma with_key_values (k : jsval) (m : js_map) :
  primitive k = true ->
  Forall (fun e => dependency_id (snd e) = Some (fst e)) m ->
  with_key k (map_values m) = map snd (of_class fst same_value_zero k m).
Proof.
  intros Hk Hm. unfold with_key, map_values, of_class.
  induction Hm as [|[k' d] m He _ IH]; [reflexivity|].
  simpl in *. rewrite He, IH. unfold same_value_zero. rewrite Hk. simpl.
  rewrite (jsval_eqb_sym k' k). now destruct (jsval_eqb k k').
Qed.

Lemma map_app_all_snd (F : js_map) (o e : jsval * jsval) :
  snd (app_all (fun o a => (fst a, snd o)) (F ++ [o]) e) = snd o.
Proof. unfold app_all. now rewrite fold_left_app. Qed.

(** Last write wins: of the dependents that carry a primitive key, the
    [Map] keeps the last one, once. *)
Lemma uniqueDependents_last (ds l1 l3 : list jsval) (b k : jsval) :
  ds = l1 ++ b :: l3 ->
  dependency_id b = Some k ->
  primitive k = true ->
  Forall (fun e => dependency_id e <> Some k) l3 ->
  with_key k (map_values (map_set_all (keyed_entries ds) [])) = [b].
Proof.
  intros -> Hb Hk Hl3.
  rewrite with_key_values; [|exact Hk|].
  2:{ eapply Forall_impl; [|apply map_set_all_entries]. now intros e [_ H]. }
  unfold map_set_all.
  rewrite (of_class_upsert_all fst fst same_value_zero
             (fun o a => (fst a, snd o)) (fun o => o) (fun _ => True)).
  - simpl of_class.
    rewrite keyed_entries_app, select_app. simpl keyed_entries at 2.
    rewrite Hb. simpl app at 2.
    assert (Hsel : select fst same_value_zero k ((k, b) :: keyed_entries l3) = [(k, b)]).
    { unfold select at 1. simpl. unfold same_value_zero at 1.
      rewrite Hk, jsval_eqb_refl. simpl. f_equal.
      apply select_none. apply Forall_forall. intros e He.
      apply keyed_entries_In in He as [Hin Hid].
      unfold same_value_zero. simpl.
      destruct (jsval_eqb (fst e) k) eqn:E; [|apply andb_false_r].
      apply jsval_eqb_eq in E.
      exfalso. apply (proj1 (Forall_forall _ _) Hl3 _ Hin). congruence. }
    rewrite Hsel.
    destruct (select fst same_value_zero k (keyed_entries l1)) as [|o S];
      [reflexivity|].
    simpl. f_equal. apply map_app_all_snd.
  - exact same_value_zero_eq.
  - reflexivity.
  - reflexivity.
  - apply Forall_forall. auto.
Qed.

(** ** What [/sync_member_dependencies] builds *)

Lemma member_op_inv (now : Z) (r : jsval) (oo : option update_op) :
  member_op now r = Ok oo ->
  exists pid, parent_id r = Ok pid /\
    match oo with
    | None => truthy_opt pid = false
    | Some o =>
        truthy_opt pid = true /\
        exists dm pm uniq,
          js_get r "dependentMembers" = Ok dm /\
          uniqueDependents (array_or_empty dm) = Ok uniq /\
          js_get r "parentMember" = Ok pm /\
          o = UpdateOne "parentMemberId" pid (member_set pid pm uniq now)
    end.
Proof.
  unfold member_op. destruct (parent_id r) as [pid|e]; simpl; [|discriminate].
  intros H. exists pid. split; [reflexivity|].
  destruct (truthy_opt pid); simpl in H.
  - destruct (js_get r "dependentMembers") as [dm|] eqn:Edm; simpl in H;
      [|discriminate].
    destruct (uniqueDependents (array_or_empty dm)) as [uniq|] eqn:Eu;
      simpl in H; [|discriminate].
    destruct (js_get r "parentMember") as [pm|] eqn:Epm; simpl in H;
      [|discriminate].
    inversion H; subst. split; [reflexivity|].
    exists dm, pm, uniq. auto.
  - now inversion H.
Qed.

Lemma member_op_key (now : Z) (r : jsval) (o : update_op) :
  member_op now r = Ok (Some o) ->
  parent_id r = Ok (Some (op_key o)) /\ truthy (op_key o) = true /\
  op_ok "parentMemberId" o /\ op_valid o = true /\ op_top_level o = true.
Proof.
  intros H. apply member_op_inv in H as [pid [Hp [Ht [dm [pm [uniq [_ [_ [_ ->]]]]]]]]].
  destruct pid as [v|]; [|discriminate]. simpl in Ht.
  unfold op_key, op_ok, op_fields, op_valid, op_top_level. simpl.
  repeat split; auto. intros x Hx. now inversion Hx.
Qed.

Lemma member_ops_split (clock : nat -> Z) (pre post : list jsval) (r : jsval) :
  forall i raw,
  member_ops clock i (pre ++ r :: post) = Ok raw ->
  exists raw1 o raw2,
    raw = raw1 ++ o :: raw2 /\
    member_ops clock i pre = Ok raw1 /\
    member_op (clock (i + List.length pre)%nat) r = Ok o /\
    member_ops clock (S (i + List.length pre)) post = Ok raw2.
Proof.
  induction pre as [|p pre IH]; intros i raw H; simpl in H.
  - destruct (member_op (clock i) r) as [o|] eqn:Eo; simpl in H; [|discriminate].
    destruct (member_ops clock (S i) post) as [raw2|] eqn:E2; simpl in H;
      [|discriminate].
    inversion H; subst. exists [], o, raw2.
    simpl. rewrite Nat.add_0_r. auto.
  - destruct (member_op (clock i) p) as [o1|] eqn:E1; simpl in H; [|discriminate].
    destruct (member_ops clock (S i) (pre ++ r :: post)) as [raw'|] eqn:E';
      simpl in H; [|discriminate].
    inversion H; subst.
    destruct (IH _ _ E') as [raw1 [o [raw2 [-> [H1 [H2 H3]]]]]].
    exists (o1 :: raw1), o, raw2. simpl. rewrite E1, H1. simpl.
    replace (i + S (List.length pre))%nat with (S i + List.length pre)%nat by lia.
    auto.
Qed.

(** The operations of the upsert phase against the ids of the delete
    phase: both come from the same records. *)
Lemma member_ops_keys (clock : nat -> Z) (payload : list jsval) :
  forall i raw,
  member_ops clock i payload = Ok raw ->
  exists ids, rmap parent_id payload = Ok ids /\
    map op_key (filter_some raw) = filter_truthy ids /\
    Forall (op_ok "parentMemberId") (filter_some raw) /\
    forallb op_valid (filter_some raw) = true /\
    forallb op_top_level (filter_some raw) = true.
Proof.
  induction payload as [|r payload IH]; intros i raw H; simpl in H.
  - inversion H. exists []. simpl. auto.
  - destruct (member_op (clock i) r) as [oo|] eqn:Eo; simpl in H; [|discriminate].
    destruct (member_ops clock (S i) payload) as [raw'|] eqn:E'; simpl in H;
      [|discriminate].
    inversion H; subst. clear H.
    destruct (IH _ _ E') as [ids [Hids [Hk [Hok [Hv Htl]]]]].
    destruct oo as [o|].
    + destruct (member_op_key _ _ _ Eo) as [Hp [Ht [Ho [Hvo Hto]]]].
      exists (Some (op_key o) :: ids). simpl. rewrite Hp, Hids. simpl.
      rewrite Ht, Hk, Hvo, Hv, Hto, Htl. auto.
    + apply member_op_inv in Eo as [pid [Hp Ht]].
      exists (pid :: ids). simpl. rewrite Hp, Hids. simpl.
      split; [reflexivity|]. split; [|auto].
      destruct pid as [v|]; [|exact Hk]. simpl in Ht. now rewrite Ht.
Qed.

Section MemberRuns.
Variable clock : nat -> Z.
Variable req : request.
Variable w : world.
Variable payload : list jsval.
Hypothesis Hbody : nonempty_array (req_body req) = Some payload.

Ltac run_member :=
  unfold sync_member_dependencies; rewrite Hbody;
  unfold respond, bind, lift, getMongoClient, client_close, log_call, ret;
  simpl.

(** A [null] record stops the handler at the first [map]. *)
Lemma sync_member_dependencies_null (e : string) :
  rmap parent_id payload = Throw e ->
  sync_member_dependencies clock req w =
  (Response 500 (error_body e), World (db w) (calls w ++ [Connect])).
Proof. intros H. run_member. now rewrite H. Qed.

(** No resolvable id: the guard of lines 122-125. *)
Lemma sync_member_dependencies_guard (ids : list (option jsval)) :
  rmap parent_id payload = Ok ids ->
  filter_truthy ids = [] ->
  sync_member_dependencies clock req w =
  (Response 400 (error_body "No valid parentMemberId found in payload"),
   World (db w) ((calls w ++ [Connect]) ++ [Close])).
Proof. intros H H0. run_member. now rewrite H, H0. Qed.

(** A [null] among the dependents of a record stops the handler at the
    second [map]. *)
Lemma sync_member_dependencies_throw (ids : list (option jsval)) (e : string) :
  rmap parent_id payload = Ok ids ->
  filter_truthy ids <> [] ->
  member_ops clock 0 payload = Throw e ->
  sync_member_dependencies clock req w =
  (Response 500 (error_body e), World (db w) (calls w ++ [Connect])).
Proof.
  intros H H0 H1. run_member. rewrite H.
  destruct (filter_truthy ids); [congruence|]. simpl. now rewrite H1.
Qed.

(** Both phases run. *)
Lemma sync_member_dependencies_ok (ids : list (option jsval))
    (raw : list (option update_op)) :
  rmap parent_id payload = Ok ids ->
  filter_truthy ids <> [] ->
  member_ops clock 0 payload = Ok raw ->
  let ops := filter_some raw in
  let q := FieldNin "parentMemberId" (filter_truthy ids) in
  let c1 := store_upsert_all "parentMemberId" ops (db w member_collection) in
  sync_member_dependencies clock req w =
  (Response 200 (snapshot_body (List.length ops) (fst (deleteMany q c1))),
   World (db_set member_collection (snd (deleteMany q c1))
            (db_set member_collection c1 (db w)))
         ((((calls w ++ [Connect]) ++ [BulkWrite member_collection ops])
           ++ [DeleteMany member_collection q]) ++ [Close])).
Proof.
  intros H H0 H1.
  destruct (member_ops_keys _ _ _ _ H1) as [ids' [Hids [Hk [Hok [Hv Htl]]]]].
  rewrite H in Hids. inversion Hids; subst ids'. clear Hids.
  run_member. rewrite H.
  destruct (filter_truthy ids) as [|v vs] eqn:Ef; [congruence|]. simpl.
  rewrite H1.
  destruct (filter_some raw) as [|o ops] eqn:Eops; [discriminate|].
  change (0 <? List.length (o :: ops))%nat with true. cbv iota.
  unfold collection_bulkWrite, collection_deleteMany. simpl db. simpl calls.
  pose proof (bulkWrite_fst "parentMemberId" (o :: ops)
                (db w member_collection) Hok Htl) as Hfst.
  rewrite (bulk_outcome_ok _ Hv) in Hfst.
  pose proof (bulkWrite_store "parentMemberId" (o :: ops)
                (db w member_collection) Hok Htl) as Hsnd.
  rewrite (valid_prefix_all _ Hv) in Hsnd.
  destruct (bulkWrite (o :: ops) (db w member_collection)) as [rb c'].
  simpl in Hfst, Hsnd. subst rb c'. cbv iota beta. cbn [db calls].
  rewrite db_set_same. reflexivity.
Qed.
End MemberRuns.

Lemma value_in_In (v : jsval) (vs : list jsval) :
  value_in v vs = true <-> In v vs.
Proof.
  unfold value_in. rewrite existsb_exists. split.
  - intros [x [Hx E]]. apply jsval_eqb_eq in E. now subst.
  - intros H. exists v. split; [exact H|apply jsval_eqb_refl].
Qed.

Lemma filter_truthy_In (v : jsval) (ids : list (option jsval)) :
  In v (filter_truthy ids) <-> In (Some v) ids /\ truthy v = true.
Proof.
  induction ids as [|[x|] ids IH]; simpl.
  - tauto.
  - destruct (truthy x) eqn:E; simpl; rewrite IH; split.
    + intros [->|[H1 H2]]; auto.
    + intros [[H|H] Ht]; [inversion H; auto|auto].
    + intros [H1 H2]; auto.
    + intros [[H|H] Ht]; [inversion H; congruence|auto].
  - rewrite IH. split; [tauto|]. intros [[H|H] Ht]; [discriminate|auto].
Qed.

Lemma truthy_not_null (v : jsval) : truthy v = true -> v <> JNull.
Proof. intros H ->. discriminate. Qed.

Lemma key_of_get_field (field : string) (d : doc) (v : jsval) :
  key_of field d = v -> v <> JNull -> get_field field d = Some v.
Proof.
  unfold key_of. destruct (get_field field d); simpl; congruence.
Qed.

Lemma rmap_In {A B} (f : A -> result B) (l : list A) (ys : list B) (y : B) :
  rmap f l = Ok ys -> (In y ys <-> exists x, In x l /\ f x = Ok y).
Proof.
  intros H. apply rmap_Forall2 in H.
  induction H as [|x y' l ys Hxy _ IH]; simpl.
  - split; [tauto|]. intros [x [[] _]].
  - rewrite IH. split.
    + intros [->|[x' [Hin Hx']]]; eauto.
    + intros [x' [[->|Hin] Hx']]; [left; congruence|eauto].
Qed.

Lemma parent_id_null (r : jsval) :
  r <> JNull -> exists v, parent_id r = Ok v.
Proof.
  intros H. unfold parent_id. destruct r; simpl; eauto. congruence.
Qed.

Lemma rmap_parent_id_ok (payload : list jsval) :
  ~ In JNull payload -> exists ids, rmap parent_id payload = Ok ids.
Proof.
  induction payload as [|r payload IH]; intros Hn; [exists []; reflexivity|].
  destruct (parent_id_null r) as [v Hv]; [intros ->; apply Hn; now left|].
  destruct IH as [ids Hids]; [intros H; apply Hn; now right|].
  exists (v :: ids). simpl. now rewrite Hv, Hids.
Qed.

Lemma rmap_parent_id_throw (payload : list jsval) :
  In JNull payload -> exists e, rmap parent_id payload = Throw e.
Proof.
  induction payload as [|r payload IH]; intros Hin; [destruct Hin|].
  simpl. destruct (parent_id r) as [v|e] eqn:Er; simpl; [|eauto].
  destruct Hin as [->|Hin]; [discriminate|].
  destruct (IH Hin) as [e He]. rewrite He. simpl. eauto.
Qed.

Lemma unresolvable_ids (payload : list jsval) (ids : list (option jsval)) :
  Forall (fun r => resolvable r = false) payload ->
  rmap parent_id payload = Ok ids -> filter_truthy ids = [].
Proof.
  intros Hall. revert ids.
  induction Hall as [|r payload Hr _ IH]; intros ids H; simpl in H.
  - now inversion H.
  - unfold resolvable in Hr.
    destruct (parent_id r) as [v|]; simpl in H; [|discriminate].
    destruct (rmap parent_id payload) as [ids'|]; simpl in H; [|discriminate].
    inversion H; subst. simpl.
    destruct v as [x|]; simpl in Hr; [rewrite Hr|]; now apply IH.
Qed.

(** A record the handler reads without a TypeError: it is not [null],
    and when its parent id resolves none of its dependents is [null]. *)
Lemma member_op_total (now : Z) (r : jsval) :
  well_formed_record r -> exists oo, member_op now r = Ok oo.
Proof.
  intros [Hr Hdep]. unfold resolvable in Hdep.
  destruct (parent_id_null r Hr) as [pid Hp].
  unfold member_op. rewrite Hp in *. simpl.
  destruct (truthy_opt pid); simpl; [|eauto].
  assert (Hdm : exists dm, js_get r "dependentMembers" = Ok dm).
  { destruct r; simpl; eauto; congruence. }
  assert (Hpm : exists pm, js_get r "parentMember" = Ok pm).
  { destruct r; simpl; eauto; congruence. }
  destruct Hdm as [dm Hdm]. destruct Hpm as [pm Hpm].
  rewrite Hdm. simpl.
  rewrite (uniqueDependents_ok _ (Hdep dm eq_refl Hdm)). simpl.
  rewrite Hpm. simpl. eauto.
Qed.

Lemma member_ops_total (clock : nat -> Z) (payload : list jsval) :
  Forall well_formed_record payload ->
  forall i, exists raw, member_ops clock i payload = Ok raw.
Proof.
  induction 1 as [|r payload Hr _ IH]; intros i; [exists []; reflexivity|].
  destruct (member_op_total (clock i) r Hr) as [oo Ho].
  destruct (IH (S i)) as [raw Hraw].
  exists (oo :: raw). simpl. now rewrite Ho, Hraw.
Qed.

(** A batch of well-formed records, one of which has a resolvable parent
    id, is answered 200. *)
Lemma sync_member_dependencies_succeeds (clock : nat -> Z) (req : request)
    (w : world) (payload : list jsval) :
  req_body req = Some (JArr payload) ->
  Forall well_formed_record payload ->
  Exists (fun r => resolvable r = true) payload ->
  status (fst (sync_member_dependencies clock req w)) = 200%Z.
Proof.
  intros Hb Hwf Hex.
  assert (Hn : nonempty_array (req_body req) = Some payload).
  { rewrite Hb. destruct payload; [inversion Hex|reflexivity]. }
  assert (Hnull : ~ In JNull payload).
  { intros Hin. now destruct (proj1 (Forall_forall _ _) Hwf _ Hin). }
  destruct (rmap_parent_id_ok _ Hnull) as [ids Hids].
  assert (Hne : filter_truthy ids <> []).
  { apply Exists_exists in Hex as [r [Hr Hres]]. unfold resolvable in Hres.
    destruct (parent_id r) as [[v|]|] eqn:Hp; try discriminate.
    assert (Hin : In v (filter_truthy ids)).
    { apply filter_truthy_In. split; [|exact Hres].
      apply (rmap_In _ _ _ (Some v) Hids). eauto. }
    intros E. rewrite E in Hin. destruct Hin. }
  destruct (member_ops_total clock payload Hwf 0) as [raw Hraw].
  now rewrite (sync_member_dependencies_ok clock req w payload Hn ids raw
                 Hids Hne Hraw).
Qed.

(* ===================================================================== *)
(** * The claims *)
(* ===================================================================== *)

(** ** Empty-batch rejection *)

Lemma rejected_payload_none (b : option jsval) :
  rejected_payload b -> nonempty_array b = None.
Proof.
  intros [->|H]; [reflexivity|].
  destruct b as [[| | | | |l|]|]; try reflexivity.
  now destruct (H l).
Qed.

(** C6.  A payload that is an empty array, or no array at all, is answered
    with status 400 by [/sync_prompt_versions] and by
    [/sync_member_dependencies], and the world after the call is the world
    before it: no call on the store has been logged (no connection, no
    write, no delete) and no collection has changed. *)
Theorem empty_payload_rejected (clock : nat -> Z) (req : request) (w : world) :
  rejected_payload (req_body req) ->
  sync_prompt_versions req w =
    (Response 400 (error_body "Empty payload"), w) /\
  sync_member_dependencies clock req w =
    (Response 400 (error_body "Payload must be a non-empty array"), w).
Proof.
  intros H. apply rejected_payload_none in H.
  unfold sync_prompt_versions, sync_member_dependencies.
  now rewrite H.
Qed.

Lemma empty_payload_rejected_witness :
  let w := World (fun _ => [[("promptVersionId", JStr "v1")]]) [Connect; Close] in
  let req := Request (Some "Prompt") (Some (JArr [])) in
  rejected_payload (req_body req) /\
  sync_prompt_versions req w =
    (Response 400 (error_body "Empty payload"), w) /\
  sync_member_dependencies (fun _ => 0%Z) req w =
    (Response 400 (error_body "Payload must be a non-empty array"), w).
Proof.
  intros w req.
  assert (H : rejected_payload (req_body req)) by (left; reflexivity).
  split; [exact H|].
  exact (empty_payload_rejected (fun _ => 0%Z) req w H).
Defined.

(** ** Idempotence of the flat upsert *)

(** C7, refuted as stated.  A batch of three records for the version
    [v1], the second of which names the path [b.c].  On an empty collection
    the first call goes through, and leaves [b] at 5; the second call sets
    [a] to 1, fails on [b.c] (a number has no property [c]) and is
    answered 500 with [a] left at 1: the collection after the second call
    is not the collection after the first. *)
Lemma dotted_name_breaks_idempotence :
  let id := ("promptVersionId", JStr "v1") in
  let batch := [JObj [id; ("a", JNum 1)];
                JObj [id; ("b.c", JNum 2)];
                JObj [id; ("b", JNum 5); ("a", JNum 9)]] in
  let req := Request None (Some (JArr batch)) in
  let once := sync_prompt_versions req (World (fun _ => []) []) in
  let twice := sync_prompt_versions req (snd once) in
  status (fst once) = 200%Z /\
  db (snd once) "Prompt" = [[id; ("a", JNum 9); ("b", JNum 5)]] /\
  status (fst twice) = 500%Z /\
  db (snd twice) "Prompt" = [[id; ("a", JNum 1); ("b", JNum 5)]] /\
  db (snd twice) "Prompt" <> db (snd once) "Prompt".
Proof.
  repeat split. intros H. vm_compute in H. discriminate H.
Qed.

(** C7, amended.  When no record of the batch has a property name with a
    dot, sending the same request to [/sync_prompt_versions] a second time
    leaves every collection as the first call left it, and is answered as
    the first call was: each key keeps its one document, none is added. *)
Theorem sync_prompt_versions_idempotent (req : request) (w : world) :
  forallb top_level_record (payload_items (req_body req)) = true ->
  let once := sync_prompt_versions req w in
  let twice := sync_prompt_versions req (snd once) in
  (forall coll, db (snd twice) coll = db (snd once) coll) /\
  fst twice = fst once.
Proof.
  intros Ht once twice. split; [|now apply sync_prompt_versions_response].
  intros coll. unfold twice. rewrite (sync_prompt_versions_db _ _ _ Ht).
  destruct (nonempty_array (req_body req)) as [payload|] eqn:Hb;
    [|reflexivity].
  destruct (rmap prompt_op payload) as [ops|e] eqn:Hops; [|reflexivity].
  destruct (String.eqb coll (domain_of req)) eqn:Ec; [|reflexivity].
  apply String.eqb_eq in Ec. subst coll.
  unfold once. rewrite !(sync_prompt_versions_db _ _ _ Ht), Hb, Hops.
  rewrite String.eqb_refl.
  apply store_upsert_all_idem, valid_prefix_ok.
  exact (prompt_ops_ok _ _ Hops).
Qed.

Lemma sync_prompt_versions_idempotent_witness :
  let second := JObj [("promptVersionId", JStr "v1"); ("name", JStr "second")] in
  let req := Request None (Some (JArr [JObj sample_version; second])) in
  let once := sync_prompt_versions req sample_prompt_world in
  let twice := sync_prompt_versions req (snd once) in
  (forall coll, db (snd twice) coll = db (snd once) coll) /\
  fst twice = fst once.
Proof.
  intros second req.
  exact (sync_prompt_versions_idempotent req sample_prompt_world eq_refl).
Defined.

(** ** Records without an id in the flat sync *)

(** C4, evaluated.  On a batch of one record with an id and one without,
    [/sync_prompt_versions] submits two operations, the second with the
    filter [{ promptVersionId: undefined }]; the record without an id is
    written as a document of its own, and the count is 2. *)
Example sync_prompt_versions_writes_keyless :
  let keyed := JObj [("promptVersionId", JStr "v1"); ("a", JNum 1)] in
  let keyless := JObj [("a", JNum 2)] in
  let req := Request None (Some (JArr [keyed; keyless])) in
  let r := sync_prompt_versions req (World (fun _ => []) []) in
  fst r = Response 200 (upsert_body "Prompt" 2) /\
  db (snd r) "Prompt" =
    [[("promptVersionId", JStr "v1"); ("a", JNum 1)];
     [("promptVersionId", JNull); ("a", JNum 2)]] /\
  calls (snd r) =
    [Connect;
     BulkWrite "Prompt"
       [UpdateOne "promptVersionId" (Some (JStr "v1")) keyed;
        UpdateOne "promptVersionId" None keyless];
     Close].
Proof. repeat split. Qed.

(** ** Reconciliation *)

Section Reconcile.
Variable field : string.
Variable ops : list update_op.
Variable ids : list jsval.
Variable c : collection.
Hypothesis ops_ok : Forall (op_ok field) ops.
Hypothesis ops_ids : map op_key ops = ids.
Hypothesis ids_truthy : forall v, In v ids -> truthy v = true.

Local Abbreviation upserted := (store_upsert_all field ops c).
Local Abbreviation reconciled := (snd (deleteMany (FieldNin field ids) upserted)).

(** The delete phase keeps the documents whose key is in the batch. *)
Lemma reconciled_filter :
  reconciled = filter (fun d => value_in (key_of field d) ids) upserted.
Proof.
  simpl. apply filter_ext. intros d. apply negb_involutive.
Qed.

(** What stays has a key of the batch. *)
Lemma reconciled_sound (d : doc) :
  In d reconciled -> exists v, get_field field d = Some v /\ In v ids.
Proof.
  rewrite reconciled_filter, filter_In. intros [_ H].
  apply value_in_In in H. exists (key_of field d). split; [|exact H].
  apply key_of_get_field; [reflexivity|].
  apply truthy_not_null. now apply ids_truthy.
Qed.

(** The first document under a key of the batch survives the delete. *)
Lemma findOne_reconciled (k : jsval) :
  In k ids -> findOne field k reconciled = findOne field k upserted.
Proof.
  intros Hk. rewrite reconciled_filter. unfold findOne.
  apply find_first_filter. intros d E.
  apply jsval_eqb_eq in E. rewrite <- E. now apply value_in_In.
Qed.

(** Every key of the batch has a document. *)
Lemma reconciled_complete (v : jsval) :
  In v ids -> exists d, In d reconciled /\ get_field field d = Some v.
Proof.
  intros Hv. pose proof Hv as Hv'. rewrite <- ops_ids in Hv'.
  apply in_map_iff in Hv' as [o [Ho Hin]].
  assert (Hsel : In o (select op_key jsval_eqb v ops)).
  { apply filter_In. split; [exact Hin|]. rewrite Ho. apply jsval_eqb_refl. }
  assert (Hfind : exists d, findOne field v upserted = Some d).
  { rewrite (findOne_store_upsert_all field v ops c ops_ok).
    destruct (findOne field v c); [eauto|].
    destruct (select op_key jsval_eqb v ops); [destruct Hsel|eauto]. }
  destruct Hfind as [d Hd]. exists d.
  rewrite <- (findOne_reconciled v Hv) in Hd.
  apply (find_first_some (key_of field) jsval_eqb) in Hd as [Hin' E].
  split; [exact Hin'|].
  apply jsval_eqb_eq in E.
  apply key_of_get_field; [now symmetry|].
  apply truthy_not_null. now apply ids_truthy.
Qed.
End Reconcile.

(** A call on [/sync_member_dependencies] that is answered 200 has run
    both phases. *)
Lemma sync_member_dependencies_200 (clock : nat -> Z) (req : request)
    (w : world) (payload : list jsval) :
  req_body req = Some (JArr payload) ->
  status (fst (sync_member_dependencies clock req w)) = 200%Z ->
  exists ids raw,
    nonempty_array (req_body req) = Some payload /\
    rmap parent_id payload = Ok ids /\
    filter_truthy ids <> [] /\
    member_ops clock 0 payload = Ok raw.
Proof.
  intros Hb H.
  assert (Hn : nonempty_array (req_body req) = Some payload).
  { rewrite Hb. destruct payload; [|reflexivity].
    unfold sync_member_dependencies in H. rewrite Hb in H. discriminate. }
  destruct (rmap parent_id payload) as [ids|e] eqn:Hids.
  2:{ rewrite (sync_member_dependencies_null clock req w payload Hn e Hids) in H.
      discriminate. }
  destruct (filter_truthy ids) as [|v vs] eqn:Ef.
  { rewrite (sync_member_dependencies_guard clock req w payload Hn ids Hids Ef) in H.
    discriminate. }
  assert (Hne : filter_truthy ids <> []) by (rewrite Ef; discriminate).
  destruct (member_ops clock 0 payload) as [raw|e] eqn:Hraw.
  - exists ids, raw. repeat split; auto.
  - rewrite (sync_member_dependencies_throw clock req w payload Hn ids e Hids Hne Hraw) in H.
    discriminate.
Qed.

(** C1.  After a call on [/sync_member_dependencies] that is answered 200
    (which takes a non-empty batch with at least one resolvable
    [parentMemberId]), every document of the collection carries a
    [parentMemberId], and the values carried are exactly the resolvable
    [parentMemberId] values of the batch: what was stored under another
    key, or under none, is gone, and every key of the batch is there. *)
Theorem sync_member_dependencies_reconciles (clock : nat -> Z) (req : request)
    (w : world) (payload : list jsval) :
  req_body req = Some (JArr payload) ->
  status (fst (sync_member_dependencies clock req w)) = 200%Z ->
  let stored := db (snd (sync_member_dependencies clock req w)) member_collection in
  (forall d, In d stored -> exists v, get_field "parentMemberId" d = Some v) /\
  (forall v,
     (exists d, In d stored /\ get_field "parentMemberId" d = Some v) <->
     (exists r, In r payload /\ parent_id r = Ok (Some v) /\ truthy v = true)).
Proof.
  intros Hb H200.
  destruct (sync_member_dependencies_200 clock req w payload Hb H200)
    as [ids [raw [Hn [Hids [Hne Hraw]]]]].
  rewrite (sync_member_dependencies_ok clock req w payload Hn ids raw Hids Hne Hraw).
  cbv zeta. cbn [snd db]. rewrite db_set_same.
  destruct (member_ops_keys _ _ _ _ Hraw) as [ids' [Hids' [Hk [Hok _]]]].
  rewrite Hids in Hids'. inversion Hids'; subst ids'. clear Hids'.
  assert (Ht : forall v, In v (filter_truthy ids) -> truthy v = true).
  { intros v Hv. now apply filter_truthy_In in Hv. }
  assert (Hbatch : forall v, In v (filter_truthy ids) <->
            exists r, In r payload /\ parent_id r = Ok (Some v) /\ truthy v = true).
  { intros v. rewrite filter_truthy_In, (rmap_In _ _ _ (Some v) Hids).
    split.
    - intros [[r [Hr Hp]] Hv]. eauto.
    - intros [r [Hr [Hp Hv]]]. eauto. }
  split.
  - intros d Hd.
    destruct (reconciled_sound "parentMemberId" _ _ _ Ht d Hd) as [v [Hv _]].
    eauto.
  - intros v. rewrite <- Hbatch. split.
    + intros [d [Hd Hv]].
      destruct (reconciled_sound "parentMemberId" _ _ _ Ht d Hd) as [v' [Hv' Hin]].
      congruence.
    + intros Hv.
      exact (reconciled_complete "parentMemberId" _ _ (db w member_collection) Hok Hk Ht v Hv).
Qed.

(** ** What is stored for a record *)

Lemma filter_some_app {A} (l1 l2 : list (option A)) :
  filter_some (l1 ++ l2) = filter_some l1 ++ filter_some l2.
Proof.
  induction l1 as [|[a|] l1 IH]; simpl; [reflexivity| |exact IH].
  now rewrite IH.
Qed.

Lemma member_ops_key_In (clock : nat -> Z) (l : list jsval) :
  forall i raw o,
  member_ops clock i l = Ok raw -> In o (filter_some raw) ->
  exists r, In r l /\ parent_id r = Ok (Some (op_key o)).
Proof.
  induction l as [|r l IH]; intros i raw o H Hin; simpl in H.
  - inversion H; subst. destruct Hin.
  - destruct (member_op (clock i) r) as [oo|] eqn:Eo; simpl in H; [|discriminate].
    destruct (member_ops clock (S i) l) as [raw'|] eqn:E'; simpl in H;
      [|discriminate].
    inversion H; subst. clear H.
    destruct oo as [o'|]; simpl in Hin.
    + destruct Hin as [->|Hin].
      * exists r. split; [now left|].
        now destruct (member_op_key _ _ _ Eo).
      * destruct (IH _ _ _ E' Hin) as [r' [Hr' Hp]]. exists r'. split; [now right|exact Hp].
    + destruct (IH _ _ _ E' Hin) as [r' [Hr' Hp]]. exists r'. split; [now right|exact Hp].
Qed.

(** The document a successful call leaves for a record with a resolvable
    parent id that no later record of the batch repeats: the first
    document under that id holds the four properties the handler sets. *)
Lemma member_record_stored (clock : nat -> Z) (req : request) (w : world)
    (pre post : list jsval) (r pid : jsval) :
  req_body req = Some (JArr (pre ++ r :: post)) ->
  status (fst (sync_member_dependencies clock req w)) = 200%Z ->
  parent_id r = Ok (Some pid) ->
  truthy pid = true ->
  Forall (fun r' => parent_id r' <> Ok (Some pid)) post ->
  exists dm pm uniq d,
    js_get r "dependentMembers" = Ok dm /\
    js_get r "parentMember" = Ok pm /\
    uniqueDependents (array_or_empty dm) = Ok uniq /\
    findOne "parentMemberId" pid
      (db (snd (sync_member_dependencies clock req w)) member_collection)
      = Some d /\
    get_field "parentMemberId" d = Some pid /\
    get_field "parentMember" d = Some (bson pm) /\
    get_field "dependentMembers" d = Some (JArr uniq) /\
    get_field "lastSyncedAt" d = Some (JDate (clock (List.length pre))).
Proof.
  intros Hb H200 Hp Ht Hpost.
  destruct (sync_member_dependencies_200 clock req w _ Hb H200)
    as [ids [raw [Hn [Hids [Hne Hraw]]]]].
  rewrite (sync_member_dependencies_ok clock req w _ Hn ids raw Hids Hne Hraw).
  cbv zeta. cbn [snd db]. rewrite db_set_same.
  destruct (member_ops_keys _ _ _ _ Hraw) as [ids' [Hids' [Hk [Hok _]]]].
  rewrite Hids in Hids'. inversion Hids'; subst ids'. clear Hids'.
  destruct (member_ops_split _ _ _ _ _ _ Hraw)
    as [raw1 [oo [raw2 [-> [H1 [Ho H2]]]]]].
  simpl in Ho.
  destruct (member_op_inv _ _ _ Ho) as [pid' [Hp' Hoo]].
  rewrite Hp in Hp'. inversion Hp'; subst pid'. clear Hp'.
  destruct oo as [o|]; [|simpl in Hoo; congruence].
  destruct Hoo as [_ [dm [pm [uniq [Hdm [Hu [Hpm ->]]]]]]].
  exists dm, pm, uniq.
  rewrite filter_some_app in *. simpl filter_some in *.
  set (o := UpdateOne "parentMemberId" (Some pid)
              (member_set (Some pid) pm uniq (clock (List.length pre)))) in *.
  assert (Hin : In pid (filter_truthy ids)).
  { rewrite <- Hk, map_app. apply in_or_app. right. now left. }
  assert (Hsel : select op_key jsval_eqb pid (filter_some raw1 ++ o :: filter_some raw2)
                 = select op_key jsval_eqb pid (filter_some raw1) ++ [o]).
  { rewrite select_app. f_equal. unfold select at 1. simpl.
    rewrite jsval_eqb_refl. f_equal.
    apply select_none. apply Forall_forall. intros o' Ho'.
    destruct (member_ops_key_In _ _ _ _ _ H2 Ho') as [r' [Hr' Hp']].
    apply jsval_eqb_neq. intros E. rewrite E in Hp'.
    exact (proj1 (Forall_forall _ _) Hpost _ Hr' Hp'). }
  destruct (find_first_last_op (key_of "parentMemberId") op_key jsval_eqb
              plain_apply plain_insert (op_ok "parentMemberId")
              jsval_eqb_eq (op_apply_key "parentMemberId")
              (op_insert_key "parentMemberId")
              (fun o => [(filter_field o, op_key o)]) (fun o => eq_refl)
              pid _ (db w member_collection) _ o Hok Hsel) as [x Hx].
  exists (plain_apply o x).
  rewrite (findOne_reconciled "parentMemberId" _ _ _ pid Hin).
  unfold findOne, store_upsert_all. rewrite Hx.
  unfold plain_apply. rewrite !get_field_set_fields.
  repeat split; auto.
Qed.

(** ** Deduplication of dependents *)

(** The operation built for a record with a resolvable parent id whose
    dependents are read without a TypeError. *)
Lemma member_op_built (now : Z) (r pid : jsval) (dm : option jsval) :
  parent_id r = Ok (Some pid) ->
  truthy pid = true ->
  js_get r "dependentMembers" = Ok dm ->
  ~ In JNull (array_or_empty dm) ->
  exists o,
    member_op now r = Ok (Some o) /\
    filter_value o = Some pid /\
    get_field "dependentMembers" (op_fields o) =
      Some (JArr (map_values (map_set_all (keyed_entries (array_or_empty dm)) []))).
Proof.
  intros Hp Ht Hdm Hnull.
  assert (Hpm : exists pm, js_get r "parentMember" = Ok pm).
  { unfold parent_id in Hp. destruct (js_get r "parentMember"); [eauto|discriminate]. }
  destruct Hpm as [pm Hpm].
  unfold member_op. rewrite Hp. simpl. rewrite Ht. simpl.
  rewrite Hdm. simpl. rewrite (uniqueDependents_ok _ Hnull). simpl.
  rewrite Hpm. simpl. eexists. repeat split.
Qed.

(** C2.  Take a record with a resolvable parent id whose
    [dependentMembers] holds an entry [a] and, later, an entry [b] with the
    same truthy primitive [memberDependencyId] [k] (whatever the rest of
    their content), no entry after [b] having that id.  The operation the
    handler builds for the record (it builds one when no dependent is
    [null]) sets a [dependentMembers] with exactly one entry of id [k],
    and that entry is [b].  After any call that is answered 200 on a batch
    in which no later record repeats the parent id, the [dependentMembers]
    stored under the parent id holds exactly one entry of id [k], and that
    entry is [b]. *)
Theorem dedup_last_write_wins (r pid : jsval) (l1 l2 l3 : list jsval)
    (a b k : jsval) :
  let ds := l1 ++ a :: l2 ++ b :: l3 in
  parent_id r = Ok (Some pid) ->
  truthy pid = true ->
  js_get r "dependentMembers" = Ok (Some (JArr ds)) ->
  dependency_id a = Some k ->
  dependency_id b = Some k ->
  primitive k = true ->
  Forall (fun e => dependency_id e <> Some k) l3 ->
  (~ In JNull ds ->
   forall now, exists o out,
     member_op now r = Ok (Some o) /\
     get_field "dependentMembers" (op_fields o) = Some (JArr out) /\
     with_key k out = [b]) /\
  (forall clock req w pre post,
     req_body req = Some (JArr (pre ++ r :: post)) ->
     status (fst (sync_member_dependencies clock req w)) = 200%Z ->
     Forall (fun r' => parent_id r' <> Ok (Some pid)) post ->
     exists d out,
       findOne "parentMemberId" pid
         (db (snd (sync_member_dependencies clock req w)) member_collection)
         = Some d /\
       get_field "dependentMembers" d = Some (JArr out) /\
       with_key k out = [b]).
Proof.
  intros ds Hp Ht Hdm Ha Hk Hprim Hl3.
  assert (Hlast : with_key k (map_values (map_set_all (keyed_entries ds) [])) = [b]).
  { apply (uniqueDependents_last ds (l1 ++ a :: l2) l3 b k); auto.
    unfold ds. now rewrite <- app_assoc. }
  split.
  - intros Hnull now.
    destruct (member_op_built now r pid (Some (JArr ds)) Hp Ht Hdm Hnull)
      as [o [Ho [_ Hset]]].
    exists o. eexists. split; [exact Ho|]. split; [exact Hset|exact Hlast].
  - intros clock req w pre post Hb H200 Hpost.
    destruct (member_record_stored clock req w pre post r pid Hb H200 Hp Ht Hpost)
      as [dm [pm [uniq [d [Hdm' [_ [Hu [Hd [_ [_ [Hdep _]]]]]]]]]]].
    rewrite Hdm in Hdm'. inversion Hdm'; subst dm. clear Hdm'.
    simpl in Hu. apply uniqueDependents_inv in Hu as [_ ->].
    exists d. eexists. split; [exact Hd|]. split; [exact Hdep|exact Hlast].
Qed.

Lemma dedup_last_write_wins_witness :
  let req := Request None (Some (JArr ([] ++ sample_record :: []))) in
  let res := sync_member_dependencies sample_clock req sample_world in
  (forall now, exists o out,
     member_op now sample_record = Ok (Some o) /\
     get_field "dependentMembers" (op_fields o) = Some (JArr out) /\
     with_key (JStr "D1") out = [dependent "D1" 2]) /\
  (exists d out,
     findOne "parentMemberId" (JStr "P1") (db (snd res) member_collection)
       = Some d /\
     get_field "dependentMembers" d = Some (JArr out) /\
     with_key (JStr "D1") out = [dependent "D1" 2]).
Proof.
  intros req res.
  destruct (dedup_last_write_wins sample_record (JStr "P1") [] [] []
              (dependent "D1" 1) (dependent "D1" 2) (JStr "D1")
              eq_refl eq_refl eq_refl eq_refl eq_refl eq_refl
              (Forall_nil _)) as [Hop Hstore].
  split.
  - apply Hop. simpl. intros [H|[H|[]]]; discriminate.
  - apply (Hstore sample_clock req sample_world [] []);
      [reflexivity|reflexivity|constructor].
Defined.

Lemma sync_member_dependencies_reconciles_witness :
  let req := Request None (Some (JArr [sample_record])) in
  let res := sync_member_dependencies sample_clock req sample_world in
  let stored := db (snd res) member_collection in
  status (fst res) = 200%Z /\
  (forall d, In d stored -> exists v, get_field "parentMemberId" d = Some v) /\
  (forall v,
     (exists d, In d stored /\ get_field "parentMemberId" d = Some v) <->
     (exists r, In r [sample_record] /\ parent_id r = Ok (Some v) /\
                truthy v = true)).
Proof.
  intros req res stored.
  assert (H : status (fst res) = 200%Z) by reflexivity.
  split; [exact H|].
  exact (sync_member_dependencies_reconciles sample_clock req sample_world
           [sample_record] eq_refl H).
Defined.

(** ** Dependents without an id *)

(** C3, refuted as stated.  A dependent without a [memberDependencyId] is
    not kept: of the two dependents of the record, the stored list holds
    the keyed one only. *)
Lemma keyless_dependent_dropped :
  let req := Request None (Some (JArr [sample_keyless_record])) in
  let res := sync_member_dependencies sample_clock req sample_world in
  status (fst res) = 200%Z /\
  js_get keyless_dependent "memberDependencyId" = Ok None /\
  exists d,
    findOne "parentMemberId" (JStr "P1") (db (snd res) member_collection)
      = Some d /\
    get_field "dependentMembers" d = Some (JArr [dependent "D1" 2]) /\
    ~ In keyless_dependent [dependent "D1" 2].
Proof.
  intros req res. split; [reflexivity|]. split; [reflexivity|].
  eexists. split; [reflexivity|]. split; [reflexivity|].
  intros [H|[]]. discriminate.
Qed.

(** C3, amended.  For a record with a resolvable parent id, every entry
    of the [dependentMembers] the handler sets is an entry of the record's
    [dependentMembers] that carries a truthy [memberDependencyId], and an
    entry without one is not among them: so for the operation built for
    the record (it is built when no dependent is [null]), and so for the
    document stored under the parent id after any call answered 200 on a
    batch in which no later record repeats the parent id. *)
Theorem stored_dependents_are_keyed (r pid : jsval) (dm : option jsval) :
  parent_id r = Ok (Some pid) ->
  truthy pid = true ->
  js_get r "dependentMembers" = Ok dm ->
  let keyed_only (out : list jsval) :=
    (forall e, In e out ->
       In e (array_or_empty dm) /\ exists k, dependency_id e = Some k) /\
    (forall e, dependency_id e = None -> ~ In e out) in
  (~ In JNull (array_or_empty dm) ->
   forall now, exists o out,
     member_op now r = Ok (Some o) /\
     get_field "dependentMembers" (op_fields o) = Some (JArr out) /\
     keyed_only out) /\
  (forall clock req w pre post,
     req_body req = Some (JArr (pre ++ r :: post)) ->
     status (fst (sync_member_dependencies clock req w)) = 200%Z ->
     Forall (fun r' => parent_id r' <> Ok (Some pid)) post ->
     exists d out,
       findOne "parentMemberId" pid
         (db (snd (sync_member_dependencies clock req w)) member_collection)
         = Some d /\
       get_field "dependentMembers" d = Some (JArr out) /\
       keyed_only out).
Proof.
  intros Hp Ht Hdm keyed_only.
  assert (Hall : forall e,
            In e (map_values (map_set_all (keyed_entries (array_or_empty dm)) [])) ->
            In e (array_or_empty dm) /\ exists k, dependency_id e = Some k).
  { intros e He. unfold map_values in He.
    apply in_map_iff in He as [[k e'] [<- Hin]].
    pose proof (proj1 (Forall_forall _ _)
                  (map_set_all_entries (array_or_empty dm)) _ Hin) as [H1 H2].
    simpl in *. eauto. }
  assert (Hkeyed : keyed_only
            (map_values (map_set_all (keyed_entries (array_or_empty dm)) []))).
  { split; [exact Hall|].
    intros e He Hin. destruct (Hall e Hin) as [_ [k Hk]]. congruence. }
  split.
  - intros Hnull now.
    destruct (member_op_built now r pid dm Hp Ht Hdm Hnull) as [o [Ho [_ Hset]]].
    exists o. eexists. split; [exact Ho|]. split; [exact Hset|exact Hkeyed].
  - intros clock req w pre post Hb H200 Hpost.
    destruct (member_record_stored clock req w pre post r pid Hb H200 Hp Ht Hpost)
      as [dm' [pm [uniq [d [Hdm' [_ [Hu [Hd [_ [_ [Hdep _]]]]]]]]]]].
    rewrite Hdm in Hdm'. inversion Hdm'; subst dm'. clear Hdm'.
    apply uniqueDependents_inv in Hu as [_ ->].
    exists d. eexists. split; [exact Hd|]. split; [exact Hdep|exact Hkeyed].
Qed.

Lemma stored_dependents_are_keyed_witness :
  let req := Request None (Some (JArr ([] ++ sample_keyless_record :: []))) in
  let res := sync_member_dependencies sample_clock req sample_world in
  let ds := [keyless_dependent; dependent "D1" 2] in
  exists d out,
    findOne "parentMemberId" (JStr "P1") (db (snd res) member_collection)
      = Some d /\
    get_field "dependentMembers" d = Some (JArr out) /\
    (forall e, In e out -> In e ds /\ exists k, dependency_id e = Some k) /\
    (forall e, dependency_id e = None -> ~ In e out).
Proof.
  intros req res ds.
  destruct (stored_dependents_are_keyed sample_keyless_record (JStr "P1")
              (Some (JArr ds)) eq_refl eq_refl eq_refl) as [_ Hstore].
  apply (Hstore sample_clock req sample_world [] []);
    [reflexivity|reflexivity|constructor].
Defined.

(** ** Dependents that are no array *)

(** C9.  For a record with a resolvable parent id whose
    [dependentMembers] is absent, [null] or anything else that is no
    array, the handler raises no error: the operation it builds for the
    record sets [dependentMembers] to the empty array.  After any call
    that is answered 200 on a batch in which no later record repeats the
    parent id, the document stored under the parent id holds the empty
    array as [dependentMembers]. *)
Theorem missing_dependents_stored_empty (r pid : jsval) (dm : option jsval) :
  parent_id r = Ok (Some pid) ->
  truthy pid = true ->
  js_get r "dependentMembers" = Ok dm ->
  is_array dm = false ->
  (forall now, exists o,
     member_op now r = Ok (Some o) /\
     get_field "dependentMembers" (op_fields o) = Some (JArr [])) /\
  (forall clock req w pre post,
     req_body req = Some (JArr (pre ++ r :: post)) ->
     status (fst (sync_member_dependencies clock req w)) = 200%Z ->
     Forall (fun r' => parent_id r' <> Ok (Some pid)) post ->
     exists d,
       findOne "parentMemberId" pid
         (db (snd (sync_member_dependencies clock req w)) member_collection)
         = Some d /\
       get_field "dependentMembers" d = Some (JArr [])).
Proof.
  intros Hp Ht Hdm Harr.
  assert (Hempty : array_or_empty dm = []).
  { destruct dm as [[]|]; try reflexivity. discriminate. }
  split.
  - intros now.
    destruct (member_op_built now r pid dm Hp Ht Hdm) as [o [Ho [_ Hset]]].
    { rewrite Hempty. intros []. }
    rewrite Hempty in Hset. exists o. split; [exact Ho|exact Hset].
  - intros clock req w pre post Hb H200 Hpost.
    destruct (member_record_stored clock req w pre post r pid Hb H200 Hp Ht Hpost)
      as [dm' [pm [uniq [d [Hdm' [Hpm [Hu [Hd [_ [_ [Hdep _]]]]]]]]]]].
    rewrite Hdm in Hdm'. inversion Hdm'; subst dm'. clear Hdm'.
    rewrite Hempty in Hu. inversion Hu; subst uniq. clear Hu.
    exists d. auto.
Qed.

Lemma missing_dependents_stored_empty_witness :
  let req := Request None (Some (JArr ([] ++ sample_bare_record :: []))) in
  let res := sync_member_dependencies sample_clock req sample_world in
  (forall now, exists o,
     member_op now sample_bare_record = Ok (Some o) /\
     get_field "dependentMembers" (op_fields o) = Some (JArr [])) /\
  exists d,
    findOne "parentMemberId" (JStr "P1") (db (snd res) member_collection)
      = Some d /\
    get_field "dependentMembers" d = Some (JArr []).
Proof.
  intros req res.
  destruct (missing_dependents_stored_empty sample_bare_record (JStr "P1") None
              eq_refl eq_refl eq_refl eq_refl) as [Hop Hstore].
  split; [exact Hop|].
  apply (Hstore sample_clock req sample_world [] []);
    [reflexivity|reflexivity|constructor].
Defined.

(** ** The guard against an empty snapshot *)

(** C5, refuted as stated.  A batch whose only element is [null] has no
    record with a resolvable parent id, and is answered with status 500,
    not with a client error. *)
Lemma null_record_is_server_error :
  let req := Request None (Some (JArr [JNull])) in
  let res := sync_member_dependencies sample_clock req sample_world in
  Forall (fun r => resolvable r = false) [JNull] /\
  status (fst res) = 500%Z.
Proof.
  intros req res. split; [|reflexivity].
  constructor; [reflexivity|constructor].
Qed.

(** C5, amended.  A batch in which no record has a resolvable
    [parentMemberId] fails before any write or delete: no collection
    changes, and the only calls the handler adds to the log are the
    opening and the closing of the connection.  The answer is the client
    error 400 when no element of the batch is [null], and 500 when one
    is. *)
Theorem destructive_empty_guard (clock : nat -> Z) (req : request) (w : world)
    (payload : list jsval) :
  req_body req = Some (JArr payload) ->
  Forall (fun r => resolvable r = false) payload ->
  let res := sync_member_dependencies clock req w in
  db (snd res) = db w /\
  (exists added, calls (snd res) = calls w ++ added /\
     forall c, In c added -> c = Connect \/ c = Close) /\
  (~ In JNull payload -> status (fst res) = 400%Z) /\
  (In JNull payload -> status (fst res) = 500%Z).
Proof.
  intros Hb Hall res. unfold res. clear res.
  destruct payload as [|r0 rest].
  { unfold sync_member_dependencies. rewrite Hb. simpl.
    repeat split; auto.
    - exists []. split; [now rewrite app_nil_r|]. intros c [].
    - intros []. }
  assert (Hn : nonempty_array (req_body req) = Some (r0 :: rest))
    by now rewrite Hb.
  remember (r0 :: rest) as payload eqn:Ep. clear Ep.
  destruct (in_dec jsval_eq_dec JNull payload) as [Hin|Hnot].
  - destruct (rmap_parent_id_throw _ Hin) as [e He].
    rewrite (sync_member_dependencies_null clock req w payload Hn e He).
    simpl. repeat split; auto.
    + exists [Connect]. split; [reflexivity|]. intros c [<-|[]]. now left.
    + intros H. now destruct H.
  - destruct (rmap_parent_id_ok _ Hnot) as [ids Hids].
    rewrite (sync_member_dependencies_guard clock req w payload Hn ids Hids
               (unresolvable_ids _ _ Hall Hids)).
    simpl. repeat split; auto.
    + exists [Connect; Close]. split; [now rewrite <- app_assoc|].
      intros c [<-|[<-|[]]]; auto.
    + intros H. now destruct (Hnot H).
Qed.

Lemma destructive_empty_guard_witness :
  let req := Request None (Some (JArr [JObj [("parentMember", JNull)]])) in
  let res := sync_member_dependencies sample_clock req sample_world in
  db (snd res) = db sample_world /\
  (exists added, calls (snd res) = calls sample_world ++ added /\
     forall c, In c added -> c = Connect \/ c = Close) /\
  (~ In JNull [JObj [("parentMember", JNull)]] -> status (fst res) = 400%Z) /\
  (In JNull [JObj [("parentMember", JNull)]] -> status (fst res) = 500%Z).
Proof.
  intros req res.
  apply (destructive_empty_guard sample_clock req sample_world
           [JObj [("parentMember", JNull)]]).
  - reflexivity.
  - constructor; [reflexivity|constructor].
Defined.

(** ** What the flat sync leaves under a key *)

Lemma prompt_op_read (r : jsval) (o : update_op) :
  prompt_op r = Ok o -> o = UpdateOne "promptVersionId" (read_prompt_id r) r.
Proof.
  unfold prompt_op. destruct r; simpl; intros H; now inversion H.
Qed.

Lemma prompt_op_key (r : jsval) (o : update_op) :
  prompt_op r = Ok o -> op_key o = prompt_key r.
Proof. intros H. now rewrite (prompt_op_read _ _ H). Qed.

Lemma prompt_op_field (n : string) (r : jsval) (o : update_op) :
  prompt_op r = Ok o -> get_field n (op_fields o) = record_field n r.
Proof.
  intros H. rewrite (prompt_op_read _ _ H). unfold op_fields. simpl.
  now destruct r.
Qed.

(** A call on [/sync_prompt_versions] that is answered 200 has written
    every operation. *)
Lemma sync_prompt_versions_200 (req : request) (w : world)
    (payload : list jsval) :
  req_body req = Some (JArr payload) ->
  forallb top_level_record payload = true ->
  status (fst (sync_prompt_versions req w)) = 200%Z ->
  exists ops,
    rmap prompt_op payload = Ok ops /\
    forallb op_valid ops = true /\
    db (snd (sync_prompt_versions req w)) (domain_of req) =
      store_upsert_all "promptVersionId" ops (db w (domain_of req)).
Proof.
  intros Hb Ht H.
  assert (Hn : nonempty_array (req_body req) = Some payload).
  { rewrite Hb. destruct payload; [|reflexivity].
    unfold sync_prompt_versions in H. rewrite Hb in H. discriminate. }
  destruct (rmap prompt_op payload) as [ops|e] eqn:Hops.
  2:{ rewrite (sync_prompt_versions_throw _ w _ _ Hn Hops) in H. discriminate. }
  exists ops. split; [reflexivity|].
  assert (Hv : forallb op_valid ops = true).
  { rewrite (sync_prompt_versions_run _ w _ _ Hn Hops) in H. cbv zeta in H.
    rewrite (bulkWrite_fst "promptVersionId" _ _ (prompt_ops_ok _ _ Hops)
               (prompt_ops_top_level _ _ Hops Ht)) in H.
    apply bulk_outcome_valid.
    destruct (bulk_outcome ops) as [[]|]; [reflexivity|discriminate]. }
  split; [exact Hv|].
  rewrite sync_prompt_versions_db, Hn, Hops, String.eqb_refl.
  - now rewrite (valid_prefix_all _ Hv).
  - now rewrite Hb.
Qed.

(** An update that does not mention a property leaves it as it is. *)
Lemma get_field_app_all (n : string) (F : list update_op) (d : doc) :
  Forall (fun o => get_field n (op_fields o) = None) F ->
  get_field n (app_all plain_apply F d) = get_field n d.
Proof.
  intros H. revert d. induction H as [|o F Ho _ IH]; intros d; [reflexivity|].
  simpl. rewrite IH. unfold plain_apply. now rewrite get_field_set_fields, Ho.
Qed.

(** C8, refuted as stated.  A version stored with a property [legacy] is
    synced from a record that has no such property: the call is answered
    200, and the stored document is not the record; [legacy] is still
    there. *)
Lemma upsert_keeps_old_fields :
  let req := Request None (Some (JArr [JObj sample_version])) in
  let res := sync_prompt_versions req sample_prompt_world in
  status (fst res) = 200%Z /\
  get_field "legacy" sample_version = None /\
  exists d,
    findOne "promptVersionId" (JStr "v1") (db (snd res) "Prompt") = Some d /\
    d <> sample_version /\
    get_field "legacy" d = Some (JNum 1).
Proof.
  intros req res. split; [reflexivity|]. split; [reflexivity|].
  eexists. split; [reflexivity|]. split; [discriminate|reflexivity].
Qed.

(** C8, amended.  After a flat sync answered 200, of a batch in which no
    record has a property name with a dot, the key of every record of the
    batch is present.  For a record whose key no later record of the batch
    repeats, the first document stored under that key carries every
    property of the record with the record's value; and a property of the
    document previously stored under that key which no record of the
    batch with that key mentions keeps its value. *)
Theorem sync_prompt_versions_merges (req : request) (w : world)
    (pre post : list jsval) (fs : doc) :
  req_body req = Some (JArr (pre ++ JObj fs :: post)) ->
  forallb top_level_record (pre ++ JObj fs :: post) = true ->
  status (fst (sync_prompt_versions req w)) = 200%Z ->
  Forall (fun r' => prompt_key r' <> prompt_key (JObj fs)) post ->
  let k := prompt_key (JObj fs) in
  let before := db w (domain_of req) in
  let after := db (snd (sync_prompt_versions req w)) (domain_of req) in
  exists d,
    findOne "promptVersionId" k after = Some d /\
    (forall n v, get_field n fs = Some v -> get_field n d = Some v) /\
    (forall d0 n,
       findOne "promptVersionId" k before = Some d0 ->
       (forall r', In r' (pre ++ JObj fs :: post) -> prompt_key r' = k ->
                   record_field n r' = None) ->
       get_field n d = get_field n d0).
Proof.
  intros Hb Ht H200 Hpost k before after. unfold after. clear after.
  destruct (sync_prompt_versions_200 req w _ Hb Ht H200) as [ops [Hops [Hv ->]]].
  pose proof (prompt_ops_ok _ _ Hops) as Hok.
  pose proof (rmap_Forall2 _ _ _ Hops) as HF.
  apply Forall2_app_inv_l in HF as [ops1 [ops' [HF1 [HF2 ->]]]].
  inversion HF2 as [|r0 o l ops2 Ho HF3]; subst. clear HF2.
  assert (Hko : op_key o = k) by exact (prompt_op_key _ _ Ho).
  assert (Hsel : select op_key jsval_eqb k (ops1 ++ o :: ops2)
                 = select op_key jsval_eqb k ops1 ++ [o]).
  { rewrite select_app. f_equal. unfold select at 1. simpl.
    rewrite Hko, jsval_eqb_refl. f_equal.
    apply select_none.
    clear - HF3 Hpost. revert Hpost.
    induction HF3 as [|r' o' post ops2 Ho' _ IH]; intros Hpost; constructor.
    - inversion Hpost; subst. apply jsval_eqb_neq.
      now rewrite (prompt_op_key _ _ Ho').
    - apply IH. now inversion Hpost. }
  destruct (find_first_last_op (key_of "promptVersionId") op_key jsval_eqb
              plain_apply plain_insert (op_ok "promptVersionId")
              jsval_eqb_eq (op_apply_key "promptVersionId")
              (op_insert_key "promptVersionId")
              (fun o => [(filter_field o, op_key o)]) (fun o => eq_refl)
              k _ before _ o Hok Hsel) as [x Hx].
  exists (plain_apply o x). split; [exact Hx|]. split.
  - intros n v Hn. unfold plain_apply. rewrite get_field_set_fields.
    rewrite (prompt_op_field n _ _ Ho). simpl. now rewrite Hn.
  - intros d0 n Hd0 Hnone.
    change (findOne "promptVersionId" k
              (store_upsert_all "promptVersionId" (ops1 ++ o :: ops2) before)
            = Some (plain_apply o x)) in Hx.
    rewrite (findOne_store_upsert_all "promptVersionId" k _ before Hok) in Hx.
    rewrite Hd0 in Hx. injection Hx as Hx'. rewrite <- Hx'.
    apply get_field_app_all. apply Forall_forall. intros o' Ho'.
    apply filter_In in Ho' as [Hin Hk'].
    apply jsval_eqb_eq in Hk'.
    destruct (proj1 (rmap_In _ _ _ o' Hops) Hin) as [r' [Hr' Hop]].
    rewrite (prompt_op_field n _ _ Hop).
    apply Hnone; [exact Hr'|]. now rewrite <- (prompt_op_key _ _ Hop).
Qed.

Lemma sync_prompt_versions_merges_witness :
  let req := Request None (Some (JArr ([] ++ JObj sample_version :: []))) in
  let w := sample_prompt_world in
  let k := prompt_key (JObj sample_version) in
  exists d,
    findOne "promptVersionId" k (db (snd (sync_prompt_versions req w)) "Prompt")
      = Some d /\
    (forall n v, get_field n sample_version = Some v -> get_field n d = Some v) /\
    (forall d0 n,
       findOne "promptVersionId" k (db w "Prompt") = Some d0 ->
       (forall r', In r' ([] ++ JObj sample_version :: []) ->
                   prompt_key r' = k -> record_field n r' = None) ->
       get_field n d = get_field n d0).
Proof.
  intros req w k.
  apply (sync_prompt_versions_merges req w [] [] sample_version);
    try reflexivity; constructor.
Defined.

(** ** POST /delete_prompt_versions *)

Lemma rmap_prompt_id_ok (items : list jsval) :
  ~ In JNull items -> rmap prompt_id items = Ok (map read_prompt_id items).
Proof.
  induction items as [|p items IH]; intros Hn; [reflexivity|].
  simpl. rewrite IH by (intros H; apply Hn; now right).
  destruct p; try reflexivity. destruct Hn. now left.
Qed.

Lemma rmap_prompt_id_throw (items : list jsval) :
  In JNull items -> exists e, rmap prompt_id items = Throw e.
Proof.
  induction items as [|p items IH]; intros Hin; [destruct Hin|].
  simpl. destruct (prompt_id p) as [v|e] eqn:Ep; simpl; [|eauto].
  destruct Hin as [->|Hin]; [discriminate|].
  destruct (IH Hin) as [e He]. rewrite He. simpl. eauto.
Qed.

Lemma filter_all (A : Type) (l : list A) : filter (fun _ => true) l = l.
Proof. induction l as [|a l IH]; [reflexivity|]. simpl. now rewrite IH. Qed.

Section DeleteRuns.
Variable req : request.
Variable w : world.
Variable items : list jsval.
Hypothesis Hbody : nonempty_array (req_body req) = Some items.

Ltac run_delete :=
  unfold delete_prompt_versions; rewrite Hbody;
  unfold respond, bind, lift, getMongoClient, client_close, log_call, ret;
  simpl.

Lemma delete_prompt_versions_null (e : string) :
  rmap prompt_id items = Throw e ->
  delete_prompt_versions req w =
  (Response 500 (error_body e), World (db w) (calls w ++ [Connect])).
Proof. intros H. run_delete. now rewrite H. Qed.

(** No truthy id: the connection is opened and closed, nothing else. *)
Lemma delete_prompt_versions_none (ids : list (option jsval)) :
  rmap prompt_id items = Ok ids ->
  filter_truthy ids = [] ->
  delete_prompt_versions req w =
  (Response 200 (delete_body (domain_of req) 0),
   World (db w) ((calls w ++ [Connect]) ++ [Close])).
Proof. intros H H0. run_delete. now rewrite H, H0. Qed.

Lemma delete_prompt_versions_some (ids : list (option jsval)) :
  rmap prompt_id items = Ok ids ->
  filter_truthy ids <> [] ->
  let dom := domain_of req in
  let q := FieldIn "promptVersionId" (filter_truthy ids) in
  delete_prompt_versions req w =
  (Response 200 (delete_body dom (List.length (filter_truthy ids))),
   World (db_set dom (snd (deleteMany q (db w dom))) (db w))
         (((calls w ++ [Connect]) ++ [DeleteMany dom q]) ++ [Close])).
Proof.
  intros H H0. run_delete. rewrite H.
  destruct (filter_truthy ids) as [|v vs]; [congruence|]. reflexivity.
Qed.
End DeleteRuns.

(** C10, refuted as stated.  The empty array is a payload without a truthy
    [promptVersionId], and the call on it does not succeed: it is answered
    with status 400. *)
Lemma delete_empty_payload_rejected :
  let req := Request None (Some (JArr [])) in
  let res := delete_prompt_versions req sample_prompt_world in
  prompt_ids (payload_items (req_body req)) = [] /\
  fst res = Response 400 (error_body "Empty payload").
Proof. split; reflexivity. Qed.

(** C10, amended.  Whatever the payload of [/delete_prompt_versions]:
    the collections other than the target are unchanged; the target
    collection is either unchanged or has lost exactly the documents whose
    [promptVersionId] is one of the truthy ids of the payload, every other
    document staying as it was and where it was; and when the payload has
    no truthy id no [deleteMany] is issued.  On a non-empty array without a
    [null] element the call is answered 200 with the number of truthy ids
    as count, and the documents under those ids are gone.  An empty array
    or a payload that is no array is answered 400 with nothing done, and
    an array with a [null] element 500 with nothing deleted. *)
Theorem delete_prompt_versions_frame (req : request) (w : world) :
  let res := delete_prompt_versions req w in
  let items := payload_items (req_body req) in
  let ids := prompt_ids items in
  let dom := domain_of req in
  let kept :=
    filter (fun d => negb (value_in (key_of "promptVersionId" d) ids))
      (db w dom) in
  (forall coll, coll <> dom -> db (snd res) coll = db w coll) /\
  (db (snd res) dom = db w dom \/ db (snd res) dom = kept) /\
  (exists added, calls (snd res) = calls w ++ added /\
     (ids = [] -> forall coll q, ~ In (DeleteMany coll q) added)) /\
  (items <> [] -> ~ In JNull items ->
     fst res = Response 200 (delete_body dom (List.length ids)) /\
     db (snd res) dom = kept) /\
  (items = [] -> status (fst res) = 400%Z /\ snd res = w) /\
  (In JNull items -> status (fst res) = 500%Z /\ db (snd res) = db w).
Proof.
  intros res items ids dom kept.
  assert (Eitems : items = payload_items (req_body req)) by reflexivity.
  assert (Eids : ids = prompt_ids items) by reflexivity.
  assert (Edom : dom = domain_of req) by reflexivity.
  assert (Ekept : kept =
            filter (fun d => negb (value_in (key_of "promptVersionId" d) ids))
              (db w dom)) by reflexivity.
  unfold res. clear res. clearbody kept ids dom items.
  destruct (nonempty_array (req_body req)) as [payload|] eqn:Hn.
  - destruct (nonempty_array_body _ _ Hn) as [Hb Hne].
    rewrite Hb in Eitems. simpl in Eitems. subst items.
    destruct (in_dec jsval_eq_dec JNull payload) as [Hin|Hnot].
    + destruct (rmap_prompt_id_throw _ Hin) as [e He].
      rewrite (delete_prompt_versions_null req w payload Hn e He). simpl.
      repeat split; auto; try contradiction.
      exists [Connect]. split; [reflexivity|].
      intros _ coll q [H|[]]. discriminate.
    + pose proof (rmap_prompt_id_ok _ Hnot) as Hids.
      unfold prompt_ids in Eids.
      destruct (filter_truthy (map read_prompt_id payload)) as [|v vs] eqn:Ef.
      * rewrite (delete_prompt_versions_none req w payload Hn _ Hids Ef).
        assert (Hkept : kept = db w dom).
        { rewrite Ekept, Eids. apply filter_all. }
        simpl. rewrite Eids, Hkept, <- Edom.
        repeat split; auto; try contradiction.
        exists [Connect; Close]. split; [now rewrite <- app_assoc|].
        intros _ coll q [H|[H|[]]]; discriminate.
      * assert (Hsome : filter_truthy (map read_prompt_id payload) <> [])
          by (rewrite Ef; discriminate).
        rewrite (delete_prompt_versions_some req w payload Hn _ Hids Hsome).
        cbv zeta. cbn [fst snd db calls]. rewrite Ef, <- Eids, <- Edom.
        rewrite db_set_same.
        assert (Hk : snd (deleteMany (FieldIn "promptVersionId" ids) (db w dom))
                     = kept) by now rewrite Ekept.
        rewrite Hk.
        repeat split; auto; try contradiction.
        -- intros coll Hc. now apply db_set_other.
        -- exists [Connect; DeleteMany dom (FieldIn "promptVersionId" ids); Close].
           split; [now rewrite <- !app_assoc|].
           intros H0. congruence.
  - assert (Hitems : items = []).
    { rewrite Eitems. destruct (req_body req) as [[| | | | |[|x l]|]|];
        try reflexivity. discriminate. }
    unfold delete_prompt_versions. rewrite Hn. simpl.
    rewrite Hitems.
    repeat split; auto; try contradiction.
    exists []. split; [now rewrite app_nil_r|]. intros _ coll q [].
Qed.

Lemma delete_prompt_versions_frame_witness :
  let req := Request None (Some (JArr [JObj sample_version; JObj []])) in
  let res := delete_prompt_versions req sample_prompt_world in
  fst res = Response 200 (delete_body "Prompt" 1) /\
  db (snd res) "Prompt" = [].
Proof.
  intros req res.
  destruct (delete_prompt_versions_frame req sample_prompt_world)
    as [_ [_ [_ [H _]]]].
  apply H.
  - discriminate.
  - intros [H0|[H0|[]]]; discriminate.
Defined.

(* ===================================================================== *)
(** * Further properties *)
(* ===================================================================== *)

(** ** Keyed sequences: what an upsert leaves alone *)

Section KeyedFrame.
Variables A Op K : Type.
Variable cls : A -> K.
Variable tgt : Op -> K.
Variable keq : K -> K -> bool.
Variable app : Op -> A -> A.
Variable mk : Op -> A.
Variable ok : Op -> Prop.
Hypothesis keq_eq : forall x y, keq x y = true -> x = y.
Hypothesis keq_refl : forall x, keq x x = true.
Hypothesis app_cls :
  forall o a, ok o -> keq (tgt o) (cls a) = true -> cls (app o a) = cls a.
Hypothesis mk_cls : forall o, ok o -> cls (mk o) = tgt o.

Local Abbreviation up1 := (upsert1 cls tgt keq app mk).
Local Abbreviation upall := (upsert_all cls tgt keq app mk).

Local Abbreviation has_key := (has_element cls keq).

Lemma has_key_In k l : has_key k l = true <-> In k (map cls l).
Proof.
  unfold has_element. rewrite existsb_exists, in_map_iff. split.
  - intros [a [Ha E]]. exists a. split; [symmetry; now apply keq_eq|exact Ha].
  - intros [a [E Ha]]. exists a. split; [exact Ha|]. rewrite E. apply keq_refl.
Qed.

(** One operation keeps every element under its key and in its place, and
    adds a key at the end only when the key was not there. *)
Lemma keys_upsert1 o l :
  ok o ->
  map cls (up1 o l) = map cls l ++ (if has_key (tgt o) l then [] else [tgt o]).
Proof.
  intros Ho. induction l as [|a l IH]; simpl.
  - now rewrite (mk_cls _ Ho).
  - destruct (keq (tgt o) (cls a)) eqn:E; simpl.
    + now rewrite (app_cls _ _ Ho E), app_nil_r.
    + now rewrite IH.
Qed.

Lemma keys_upsert_all ops l :
  Forall ok ops ->
  exists added,
    map cls (upall ops l) = map cls l ++ added /\
    (forall k, In k added -> In k (map tgt ops)) /\
    (NoDup (map cls l) -> NoDup (map cls l ++ added)).
Proof.
  intros Hok. revert l. induction Hok as [|o ops Ho _ IH]; intros l.
  - exists []. rewrite app_nil_r. split; [reflexivity|]. split; [intros k []|auto].
  - destruct (IH (up1 o l)) as [added [Hkeys [Hin Hnd]]].
    rewrite (keys_upsert1 o l Ho) in Hkeys, Hnd.
    exists ((if has_key (tgt o) l then [] else [tgt o]) ++ added).
    rewrite app_assoc. split; [exact Hkeys|]. split.
    + intros k Hk. apply in_app_or in Hk as [Hk|Hk].
      * destruct (has_key (tgt o) l); [destruct Hk|].
        destruct Hk as [<-|[]]. now left.
      * right. now apply Hin.
    + intros Hl. apply Hnd.
      destruct (has_key (tgt o) l) eqn:E; [now rewrite app_nil_r|].
      apply NoDup_app; [exact Hl|repeat constructor; intros []|].
      intros k Hk [<-|[]].
      apply has_key_In in Hk. congruence.
Qed.

(** The elements under the keys an operation does not look for are not
    touched. *)
Lemma filter_upsert1_other (pk : K -> bool) o l :
  ok o -> pk (tgt o) = false ->
  filter (fun a => pk (cls a)) (up1 o l) = filter (fun a => pk (cls a)) l.
Proof.
  intros Ho Hp. induction l as [|a l IH]; simpl.
  - now rewrite (mk_cls _ Ho), Hp.
  - destruct (keq (tgt o) (cls a)) eqn:E; simpl.
    + rewrite (app_cls _ _ Ho E).
      apply keq_eq in E. rewrite <- E, Hp. reflexivity.
    + now rewrite IH.
Qed.

Lemma filter_upsert_all_other (pk : K -> bool) ops l :
  Forall ok ops -> Forall (fun o => pk (tgt o) = false) ops ->
  filter (fun a => pk (cls a)) (upall ops l) = filter (fun a => pk (cls a)) l.
Proof.
  intros Hok Hp. revert l.
  induction Hok as [|o ops Ho _ IH]; intros l; [reflexivity|].
  inversion Hp; subst.
  change (upall (o :: ops) l) with (upall ops (up1 o l)).
  rewrite IH by assumption. now apply filter_upsert1_other.
Qed.

(** Dropping the elements under other keys and then running an operation
    is running it and then dropping them. *)
Lemma upsert1_filter_kept (pk : K -> bool) o l :
  ok o -> pk (tgt o) = true ->
  up1 o (filter (fun a => pk (cls a)) l) = filter (fun a => pk (cls a)) (up1 o l).
Proof.
  intros Ho Hp. induction l as [|a l IH]; simpl.
  - now rewrite (mk_cls _ Ho), Hp.
  - destruct (keq (tgt o) (cls a)) eqn:E.
    + assert (Hpa : pk (cls a) = true).
      { rewrite <- (keq_eq _ _ E). exact Hp. }
      rewrite Hpa. simpl. rewrite E, (app_cls _ _ Ho E), Hpa. reflexivity.
    + destruct (pk (cls a)) eqn:Ea; simpl.
      * rewrite E, Ea, IH. reflexivity.
      * rewrite Ea. exact IH.
Qed.

Lemma upsert_all_filter_kept (pk : K -> bool) ops l :
  Forall ok ops -> Forall (fun o => pk (tgt o) = true) ops ->
  upall ops (filter (fun a => pk (cls a)) l) =
  filter (fun a => pk (cls a)) (upall ops l).
Proof.
  intros Hok Hp. revert l.
  induction Hok as [|o ops Ho _ IH]; intros l; [reflexivity|].
  inversion Hp; subst.
  change (upall (o :: ops) (filter (fun a => pk (cls a)) l))
    with (upall ops (up1 o (filter (fun a => pk (cls a)) l))).
  rewrite (upsert1_filter_kept pk o l Ho) by assumption.
  now rewrite IH.
Qed.
End KeyedFrame.

Arguments keys_upsert_all {A Op K}.
Arguments filter_upsert_all_other {A Op K}.
Arguments upsert_all_filter_kept {A Op K}.

(** ** Collections: what a bulk write leaves alone *)

Section StoreFrame.
Variable field : string.
Variable ops : list update_op.
Variable c : collection.
Hypothesis ops_ok : Forall (op_ok field) ops.

Local Abbreviation key := (key_of field).
Local Abbreviation written := (store_upsert_all field ops c).

(** The documents keep their keys and their places; the new keys come
    last, and distinct keys stay distinct. *)
Lemma store_keys :
  exists added,
    map key written = map key c ++ added /\
    (forall k, In k added -> In k (map op_key ops)) /\
    (NoDup (map key c) -> NoDup (map key c ++ added)).
Proof.
  unfold store_upsert_all.
  apply (keys_upsert_all key op_key jsval_eqb plain_apply plain_insert (op_ok field)).
  - exact jsval_eqb_eq.
  - exact jsval_eqb_refl.
  - exact (op_apply_key field).
  - exact (op_insert_key field).
  - exact ops_ok.
Qed.

(** The documents under keys no operation looks for are as they were. *)
Lemma store_filter_other (pk : jsval -> bool) :
  Forall (fun o => pk (op_key o) = false) ops ->
  filter (fun d => pk (key d)) written = filter (fun d => pk (key d)) c.
Proof.
  intros Hp. unfold store_upsert_all.
  apply (filter_upsert_all_other key op_key jsval_eqb plain_apply plain_insert
           (op_ok field)); auto.
  - exact jsval_eqb_eq.
  - exact (op_apply_key field).
  - exact (op_insert_key field).
Qed.

Lemma store_filter_kept (pk : jsval -> bool) :
  Forall (fun o => pk (op_key o) = true) ops ->
  store_upsert_all field ops (filter (fun d => pk (key d)) c) =
  filter (fun d => pk (key d)) written.
Proof.
  intros Hp. unfold store_upsert_all.
  apply (upsert_all_filter_kept key op_key jsval_eqb plain_apply plain_insert
           (op_ok field)); auto.
  - exact jsval_eqb_eq.
  - exact (op_apply_key field).
  - exact (op_insert_key field).
Qed.
End StoreFrame.

(** ** Paths: what an update does to a property of the document *)

Lemma get_field_set_field (n : string) (mv : string * jsval) (d : doc) :
  get_field n (set_field mv d) =
  if String.eqb n (fst mv) then Some (snd mv) else get_field n d.
Proof.
  destruct mv as [m v]. unfold set_field. simpl.
  induction d as [|[k x] d IH]; simpl; [reflexivity|].
  destruct (String.eqb m k) eqn:Emk; simpl.
  - apply String.eqb_eq in Emk. subst k.
    now destruct (String.eqb n m).
  - rewrite IH. destruct (String.eqb n k) eqn:Enk; [|reflexivity].
    apply String.eqb_eq in Enk. subst k.
    now rewrite String.eqb_sym, Emk.
Qed.

(** An assignment whose path starts at another property leaves this one
    alone. *)
Lemma set_path_other (field : string) (nv : string * jsval) (d d' : doc) :
  touches field (fst nv) = false ->
  set_path nv d = Ok d' -> get_field field d' = get_field field d.
Proof.
  unfold touches, set_path, set_member.
  destruct (split_dots (fst nv)) as [c p]. simpl. intros Hc H.
  rewrite String.eqb_sym in Hc.
  destruct (get_field c d) as [y|].
  - destruct (set_in p (snd nv) y) as [y'|]; simpl in H; [|discriminate].
    injection H as <-. rewrite get_field_set_field. simpl. now rewrite Hc.
  - injection H as <-. rewrite get_field_set_field. simpl. now rewrite Hc.
Qed.

Lemma set_paths_untouched (field : string) (ops d d' : doc) :
  forallb (fun nv => negb (touches field (fst nv))) ops = true ->
  set_paths ops d = Ok d' -> get_field field d' = get_field field d.
Proof.
  revert d. induction ops as [|nv ops IH]; intros d Hn H; simpl in *.
  - now injection H as <-.
  - apply andb_prop in Hn as [Hnv Hn]. apply negb_true_iff in Hnv.
    destruct (set_path nv d) as [d1|] eqn:E1; simpl in H; [|discriminate].
    rewrite (IH _ Hn H). exact (set_path_other _ _ _ _ Hnv E1).
Qed.

Lemma split_dots_single (n c : string) :
  split_dots n = (c, []) -> n = c.
Proof.
  revert c. induction n as [|a n IH]; intros c H; simpl in H.
  - now injection H.
  - destruct (split_dots n) as [c' p'].
    destruct (Ascii.eqb a "."); [discriminate|].
    injection H as <- ->. now rewrite (IH c' eq_refl).
Qed.

(** A name that starts at [field] is [field] or leads below it. *)
Lemma touches_cases (field n : string) :
  touches field n = true -> n = field \/ below field n = true.
Proof.
  unfold below, touches. intros H. rewrite H.
  destruct (split_dots n) as [c p] eqn:E. simpl in *.
  apply String.eqb_eq in H. subst c.
  destruct p; [left; now apply split_dots_single|now right].
Qed.

Lemma get_field_In (n : string) (v : jsval) (d : doc) :
  In (n, v) d -> get_field n d <> None.
Proof.
  induction d as [|[m x] d IH]; simpl; [tauto|].
  intros [E|H]; [injection E as -> ->; now rewrite String.eqb_refl|].
  destruct (String.eqb n m); [discriminate|auto].
Qed.

(** An update that neither has the property nor anything below it does
    not touch it. *)
Lemma untouched_of (field : string) (ops : doc) :
  get_field field ops = None -> none_below field ops = true ->
  forallb (fun nv => negb (touches field (fst nv))) ops = true.
Proof.
  intros Hg Hb. apply forallb_forall. intros [n v] Hin. simpl.
  destruct (touches field n) eqn:Et; [|reflexivity].
  destruct (touches_cases _ _ Et) as [->|Hbelow].
  - now destruct (get_field_In _ _ _ Hin).
  - unfold none_below in Hb.
    rewrite forallb_forall in Hb. specialize (Hb _ Hin). simpl in Hb.
    now rewrite Hbelow in Hb.
Qed.

Lemma prefix_of_touches (field n : string) :
  dotted field = false -> touches field n = true ->
  prefix_of (path_of field) (path_of n) = true.
Proof.
  unfold touches, path_of. intros Hf H.
  rewrite (split_dots_plain _ Hf).
  destruct (split_dots n) as [c p]. simpl in *.
  apply String.eqb_eq in H. subst c. now rewrite String.eqb_refl.
Qed.

(** After [field] itself, a conflict-free update has no name that starts
    at [field]. *)
Lemma no_clash_untouched (field : string) (ops : doc) :
  dotted field = false ->
  forallb (fun q => negb (clash (path_of field) q))
    (map (fun nv => path_of (fst nv)) ops) = true ->
  forallb (fun nv => negb (touches field (fst nv))) ops = true.
Proof.
  intros Hf H. apply forallb_forall. intros nv Hin.
  rewrite forallb_forall in H.
  specialize (H (path_of (fst nv)) (in_map _ _ _ Hin)).
  destruct (touches field (fst nv)) eqn:Et; [|reflexivity].
  unfold clash in H. now rewrite (prefix_of_touches _ _ Hf Et) in H.
Qed.

(** What a conflict-free sequence of assignments leaves under a name
    without a dot that it has. *)
Lemma set_paths_assigned (field : string) (ops : doc) :
  dotted field = false ->
  conflict_free (map (fun nv => path_of (fst nv)) ops) = true ->
  forall d d' v,
  get_field field ops = Some v -> set_paths ops d = Ok d' ->
  get_field field d' = Some v.
Proof.
  intros Hf. induction ops as [|[n x] ops IH]; intros Hc d d' v Hg H;
    [discriminate|].
  simpl in Hc, Hg, H. apply andb_prop in Hc as [Hhead Hc].
  destruct (set_path (n, x) d) as [d1|] eqn:E1; simpl in H; [|discriminate].
  destruct (String.eqb field n) eqn:En.
  - apply String.eqb_eq in En. subst n. injection Hg as ->.
    rewrite (set_paths_untouched field _ _ _
               (no_clash_untouched _ _ Hf Hhead) H).
    rewrite (set_path_top_level (field, v) d Hf) in E1. injection E1 as <-.
    rewrite get_field_set_field. simpl. now rewrite String.eqb_refl.
  - exact (IH Hc _ _ _ Hg H).
Qed.

Lemma get_field_filter_differs (n m : string) (l : doc) :
  String.eqb n m = false ->
  get_field n (filter (name_differs m) l) = get_field n l.
Proof.
  intros E. induction l as [|[k x] l IH]; [reflexivity|].
  unfold name_differs in *. simpl.
  destruct (String.eqb k m) eqn:Ekm; simpl.
  - apply String.eqb_eq in Ekm. subst k. now rewrite E.
  - now rewrite IH.
Qed.

Lemma get_field_entries (n : string) (fs : doc) :
  get_field n (entries fs) = get_field n fs.
Proof.
  induction fs as [|[m v] fs IH]; [reflexivity|].
  simpl. destruct (String.eqb n m) eqn:E; [reflexivity|].
  now rewrite (get_field_filter_differs _ _ _ E).
Qed.

Lemma none_below_entries (field : string) (fs : doc) :
  none_below field fs = true -> none_below field (entries fs) = true.
Proof.
  unfold none_below. induction fs as [|[n v] fs IH]; simpl; intros H;
    [reflexivity|].
  apply andb_prop in H as [Hn H]. rewrite Hn. simpl.
  apply forallb_filter_kept. now apply IH.
Qed.

(** What [$set] leaves under a name without a dot: the new value when the
    update has the property; the old one when it has neither the property
    nor a path below it. *)
Lemma mongo_set_field (field : string) (fs d d' : doc) :
  dotted field = false ->
  mongo_set (JObj fs) d = Ok d' ->
  match get_field field fs with
  | Some v => get_field field d' = Some v
  | None => none_below field fs = true ->
            get_field field d' = get_field field d
  end.
Proof.
  intros Hf H. simpl in H.
  destruct (paths_ok fs) eqn:Hp; [|discriminate].
  unfold paths_ok in Hp. apply andb_prop in Hp as [_ Hc].
  destruct (get_field field fs) as [v|] eqn:Hg.
  - apply (set_paths_assigned field (entries fs) Hf Hc d d' v); [|exact H].
    now rewrite get_field_entries.
  - intros Hb. apply (set_paths_untouched field (entries fs)); [|exact H].
    apply untouched_of; [now rewrite get_field_entries|].
    now apply none_below_entries.
Qed.

(** ** Collections: the operations a bulk write applies *)

Lemma updateOne_applied (o : update_op) (c c' : collection) :
  updateOne o c = Ok c' ->
  c' = upsert1 (key_of (filter_field o)) op_key jsval_eqb op_leaves op_inserts
         o c.
Proof.
  revert c'. induction c as [|d c IH]; intros c' H; simpl in *.
  - unfold op_inserts, op_leaves. fold (op_insert o).
    destruct (op_insert o) as [d'|]; simpl in H; [|discriminate].
    now injection H as <-.
  - destruct (jsval_eqb (op_key o) (key_of (filter_field o) d)).
    + unfold op_leaves.
      destruct (op_apply o d) as [d'|]; simpl in H; [|discriminate].
      now injection H as <-.
    + destruct (updateOne o c) as [c''|]; simpl in H; [|discriminate].
      injection H as <-. now rewrite (IH _ eq_refl).
Qed.

Lemma applied_In (ops : list update_op) (c : collection) (o : update_op) :
  In o (applied ops c) -> In o ops.
Proof.
  revert c. induction ops as [|o' ops IH]; intros c; simpl; [tauto|].
  destruct (updateOne o' c) as [c'|]; [|intros []].
  intros [->|H]; [now left|right; now apply (IH c')].
Qed.

Lemma applied_Forall (P : update_op -> Prop) (ops : list update_op)
    (c : collection) :
  Forall P ops -> Forall P (applied ops c).
Proof.
  intros H. apply Forall_forall. intros o Ho.
  apply applied_In in Ho. revert o Ho. now apply Forall_forall.
Qed.

Section AppliedTheory.
Variable field : string.
Hypothesis field_plain : dotted field = false.

Local Abbreviation key := (key_of field).

(** What an ordered bulk write leaves, whatever its operations name: the
    operations it applied, each on the document it matched. *)
Lemma bulkWrite_applied (ops : list update_op) (c : collection) :
  Forall (fun o => filter_field o = field) ops ->
  snd (bulkWrite ops c) = store_apply_all field (applied ops c) c.
Proof.
  intros Hf. revert c.
  induction Hf as [|o ops Ho _ IH]; intros c; [reflexivity|].
  simpl. destruct (updateOne o c) as [c'|] eqn:E; [|reflexivity].
  rewrite IH. apply updateOne_applied in E. rewrite Ho in E.
  now rewrite E.
Qed.

Lemma op_leaves_key (o : update_op) (d : doc) :
  op_keeps field o -> jsval_eqb (op_key o) (key d) = true ->
  key (op_leaves o d) = key d.
Proof.
  intros [[_ Hset] Hnone] E. apply jsval_eqb_eq in E.
  unfold op_leaves, op_apply, op_fields in *.
  destruct (set_value o) as [| | | | | |fs]; try reflexivity.
  destruct (mongo_set (JObj fs) d) as [d'|] eqn:Hm; [|reflexivity].
  pose proof (mongo_set_field field fs d d' field_plain Hm) as H.
  unfold key_of.
  destruct (get_field field fs) as [v|].
  - rewrite H. simpl. rewrite (Hset v eq_refl). exact E.
  - now rewrite (H (Hnone eq_refl)).
Qed.

Lemma op_inserts_key (o : update_op) :
  op_keeps field o -> key (op_inserts o) = op_key o.
Proof.
  intros [[Hf Hset] Hnone].
  assert (Hseed : key (op_seed o) = op_key o).
  { unfold key_of, op_seed. simpl. now rewrite Hf, String.eqb_refl. }
  unfold op_inserts, op_leaves, op_apply, op_fields in *.
  destruct (set_value o) as [| | | | | |fs]; try exact Hseed.
  destruct (mongo_set (JObj fs) (op_seed o)) as [d'|] eqn:Hm; [|exact Hseed].
  pose proof (mongo_set_field field fs _ d' field_plain Hm) as H.
  destruct (get_field field fs) as [v|].
  - unfold key_of. rewrite H. simpl. now apply Hset.
  - unfold key_of in *. now rewrite (H (Hnone eq_refl)).
Qed.

Variable ops : list update_op.
Variable c : collection.
Hypothesis ops_keep : Forall (op_keeps field) ops.

Local Abbreviation written := (store_apply_all field ops c).

(** The documents keep their keys and their places; the new keys come
    last, and distinct keys stay distinct. *)
Lemma applied_keys :
  exists added,
    map key written = map key c ++ added /\
    (forall k, In k added -> In k (map op_key ops)) /\
    (NoDup (map key c) -> NoDup (map key c ++ added)).
Proof.
  unfold store_apply_all.
  apply (keys_upsert_all key op_key jsval_eqb op_leaves op_inserts
           (op_keeps field)).
  - exact jsval_eqb_eq.
  - exact jsval_eqb_refl.
  - exact op_leaves_key.
  - exact op_inserts_key.
  - exact ops_keep.
Qed.

(** The documents under keys no operation looks for are as they were. *)
Lemma applied_filter_other (pk : jsval -> bool) :
  Forall (fun o => pk (op_key o) = false) ops ->
  filter (fun d => pk (key d)) written = filter (fun d => pk (key d)) c.
Proof.
  intros Hp. unfold store_apply_all.
  apply (filter_upsert_all_other key op_key jsval_eqb op_leaves op_inserts
           (op_keeps field)); auto.
  - exact jsval_eqb_eq.
  - exact op_leaves_key.
  - exact op_inserts_key.
Qed.
End AppliedTheory.

Lemma prompt_ops_keys (payload : list jsval) (ops : list update_op) :
  rmap prompt_op payload = Ok ops -> map op_key ops = map prompt_key payload.
Proof.
  intros H. apply rmap_Forall2 in H.
  induction H as [|r o l ops Hr _ IH]; [reflexivity|].
  simpl. now rewrite IH, (prompt_op_key _ _ Hr).
Qed.

(** ** The flat sync only adds *)

Lemma prompt_op_keeps (r : jsval) (o : update_op) :
  prompt_op r = Ok o -> id_unnested r = true -> op_keeps "promptVersionId" o.
Proof.
  intros H Hr. split; [exact (prompt_op_ok _ _ H)|].
  rewrite (prompt_op_read _ _ H). unfold op_fields. simpl.
  destruct r; simpl; try reflexivity.
  simpl in Hr. intros Hg. now rewrite Hg in Hr.
Qed.

Lemma prompt_ops_keep (payload : list jsval) (ops : list update_op) :
  rmap prompt_op payload = Ok ops ->
  forallb id_unnested payload = true ->
  Forall (op_keeps "promptVersionId") ops.
Proof.
  intros H. apply rmap_Forall2 in H.
  induction H as [|r o l ops Hr _ IH]; intros Hu; constructor;
    simpl in Hu; apply andb_prop in Hu as [Ho Hu];
    eauto using prompt_op_keeps.
Qed.

Lemma prompt_ops_field (payload : list jsval) (ops : list update_op) :
  rmap prompt_op payload = Ok ops ->
  Forall (fun o => filter_field o = "promptVersionId") ops.
Proof.
  intros H. apply prompt_ops_ok in H.
  induction H as [|o ops [Hf _] _ IH]; constructor; assumption.
Qed.

(** What the flat sync leaves in the database, whatever the records
    name. *)
Lemma sync_prompt_versions_leaves (req : request) (w : world) (coll : string) :
  db (snd (sync_prompt_versions req w)) coll =
  match nonempty_array (req_body req) with
  | Some payload =>
      match rmap prompt_op payload with
      | Ok ops =>
          if String.eqb coll (domain_of req)
          then store_apply_all "promptVersionId"
                 (applied ops (db w (domain_of req))) (db w (domain_of req))
          else db w coll
      | Throw _ => db w coll
      end
  | None => db w coll
  end.
Proof.
  destruct (nonempty_array (req_body req)) as [payload|] eqn:Hb.
  - destruct (rmap prompt_op payload) as [ops|e] eqn:Hops.
    + rewrite (sync_prompt_versions_run _ w _ _ Hb Hops). cbv zeta.
      rewrite <- (bulkWrite_applied _ _ _ (prompt_ops_field _ _ Hops)).
      destruct (fst (bulkWrite ops (db w (domain_of req)))); reflexivity.
    + now rewrite (sync_prompt_versions_throw _ w _ _ Hb Hops).
  - unfold sync_prompt_versions. now rewrite Hb.
Qed.

(** A record that has no [promptVersionId] and names a path below it
    gives the document it matches an embedded one: the key of a stored
    document changes. *)
Example nested_id_moves_key :
  let req := Request None (Some (JArr [JObj [("promptVersionId.x", JNum 1)]])) in
  let w := World (fun _ => [[("a", JNum 1)]]) [] in
  let res := sync_prompt_versions req w in
  status (fst res) = 200%Z /\
  map (key_of "promptVersionId") (db w "Prompt") = [JNull] /\
  map (key_of "promptVersionId") (db (snd res) "Prompt") =
    [JObj [("x", JNum 1)]].
Proof. repeat split. Qed.

(** X1.  [/sync_prompt_versions] deletes and moves no document of its
    target collection: when no record without a [promptVersionId] names a
    path below [promptVersionId], the keys of the stored documents after
    the call are the keys before, in the same order, followed by keys of
    records of the batch. *)
Theorem sync_prompt_versions_additive (req : request) (w : world) :
  forallb id_unnested (payload_items (req_body req)) = true ->
  let dom := domain_of req in
  let after := db (snd (sync_prompt_versions req w)) dom in
  exists added,
    map (key_of "promptVersionId") after =
      map (key_of "promptVersionId") (db w dom) ++ added /\
    forall k, In k added ->
      In k (map prompt_key (payload_items (req_body req))).
Proof.
  intros Hu dom after. unfold after, dom. rewrite sync_prompt_versions_leaves.
  assert (Hnone : exists added,
            map (key_of "promptVersionId") (db w (domain_of req)) =
              map (key_of "promptVersionId") (db w (domain_of req)) ++ added /\
            forall k, In k added ->
              In k (map prompt_key (payload_items (req_body req)))).
  { exists []. rewrite app_nil_r. split; [reflexivity|intros k []]. }
  destruct (nonempty_array (req_body req)) as [payload|] eqn:Hb; [|exact Hnone].
  destruct (rmap prompt_op payload) as [ops|e] eqn:Hops; [|exact Hnone].
  rewrite String.eqb_refl.
  rewrite (nonempty_array_items _ _ Hb) in *.
  destruct (applied_keys "promptVersionId" eq_refl
              (applied ops (db w (domain_of req))) (db w (domain_of req))
              (applied_Forall _ _ _ (prompt_ops_keep _ _ Hops Hu)))
    as [added [Hkeys [Hin _]]].
  exists added. split; [exact Hkeys|].
  intros k Hk. rewrite <- (prompt_ops_keys _ _ Hops).
  apply Hin in Hk. apply in_map_iff in Hk as [o [<- Ho]].
  apply in_map. now apply applied_In in Ho.
Qed.

Lemma sync_prompt_versions_additive_witness :
  let author := JObj [("promptVersionId", JStr "v2"); ("meta.author", JStr "x")] in
  let req := Request None (Some (JArr [JObj sample_version; author])) in
  let after := db (snd (sync_prompt_versions req sample_prompt_world)) "Prompt" in
  exists added,
    map (key_of "promptVersionId") after =
      map (key_of "promptVersionId") (db sample_prompt_world "Prompt") ++ added /\
    forall k, In k added ->
      In k (map prompt_key [JObj sample_version; author]).
Proof.
  intros author req.
  exact (sync_prompt_versions_additive req sample_prompt_world eq_refl).
Defined.

(** X2.  [/sync_prompt_versions] keeps the keys of its target collection
    distinct: when no record without a [promptVersionId] names a path
    below [promptVersionId], and no two stored documents have the same
    [promptVersionId] (a missing one counting as [null]) before the call,
    none have after, whatever the batch repeats. *)
Theorem sync_prompt_versions_keeps_keys_distinct (req : request) (w : world) :
  forallb id_unnested (payload_items (req_body req)) = true ->
  let dom := domain_of req in
  NoDup (map (key_of "promptVersionId") (db w dom)) ->
  NoDup (map (key_of "promptVersionId")
           (db (snd (sync_prompt_versions req w)) dom)).
Proof.
  intros Hu dom Hnd. unfold dom in *. rewrite sync_prompt_versions_leaves.
  destruct (nonempty_array (req_body req)) as [payload|] eqn:Hb; [|exact Hnd].
  destruct (rmap prompt_op payload) as [ops|e] eqn:Hops; [|exact Hnd].
  rewrite String.eqb_refl.
  rewrite (nonempty_array_items _ _ Hb) in Hu.
  destruct (applied_keys "promptVersionId" eq_refl
              (applied ops (db w (domain_of req))) (db w (domain_of req))
              (applied_Forall _ _ _ (prompt_ops_keep _ _ Hops Hu)))
    as [added [Hkeys [_ Hkeep]]].
  rewrite Hkeys. now apply Hkeep.
Qed.

Lemma sync_prompt_versions_keeps_keys_distinct_witness :
  let req := Request None
               (Some (JArr [JObj sample_version; JObj sample_version;
                            JObj [("promptVersionId", JStr "v2")]])) in
  NoDup (map (key_of "promptVersionId")
           (db (snd (sync_prompt_versions req sample_prompt_world)) "Prompt")).
Proof.
  intros req.
  apply (sync_prompt_versions_keeps_keys_distinct req sample_prompt_world);
    [reflexivity|].
  simpl. repeat constructor. intros [].
Defined.

(** The documents of the target under keys of no record of the batch. *)
Lemma sync_prompt_versions_untouched (req : request) (w : world) :
  forallb id_unnested (payload_items (req_body req)) = true ->
  let batch := map prompt_key (payload_items (req_body req)) in
  let other := fun d => negb (value_in (key_of "promptVersionId" d) batch) in
  filter other (db (snd (sync_prompt_versions req w)) (domain_of req)) =
  filter other (db w (domain_of req)).
Proof.
  intros Hu batch other. rewrite sync_prompt_versions_leaves.
  destruct (nonempty_array (req_body req)) as [payload|] eqn:Hb; [|reflexivity].
  destruct (rmap prompt_op payload) as [ops|e] eqn:Hops; [|reflexivity].
  rewrite String.eqb_refl.
  unfold other, batch. rewrite (nonempty_array_items _ _ Hb) in *.
  apply (applied_filter_other "promptVersionId" eq_refl
           (applied ops (db w (domain_of req))) (db w (domain_of req))
           (applied_Forall _ _ _ (prompt_ops_keep _ _ Hops Hu))
           (fun k => negb (value_in k (map prompt_key payload)))).
  apply Forall_forall. intros o Ho. apply applied_In in Ho.
  apply negb_false_iff, value_in_In.
  rewrite <- (prompt_ops_keys _ _ Hops).
  now apply in_map.
Qed.

Lemma sync_prompt_versions_elsewhere (req : request) (w : world) (coll : string) :
  coll <> domain_of req ->
  db (snd (sync_prompt_versions req w)) coll = db w coll.
Proof.
  intros Hc. rewrite sync_prompt_versions_leaves.
  apply String.eqb_neq in Hc. rewrite Hc.
  destruct (nonempty_array (req_body req)) as [payload|]; [|reflexivity].
  now destruct (rmap prompt_op payload).
Qed.

(** X3.  Whatever the request, [/sync_prompt_versions] leaves every
    collection other than its target as it was.  When no record without a
    [promptVersionId] names a path below [promptVersionId], it also leaves
    every document of the target whose key is the key of no record of the
    batch: those documents are the same, in the same order, after the
    call. *)
Theorem sync_prompt_versions_frame (req : request) (w : world) :
  let dom := domain_of req in
  let res := sync_prompt_versions req w in
  let batch := map prompt_key (payload_items (req_body req)) in
  let other := fun d => negb (value_in (key_of "promptVersionId" d) batch) in
  (forall coll, coll <> dom -> db (snd res) coll = db w coll) /\
  (forallb id_unnested (payload_items (req_body req)) = true ->
   filter other (db (snd res) dom) = filter other (db w dom)).
Proof.
  intros dom res batch other. split.
  - intros coll. apply sync_prompt_versions_elsewhere.
  - intros Hu. now apply sync_prompt_versions_untouched.
Qed.

Lemma sync_prompt_versions_frame_witness :
  let author := JObj [("promptVersionId", JStr "v2"); ("meta.author", JStr "x")] in
  let req := Request None (Some (JArr [author])) in
  let res := sync_prompt_versions req sample_prompt_world in
  let other := fun d => negb (value_in (key_of "promptVersionId" d)
                                 (map prompt_key [author])) in
  filter other (db (snd res) "Prompt") =
  filter other (db sample_prompt_world "Prompt").
Proof.
  intros author req.
  exact (proj2 (sync_prompt_versions_frame req sample_prompt_world) eq_refl).
Defined.

(** ** Deleting: twice, and after a sync *)

Lemma filter_idem {A} (p : A -> bool) (l : list A) :
  filter p (filter p l) = filter p l.
Proof.
  induction l as [|a l IH]; [reflexivity|]. simpl.
  destruct (p a) eqn:E; simpl; [rewrite E, IH|]; auto.
Qed.

(** What the delete endpoint leaves in the database. *)
Lemma delete_prompt_versions_db (req : request) (w : world) (coll : string) :
  db (snd (delete_prompt_versions req w)) coll =
  match nonempty_array (req_body req) with
  | Some payload =>
      match rmap prompt_id payload with
      | Ok ids =>
          if String.eqb coll (domain_of req)
          then filter (fun d => negb (value_in (key_of "promptVersionId" d)
                                        (filter_truthy ids)))
                 (db w (domain_of req))
          else db w coll
      | Throw _ => db w coll
      end
  | None => db w coll
  end.
Proof.
  destruct (nonempty_array (req_body req)) as [payload|] eqn:Hb.
  - destruct (rmap prompt_id payload) as [ids|e] eqn:Hids.
    + destruct (filter_truthy ids) as [|v vs] eqn:Ef.
      * rewrite (delete_prompt_versions_none req w payload Hb ids Hids Ef).
        cbn [snd db].
        destruct (String.eqb coll (domain_of req)) eqn:Ec; [|reflexivity].
        apply String.eqb_eq in Ec. subst coll. symmetry.
        exact (filter_all _ (db w (domain_of req))).
      * assert (Hne : filter_truthy ids <> []) by (rewrite Ef; discriminate).
        rewrite (delete_prompt_versions_some req w payload Hb ids Hids Hne).
        rewrite Ef. reflexivity.
    + now rewrite (delete_prompt_versions_null req w payload Hb e Hids).
  - unfold delete_prompt_versions. now rewrite Hb.
Qed.

Lemma delete_prompt_versions_response (req : request) (w w' : world) :
  fst (delete_prompt_versions req w) = fst (delete_prompt_versions req w').
Proof.
  destruct (nonempty_array (req_body req)) as [payload|] eqn:Hb.
  - destruct (rmap prompt_id payload) as [ids|e] eqn:Hids.
    + destruct (filter_truthy ids) as [|v vs] eqn:Ef.
      * now rewrite !(delete_prompt_versions_none req _ payload Hb ids Hids Ef).
      * assert (Hne : filter_truthy ids <> []) by (rewrite Ef; discriminate).
        now rewrite !(delete_prompt_versions_some req _ payload Hb ids Hids Hne).
    + now rewrite !(delete_prompt_versions_null req _ payload Hb e Hids).
  - unfold delete_prompt_versions. now rewrite Hb.
Qed.

(** X4.  [/delete_prompt_versions] is idempotent: the same request a second
    time leaves every collection as the first call left it, and is
    answered as the first call was, with the same count. *)
Theorem delete_prompt_versions_idempotent (req : request) (w : world) :
  let once := delete_prompt_versions req w in
  let twice := delete_prompt_versions req (snd once) in
  (forall coll, db (snd twice) coll = db (snd once) coll) /\
  fst twice = fst once.
Proof.
  intros once twice. split; [|apply delete_prompt_versions_response].
  intros coll. unfold twice. rewrite delete_prompt_versions_db.
  destruct (nonempty_array (req_body req)) as [payload|] eqn:Hb;
    [|reflexivity].
  destruct (rmap prompt_id payload) as [ids|e] eqn:Hids; [|reflexivity].
  destruct (String.eqb coll (domain_of req)) eqn:Ec; [|reflexivity].
  apply String.eqb_eq in Ec. subst coll.
  unfold once. rewrite !delete_prompt_versions_db, Hb, Hids, String.eqb_refl.
  apply filter_idem.
Qed.

Lemma keyed_prompt_ids (payload : list jsval) :
  forallb has_prompt_id payload = true ->
  ~ In JNull payload /\
  forallb is_object payload = true /\
  prompt_ids payload = map prompt_key payload.
Proof.
  induction payload as [|r payload IH]; intros H.
  - repeat split; auto.
  - simpl in H. apply andb_prop in H as [Hr H].
    destruct (IH H) as [Hn [Ho Hk]].
    unfold has_prompt_id in Hr. apply andb_prop in Hr as [Hobj Ht].
    destruct r; try discriminate. repeat split.
    + intros [E|E]; [discriminate|auto].
    + exact Ho.
    + unfold prompt_ids, prompt_key in *. simpl in *.
      destruct (get_field "promptVersionId" fields) as [v|]; [|discriminate].
      simpl in *. now rewrite Ht, Hk.
Qed.

Lemma keyed_unnested (payload : list jsval) :
  forallb has_prompt_id payload = true -> forallb id_unnested payload = true.
Proof.
  induction payload as [|r payload IH]; intros H; [reflexivity|].
  simpl in H. apply andb_prop in H as [Hr H].
  simpl. rewrite (IH H), andb_true_r.
  unfold has_prompt_id in Hr. apply andb_prop in Hr as [Hobj Ht].
  destruct r; try discriminate. simpl in *.
  now destruct (get_field "promptVersionId" fields).
Qed.

(** X5.  Deleting undoes a sync: for a non-empty batch of objects that all
    carry a truthy [promptVersionId], syncing the batch and then deleting
    it leaves every collection as deleting it at once does, and the delete
    is answered 200 with the length of the batch as count.  No document
    under an id of the batch is left. *)
Theorem delete_after_sync (req : request) (w : world)
    (r : jsval) (rest : list jsval) :
  req_body req = Some (JArr (r :: rest)) ->
  forallb has_prompt_id (r :: rest) = true ->
  let synced := snd (sync_prompt_versions req w) in
  let res := delete_prompt_versions req synced in
  fst res = Response 200 (delete_body (domain_of req) (List.length (r :: rest))) /\
  (forall coll, db (snd res) coll = db (snd (delete_prompt_versions req w)) coll) /\
  (forall d, In d (db (snd res) (domain_of req)) ->
     ~ In (key_of "promptVersionId" d) (map prompt_key (r :: rest))).
Proof.
  intros Hb Hkeyed synced res.
  assert (Hu : forallb id_unnested (payload_items (req_body req)) = true).
  { rewrite Hb. now apply keyed_unnested. }
  destruct (keyed_prompt_ids _ Hkeyed) as [Hnull [Hobj Hids]].
  assert (Hn : nonempty_array (req_body req) = Some (r :: rest))
    by now rewrite Hb.
  pose proof (rmap_prompt_id_ok _ Hnull) as Hread.
  fold (prompt_ids (r :: rest)) in Hids.
  assert (Hdb : forall w0 coll,
            db (snd (delete_prompt_versions req w0)) coll =
            if String.eqb coll (domain_of req)
            then filter (fun d => negb (value_in (key_of "promptVersionId" d)
                                          (map prompt_key (r :: rest))))
                   (db w0 (domain_of req))
            else db w0 coll).
  { intros w0 coll. rewrite delete_prompt_versions_db, Hn, Hread.
    unfold prompt_ids in Hids. now rewrite Hids. }
  split; [|split].
  - unfold res. rewrite (delete_prompt_versions_response req synced w).
    unfold prompt_ids in Hids.
    assert (Hne : filter_truthy (map read_prompt_id (r :: rest)) <> []).
    { rewrite Hids. discriminate. }
    rewrite (delete_prompt_versions_some req w _ Hn _ Hread Hne).
    cbv zeta. cbn [fst]. now rewrite Hids, length_map.
  - intros coll. unfold res. rewrite !Hdb.
    destruct (String.eqb coll (domain_of req)) eqn:Ec.
    + unfold synced.
      pose proof (sync_prompt_versions_untouched req w Hu) as Hsame.
      cbv zeta in Hsame. rewrite Hb in Hsame. exact Hsame.
    + apply String.eqb_neq in Ec. unfold synced.
      now apply sync_prompt_versions_elsewhere.
  - intros d Hd. unfold res in Hd. rewrite Hdb, String.eqb_refl in Hd.
    apply filter_In in Hd as [_ Hd].
    apply negb_true_iff in Hd. intros Hin.
    apply value_in_In in Hin. congruence.
Qed.

Lemma delete_after_sync_witness :
  let req := Request None (Some (JArr [JObj sample_version])) in
  let synced := snd (sync_prompt_versions req sample_prompt_world) in
  let res := delete_prompt_versions req synced in
  fst res = Response 200 (delete_body "Prompt" 1) /\
  (forall coll, db (snd res) coll =
                db (snd (delete_prompt_versions req sample_prompt_world)) coll) /\
  (forall d, In d (db (snd res) "Prompt") ->
     ~ In (key_of "promptVersionId" d) (map prompt_key [JObj sample_version])).
Proof.
  intros req synced res.
  exact (delete_after_sync req sample_prompt_world (JObj sample_version) []
           eq_refl eq_refl).
Defined.

(** ** The connection *)

Lemma session_unopened (r : response) (cs : list store_call) :
  session_of false r cs cs.
Proof. exists []. split; [now rewrite app_nil_r|reflexivity]. Qed.

Lemma session_closed (r : response) (cs mid : list store_call) :
  status r <> 500%Z ->
  forallb (fun c => negb (is_session_call c)) mid = true ->
  session_of true r cs (cs ++ Connect :: mid ++ [Close]).
Proof.
  intros H Hmid. exists (Connect :: mid ++ [Close]). split; [reflexivity|].
  apply Z.eqb_neq in H. cbv iota. rewrite H. red. eauto.
Qed.

Lemma session_open (r : response) (cs mid : list store_call) :
  status r = 500%Z ->
  forallb (fun c => negb (is_session_call c)) mid = true ->
  session_of true r cs (cs ++ Connect :: mid).
Proof.
  intros H Hmid. exists (Connect :: mid). split; [reflexivity|].
  rewrite H. simpl. red. eauto.
Qed.

(** X6.  A handler that turns the payload away at its first check (an
    empty array, or no array) makes no call on the store.  On any other
    payload it opens the connection once, as its first call on the store,
    and issues no call after closing it: a call that is answered 500
    leaves the connection open ([client.close()] is not reached from the
    [catch]), and every other call has closed it as its last call. *)
Theorem connection_lifecycle (clock : nat -> Z) (req : request) (w : world) :
  (let res := sync_prompt_versions req w in
   session_of (accepted req) (fst res) (calls w) (calls (snd res))) /\
  (let res := delete_prompt_versions req w in
   session_of (accepted req) (fst res) (calls w) (calls (snd res))) /\
  (let res := sync_member_dependencies clock req w in
   session_of (accepted req) (fst res) (calls w) (calls (snd res))).
Proof.
  unfold accepted. split; [|split]; cbv zeta.
  - destruct (nonempty_array (req_body req)) as [payload|] eqn:Hb.
    + destruct (rmap prompt_op payload) as [ops|e] eqn:Hops.
      * rewrite (sync_prompt_versions_run _ w _ _ Hb Hops). cbv zeta.
        destruct (fst (bulkWrite ops (db w (domain_of req)))); cbn [fst snd calls];
          rewrite <- !app_assoc.
        -- apply (session_closed _ _ [BulkWrite _ _]); [discriminate|reflexivity].
        -- apply (session_open _ _ [BulkWrite _ _]); reflexivity.
      * rewrite (sync_prompt_versions_throw _ w _ _ Hb Hops).
        apply (session_open _ _ []); reflexivity.
    + unfold sync_prompt_versions. rewrite Hb. apply session_unopened.
  - destruct (nonempty_array (req_body req)) as [payload|] eqn:Hb.
    + destruct (rmap prompt_id payload) as [ids|e] eqn:Hids.
      * destruct (filter_truthy ids) as [|v vs] eqn:Ef.
        -- rewrite (delete_prompt_versions_none req w payload Hb ids Hids Ef).
           cbn [fst snd calls]. rewrite <- !app_assoc.
           apply (session_closed _ _ []); [discriminate|reflexivity].
        -- assert (Hne : filter_truthy ids <> []) by (rewrite Ef; discriminate).
           rewrite (delete_prompt_versions_some req w payload Hb ids Hids Hne).
           cbv zeta. cbn [fst snd calls]. rewrite <- !app_assoc.
           apply (session_closed _ _ [DeleteMany _ _]); [discriminate|reflexivity].
      * rewrite (delete_prompt_versions_null req w payload Hb e Hids).
        apply (session_open _ _ []); reflexivity.
    + unfold delete_prompt_versions. rewrite Hb. apply session_unopened.
  - destruct (nonempty_array (req_body req)) as [payload|] eqn:Hb.
    + destruct (rmap parent_id payload) as [ids|e] eqn:Hids.
      * destruct (filter_truthy ids) as [|v vs] eqn:Ef.
        -- rewrite (sync_member_dependencies_guard clock req w payload Hb ids Hids Ef).
           cbn [fst snd calls]. rewrite <- !app_assoc.
           apply (session_closed _ _ []); [discriminate|reflexivity].
        -- assert (Hne : filter_truthy ids <> []) by (rewrite Ef; discriminate).
           destruct (member_ops clock 0 payload) as [raw|e] eqn:Hraw.
           ++ rewrite (sync_member_dependencies_ok clock req w payload Hb ids raw
                         Hids Hne Hraw).
              cbv zeta. cbn [fst snd calls]. rewrite <- !app_assoc.
              apply (session_closed _ _ [BulkWrite _ _; DeleteMany _ _]);
                [discriminate|reflexivity].
           ++ rewrite (sync_member_dependencies_throw clock req w payload Hb ids e
                         Hids Hne Hraw).
              apply (session_open _ _ []); reflexivity.
      * rewrite (sync_member_dependencies_null clock req w payload Hb e Hids).
        apply (session_open _ _ []); reflexivity.
    + unfold sync_member_dependencies. rewrite Hb. apply session_unopened.
Qed.

(** ** Reconciliation: what a call leaves *)

Lemma member_ops_throw_null (clock : nat -> Z) (payload : list jsval) (e : string) :
  rmap parent_id payload = Throw e ->
  forall i, exists e', member_ops clock i payload = Throw e'.
Proof.
  induction payload as [|r payload IH]; intros H i; simpl in H; [discriminate|].
  simpl. unfold member_op at 1.
  destruct (parent_id r) as [v|e0] eqn:Er; simpl in *; [|eauto].
  destruct (rmap parent_id payload) as [ids|e1] eqn:Ep; simpl in H;
    [discriminate|].
  destruct (IH H (S i)) as [e' He'].
  match goal with
  | |- context [rbind ?x _] => destruct x; simpl; eauto
  end.
  rewrite He'. simpl. eauto.
Qed.

(** What a reconciliation leaves in the database: the upserted collection
    without the documents under other keys, when the batch is read
    without error and holds a resolvable id; the database as it was
    otherwise. *)
Lemma sync_member_dependencies_db (clock : nat -> Z) (req : request)
    (w : world) (coll : string) :
  db (snd (sync_member_dependencies clock req w)) coll =
  match nonempty_array (req_body req) with
  | Some payload =>
      match member_ops clock 0 payload with
      | Ok raw =>
          match filter_some raw with
          | [] => db w coll
          | o :: ops =>
              if String.eqb coll member_collection
              then filter (fun d => value_in (key_of "parentMemberId" d)
                                      (map op_key (o :: ops)))
                     (store_upsert_all "parentMemberId" (o :: ops)
                        (db w member_collection))
              else db w coll
          end
      | Throw _ => db w coll
      end
  | None => db w coll
  end.
Proof.
  destruct (nonempty_array (req_body req)) as [payload|] eqn:Hb.
  2:{ unfold sync_member_dependencies. now rewrite Hb. }
  destruct (rmap parent_id payload) as [ids|e] eqn:Hids.
  2:{ rewrite (sync_member_dependencies_null clock req w payload Hb e Hids).
      destruct (member_ops_throw_null clock payload e Hids 0) as [e' ->].
      reflexivity. }
  destruct (member_ops clock 0 payload) as [raw|e] eqn:Hraw.
  - destruct (member_ops_keys _ _ _ _ Hraw) as [ids' [Hids' [Hk _]]].
    rewrite Hids in Hids'. inversion Hids'; subst ids'. clear Hids'.
    destruct (filter_some raw) as [|o ops] eqn:Eops.
    + simpl in Hk.
      now rewrite (sync_member_dependencies_guard clock req w payload Hb ids
                     Hids (eq_sym Hk)).
    + assert (Hne : filter_truthy ids <> []) by (rewrite <- Hk; discriminate).
      rewrite (sync_member_dependencies_ok clock req w payload Hb ids raw
                 Hids Hne Hraw).
      cbv zeta. cbn [snd db]. rewrite Eops, <- Hk.
      unfold db_set at 1.
      destruct (String.eqb coll member_collection) eqn:Ec.
      * apply (reconciled_filter "parentMemberId" (o :: ops)).
      * apply String.eqb_neq in Ec. now apply db_set_other.
  - destruct (filter_truthy ids) as [|v vs] eqn:Ef.
    + now rewrite (sync_member_dependencies_guard clock req w payload Hb ids
                     Hids Ef).
    + assert (Hne : filter_truthy ids <> []) by (rewrite Ef; discriminate).
      now rewrite (sync_member_dependencies_throw clock req w payload Hb ids e
                     Hids Hne Hraw).
Qed.

Lemma member_ops_ok_keys (clock : nat -> Z) (payload : list jsval)
    (raw : list (option update_op)) :
  member_ops clock 0 payload = Ok raw ->
  Forall (op_ok "parentMemberId") (filter_some raw) /\
  Forall (fun o => value_in (op_key o) (map op_key (filter_some raw)) = true)
    (filter_some raw).
Proof.
  intros Hraw.
  destruct (member_ops_keys _ _ _ _ Hraw) as [ids [_ [_ [Hok _]]]].
  split; [exact Hok|].
  apply Forall_forall. intros o Ho. apply value_in_In. now apply in_map.
Qed.

(** X7.  With the clock read the same, [/sync_member_dependencies] is
    idempotent on the database: the same request a second time leaves
    every collection as the first call left it. *)
Theorem sync_member_dependencies_idempotent (clock : nat -> Z) (req : request)
    (w : world) :
  let once := sync_member_dependencies clock req w in
  let twice := sync_member_dependencies clock req (snd once) in
  forall coll, db (snd twice) coll = db (snd once) coll.
Proof.
  intros once twice coll. unfold twice.
  rewrite sync_member_dependencies_db.
  destruct (nonempty_array (req_body req)) as [payload|] eqn:Hb;
    [|reflexivity].
  destruct (member_ops clock 0 payload) as [raw|e] eqn:Hraw; [|reflexivity].
  destruct (member_ops_ok_keys clock payload raw Hraw) as [Hok Hkeys].
  destruct (filter_some raw) as [|o ops] eqn:Eops; [reflexivity|].
  destruct (String.eqb coll member_collection) eqn:Ec; [|reflexivity].
  apply String.eqb_eq in Ec. subst coll.
  unfold once. rewrite !sync_member_dependencies_db, Hb, Hraw, Eops.
  rewrite String.eqb_refl.
  rewrite (store_filter_kept "parentMemberId" (o :: ops)
             (store_upsert_all "parentMemberId" (o :: ops)
                (db w member_collection)) Hok
             (fun k => value_in k (map op_key (o :: ops))) Hkeys).
  rewrite (store_upsert_all_idem "parentMemberId" (o :: ops)
             (db w member_collection) Hok).
  apply filter_idem.
Qed.

(** Dropping documents leaves distinct keys distinct. *)
Lemma distinct_keys_kept (field : string) (keep : doc -> bool) (c : collection) :
  NoDup (map (key_of field) c) ->
  NoDup (map (key_of field) (filter keep c)).
Proof.
  induction c as [|d c IH]; simpl; intros Hnd; [constructor|].
  apply NoDup_cons_iff in Hnd as [Hfresh Hrest].
  destruct (keep d); simpl; [|now apply IH].
  apply NoDup_cons_iff. split; [|now apply IH].
  intros Hin. apply Hfresh.
  apply in_map_iff in Hin as [d' [Hkey Hin]].
  apply in_map_iff. exists d'. split; [exact Hkey|].
  now apply filter_In in Hin.
Qed.

(** X8.  [/sync_member_dependencies] keeps the keys of its collection
    distinct: when no two stored documents have the same [parentMemberId]
    before the call, none have after, whatever the batch repeats. *)
Theorem sync_member_dependencies_keeps_keys_distinct (clock : nat -> Z)
    (req : request) (w : world) :
  NoDup (map (key_of "parentMemberId") (db w member_collection)) ->
  NoDup (map (key_of "parentMemberId")
           (db (snd (sync_member_dependencies clock req w)) member_collection)).
Proof.
  intros Hnd. rewrite sync_member_dependencies_db.
  destruct (nonempty_array (req_body req)) as [payload|] eqn:Hb; [|exact Hnd].
  destruct (member_ops clock 0 payload) as [raw|e] eqn:Hraw; [|exact Hnd].
  destruct (member_ops_ok_keys clock payload raw Hraw) as [Hok _].
  destruct (filter_some raw) as [|o ops] eqn:Eops; [exact Hnd|].
  rewrite String.eqb_refl. apply distinct_keys_kept.
  destruct (store_keys "parentMemberId" (o :: ops) (db w member_collection) Hok)
    as [added [Hkeys [_ Hkeep]]].
  rewrite Hkeys. now apply Hkeep.
Qed.

Lemma sync_member_dependencies_keeps_keys_distinct_witness :
  let req := Request None (Some (JArr [sample_record; sample_bare_record])) in
  NoDup (map (key_of "parentMemberId")
           (db (snd (sync_member_dependencies sample_clock req sample_world))
               member_collection)).
Proof.
  intros req.
  apply (sync_member_dependencies_keeps_keys_distinct sample_clock req
           sample_world).
  simpl. repeat constructor. intros [].
Defined.

(** X9.  [/sync_member_dependencies] changes no collection other than
    [MemberDependencies], whatever the request and whatever its [domain]
    parameter, which the handler does not read. *)
Theorem sync_member_dependencies_elsewhere (clock : nat -> Z) (req : request)
    (w : world) (coll : string) (domain : option string) :
  coll <> member_collection ->
  db (snd (sync_member_dependencies clock req w)) coll = db w coll /\
  sync_member_dependencies clock (Request domain (req_body req)) w =
  sync_member_dependencies clock req w.
Proof.
  intros Hc. split; [|reflexivity].
  rewrite sync_member_dependencies_db.
  apply String.eqb_neq in Hc. rewrite Hc.
  destruct (nonempty_array (req_body req)) as [payload|]; [|reflexivity].
  destruct (member_ops clock 0 payload) as [raw|]; [|reflexivity].
  now destruct (filter_some raw).
Qed.

Lemma sync_member_dependencies_elsewhere_witness :
  let req := Request None (Some (JArr [sample_record])) in
  db (snd (sync_member_dependencies sample_clock req sample_prompt_world)) "Prompt"
    = db sample_prompt_world "Prompt" /\
  sync_member_dependencies sample_clock
    (Request (Some "Prompt") (req_body req)) sample_prompt_world =
  sync_member_dependencies sample_clock req sample_prompt_world.
Proof.
  intros req.
  apply (sync_member_dependencies_elsewhere sample_clock req
           sample_prompt_world "Prompt" (Some "Prompt")).
  discriminate.
Defined.

(** ** Reconciliation: the counts of the answer *)

Lemma parent_id_read (r : jsval) (v : option jsval) :
  parent_id r = Ok v -> read_parent_id r = v /\ resolvable r = truthy_opt v.
Proof.
  unfold resolvable. intros H. rewrite H. split; [|reflexivity].
  unfold parent_id in H. destruct r; simpl in *; inversion H; reflexivity.
Qed.

Lemma rmap_parent_id_read (payload : list jsval) (ids : list (option jsval)) :
  rmap parent_id payload = Ok ids ->
  ids = map read_parent_id payload /\
  List.length (filter_truthy ids) = List.length (filter resolvable payload).
Proof.
  intros H. apply rmap_Forall2 in H.
  induction H as [|r v payload ids Hr _ [IH1 IH2]]; [split; reflexivity|].
  destruct (parent_id_read r v Hr) as [Hread Hres].
  split; [simpl; now rewrite Hread, IH1|].
  simpl. rewrite Hres.
  destruct v as [x|]; simpl; [destruct (truthy x); simpl; now rewrite IH2|exact IH2].
Qed.

(** X10.  In the answer of a reconciliation that succeeds, [upserted] is
    the number of records of the batch with a resolvable parent id (a
    repeated id counting each time, a record without one not at all), and
    [deleted] is the number of documents stored before the call whose
    [parentMemberId] is no id of the batch. *)
Theorem sync_member_dependencies_counts (clock : nat -> Z) (req : request)
    (w : world) (payload : list jsval) :
  req_body req = Some (JArr payload) ->
  status (fst (sync_member_dependencies clock req w)) = 200%Z ->
  let ids := filter_truthy (map read_parent_id payload) in
  let stale := fun d => negb (value_in (key_of "parentMemberId" d) ids) in
  fst (sync_member_dependencies clock req w) =
  Response 200
    (snapshot_body (List.length (filter resolvable payload))
                   (List.length (filter stale (db w member_collection)))).
Proof.
  intros Hb H200 ids stale.
  destruct (sync_member_dependencies_200 clock req w payload Hb H200)
    as [ids0 [raw [Hn [Hids [Hne Hraw]]]]].
  rewrite (sync_member_dependencies_ok clock req w payload Hn ids0 raw
             Hids Hne Hraw).
  cbv zeta. cbn [fst].
  destruct (member_ops_keys _ _ _ _ Hraw) as [ids' [Hids' [Hk [Hok _]]]].
  rewrite Hids in Hids'. inversion Hids'; subst ids'. clear Hids'.
  destruct (rmap_parent_id_read payload ids0 Hids) as [Hread Hcount].
  assert (Hids0 : filter_truthy ids0 = ids) by (unfold ids; now rewrite Hread).
  f_equal. f_equal.
  - rewrite <- Hcount, <- Hk. now rewrite length_map.
  - rewrite Hids0. simpl. f_equal.
    apply (store_filter_other "parentMemberId" (filter_some raw)
             (db w member_collection) Hok (fun k => negb (value_in k ids))).
    apply Forall_forall. intros o Ho.
    apply negb_false_iff, value_in_In. rewrite <- Hids0, <- Hk.
    now apply in_map.
Qed.

Lemma sync_member_dependencies_counts_witness :
  let req := Request None
               (Some (JArr [sample_record; JObj []; sample_bare_record])) in
  fst (sync_member_dependencies sample_clock req sample_world) =
  Response 200 (snapshot_body 2 1).
Proof.
  intros req.
  exact (sync_member_dependencies_counts sample_clock req sample_world
           [sample_record; JObj []; sample_bare_record] eq_refl eq_refl).
Defined.

(** ** Reconciliation: the document of a record *)

Lemma member_ops_built_In (clock : nat -> Z) (l : list jsval) :
  forall i raw o,
  member_ops clock i l = Ok raw -> In o (filter_some raw) ->
  exists now r, member_op now r = Ok (Some o).
Proof.
  induction l as [|r l IH]; intros i raw o H Hin; simpl in H.
  - inversion H; subst. destruct Hin.
  - destruct (member_op (clock i) r) as [oo|] eqn:Eo; simpl in H; [|discriminate].
    destruct (member_ops clock (S i) l) as [raw'|] eqn:E'; simpl in H;
      [|discriminate].
    inversion H; subst. clear H.
    destruct oo as [o'|]; simpl in Hin.
    + destruct Hin as [->|Hin]; [eauto|]. eauto.
    + eauto.
Qed.

(** The [$set] of the handler names four properties and no other. *)
Lemma member_op_names (now : Z) (r : jsval) (o : update_op) (n : string) :
  member_op now r = Ok (Some o) ->
  member_property n = false ->
  get_field n (op_fields o) = None.
Proof.
  intros H Hn. apply member_op_inv in H as [pid [_ [_ [dm [pm [uniq [_ [_ [_ ->]]]]]]]]].
  unfold member_property in Hn.
  apply orb_false_iff in Hn as [Hn H4]. apply orb_false_iff in Hn as [Hn H3].
  apply orb_false_iff in Hn as [H1 H2].
  unfold op_fields. simpl. now rewrite H1, H2, H3, H4.
Qed.

(** X11.  After a reconciliation that succeeds, the document stored under
    the parent id of a record (one whose id no later record of the batch
    repeats) carries that id, the record's [parentMember] and, as
    [lastSyncedAt], the time read for that record, which the payload
    cannot set.  The write is a merge: a property of the document stored
    under that id before the call that is none of the four the handler
    sets keeps its value. *)
Theorem reconciled_document (clock : nat -> Z) (req : request) (w : world)
    (pre post : list jsval) (r pid : jsval) :
  req_body req = Some (JArr (pre ++ r :: post)) ->
  status (fst (sync_member_dependencies clock req w)) = 200%Z ->
  parent_id r = Ok (Some pid) ->
  truthy pid = true ->
  Forall (fun r' => parent_id r' <> Ok (Some pid)) post ->
  exists pm d,
    js_get r "parentMember" = Ok pm /\
    findOne "parentMemberId" pid
      (db (snd (sync_member_dependencies clock req w)) member_collection)
      = Some d /\
    get_field "parentMemberId" d = Some pid /\
    get_field "parentMember" d = Some (bson pm) /\
    get_field "lastSyncedAt" d = Some (JDate (clock (List.length pre))) /\
    (forall d0 n,
       findOne "parentMemberId" pid (db w member_collection) = Some d0 ->
       member_property n = false ->
       get_field n d = get_field n d0).
Proof.
  intros Hb H200 Hp Ht Hpost.
  destruct (member_record_stored clock req w pre post r pid Hb H200 Hp Ht Hpost)
    as [dm [pm [uniq [d [_ [Hpm [_ [Hd [Hid [Hparent [_ Hstamp]]]]]]]]]]].
  exists pm, d. repeat split; auto.
  intros d0 n Hd0 Hn.
  destruct (sync_member_dependencies_200 clock req w _ Hb H200)
    as [ids [raw [Hnon [Hids [Hne Hraw]]]]].
  rewrite (sync_member_dependencies_ok clock req w _ Hnon ids raw Hids Hne Hraw)
    in Hd.
  cbv zeta in Hd. cbn [snd db] in Hd. rewrite db_set_same in Hd.
  destruct (member_ops_keys _ _ _ _ Hraw) as [ids' [Hids' [Hk [Hok _]]]].
  rewrite Hids in Hids'. inversion Hids'; subst ids'. clear Hids'.
  assert (Hin : In pid (filter_truthy ids)).
  { apply filter_truthy_In. split; [|exact Ht].
    apply (rmap_In _ _ _ (Some pid) Hids). exists r. split; [|exact Hp].
    apply in_or_app. right. now left. }
  rewrite (findOne_reconciled "parentMemberId" _ _ _ pid Hin) in Hd.
  rewrite (findOne_store_upsert_all "parentMemberId" pid _ _ Hok), Hd0 in Hd.
  injection Hd as <-.
  apply get_field_app_all. apply Forall_forall. intros o Ho.
  apply filter_In in Ho as [Ho _].
  destruct (member_ops_built_In _ _ _ _ _ Hraw Ho) as [now [r' Hop]].
  exact (member_op_names now r' o n Hop Hn).
Qed.

Lemma reconciled_document_witness :
  let before := [("parentMemberId", JStr "P1"); ("note", JStr "kept")] in
  let w := World (fun n => if String.eqb n member_collection
                           then [before] else []) [] in
  let req := Request None (Some (JArr ([] ++ sample_record :: []))) in
  exists pm d,
    js_get sample_record "parentMember" = Ok pm /\
    findOne "parentMemberId" (JStr "P1")
      (db (snd (sync_member_dependencies sample_clock req w)) member_collection)
      = Some d /\
    get_field "parentMemberId" d = Some (JStr "P1") /\
    get_field "parentMember" d = Some (bson pm) /\
    get_field "lastSyncedAt" d = Some (JDate (sample_clock 0)) /\
    (forall d0 n,
       findOne "parentMemberId" (JStr "P1") (db w member_collection) = Some d0 ->
       member_property n = false ->
       get_field n d = get_field n d0).
Proof.
  intros before w req.
  apply (reconciled_document sample_clock req w [] [] sample_record (JStr "P1"));
    try reflexivity; constructor.
Defined.

(** ** Reconciliation: which answer a batch gets *)

Lemma member_op_well_formed (now : Z) (r : jsval) (oo : option update_op) :
  member_op now r = Ok oo -> well_formed_record r.
Proof.
  intros H. apply member_op_inv in H as [pid [Hp Hoo]]. split.
  - intros ->. discriminate.
  - intros dm Hres Hdm. unfold resolvable in Hres. rewrite Hp in Hres.
    destruct oo as [o|]; [|congruence].
    destruct Hoo as [_ [dm' [pm [uniq [Hdm' [Hu _]]]]]].
    rewrite Hdm in Hdm'. inversion Hdm'; subst dm'.
    now apply uniqueDependents_inv in Hu.
Qed.

Lemma member_ops_well_formed (clock : nat -> Z) (payload : list jsval) :
  forall i raw, member_ops clock i payload = Ok raw ->
  Forall well_formed_record payload.
Proof.
  induction payload as [|r payload IH]; intros i raw H; [constructor|].
  simpl in H.
  destruct (member_op (clock i) r) as [oo|] eqn:Eo; simpl in H; [|discriminate].
  destruct (member_ops clock (S i) payload) as [raw'|] eqn:E'; simpl in H;
    [|discriminate].
  constructor; [exact (member_op_well_formed _ _ _ Eo)|exact (IH _ _ E')].
Qed.

Lemma rmap_parent_id_resolvable (payload : list jsval) (ids : list (option jsval)) :
  rmap parent_id payload = Ok ids ->
  (filter_truthy ids = [] -> Forall (fun r => resolvable r = false) payload) /\
  (filter_truthy ids <> [] -> Exists (fun r => resolvable r = true) payload).
Proof.
  intros H. apply rmap_Forall2 in H.
  induction H as [|r v payload ids Hr _ [IH1 IH2]].
  - split; [intros _; apply Forall_nil|intros H; now destruct H].
  - destruct (parent_id_read r v Hr) as [_ Hres]. simpl.
    destruct v as [x|]; simpl in Hres.
    + destruct (truthy x) eqn:Ex.
      * split; [discriminate|]. intros _. now left.
      * split; [intros E; constructor; auto|intros E; right; auto].
    + split; [intros E; constructor; auto|intros E; right; auto].
Qed.

Lemma resolvable_split (payload : list jsval) :
  Forall (fun r => resolvable r = false) payload ->
  Exists (fun r => resolvable r = true) payload -> False.
Proof.
  intros Hall Hex. apply Exists_exists in Hex as [r [Hr Hres]].
  rewrite (proj1 (Forall_forall _ _) Hall r Hr) in Hres. discriminate.
Qed.

Lemma well_formed_not_null (payload : list jsval) :
  Forall well_formed_record payload -> ~ In JNull payload.
Proof.
  intros H Hin. now destruct (proj1 (Forall_forall _ _) H _ Hin).
Qed.

(** X12.  The answer of [/sync_member_dependencies] is 200, 400 or 500.
    It is 200 exactly when the payload is an array of records read without
    a TypeError (none is [null], and no record with a resolvable parent id
    has a [null] among its dependents) of which one has a resolvable
    parent id.  It is 400 exactly when the payload holds no [null] element
    and no record with a resolvable parent id, which takes in the empty
    array and every payload that is no array. *)
Theorem sync_member_dependencies_status (clock : nat -> Z) (req : request)
    (w : world) :
  let s := status (fst (sync_member_dependencies clock req w)) in
  let items := payload_items (req_body req) in
  (s = 200%Z \/ s = 400%Z \/ s = 500%Z) /\
  (s = 200%Z <->
     Forall well_formed_record items /\
     Exists (fun r => resolvable r = true) items) /\
  (s = 400%Z <->
     ~ In JNull items /\ Forall (fun r => resolvable r = false) items).
Proof.
  intros s items. unfold s. clear s.
  assert (Eitems : items = payload_items (req_body req)) by reflexivity.
  clearbody items.
  destruct (nonempty_array (req_body req)) as [payload|] eqn:Hn.
  2:{ assert (Hitems : items = []).
      { rewrite Eitems. destruct (req_body req) as [[| | | | |[|x l]|]|];
          try reflexivity. discriminate. }
      unfold sync_member_dependencies. rewrite Hn, Hitems. simpl.
      split; [auto|]. split; split; try discriminate.
      - intros [_ H]. inversion H.
      - intros _. split; [intros []|constructor].
      - intros _. reflexivity. }
  rewrite (nonempty_array_items _ _ Hn) in Eitems. subst items.
  destruct (rmap parent_id payload) as [ids|e] eqn:Hids.
  2:{ rewrite (sync_member_dependencies_null clock req w payload Hn e Hids).
      simpl.
      assert (Hin : In JNull payload).
      { destruct (in_dec jsval_eq_dec JNull payload) as [Hin|Hnot]; [exact Hin|].
        destruct (rmap_parent_id_ok _ Hnot) as [ids Hok]. congruence. }
      split; [auto|]. split; split; try discriminate.
      - intros [Hwf _]. now destruct (well_formed_not_null _ Hwf).
      - intros [Hnot _]. now destruct (Hnot Hin). }
  assert (Hnot : ~ In JNull payload).
  { intros Hin. destruct (rmap_parent_id_throw _ Hin) as [e He]. congruence. }
  destruct (rmap_parent_id_resolvable payload ids Hids) as [Hnone Hsome].
  destruct (filter_truthy ids) as [|v vs] eqn:Ef.
  { rewrite (sync_member_dependencies_guard clock req w payload Hn ids Hids Ef).
    simpl. split; [auto|]. split; split; try discriminate.
    - intros [_ Hex]. destruct (resolvable_split _ (Hnone eq_refl) Hex).
    - intros _. split; [exact Hnot|exact (Hnone eq_refl)].
    - intros _. reflexivity. }
  assert (Hne : filter_truthy ids <> []) by (rewrite Ef; discriminate).
  assert (Hex : Exists (fun r => resolvable r = true) payload).
  { apply Hsome. discriminate. }
  destruct (member_ops clock 0 payload) as [raw|e] eqn:Hraw.
  - rewrite (sync_member_dependencies_ok clock req w payload Hn ids raw
               Hids Hne Hraw).
    simpl. split; [auto|]. split; split; try discriminate.
    + intros _. split; [exact (member_ops_well_formed _ _ _ _ Hraw)|exact Hex].
    + intros _. reflexivity.
    + intros [_ Hall]. destruct (resolvable_split _ Hall Hex).
  - rewrite (sync_member_dependencies_throw clock req w payload Hn ids e
               Hids Hne Hraw).
    simpl. split; [auto|]. split; split; try discriminate.
    + intros [Hwf _].
      destruct (member_ops_total clock payload Hwf 0) as [raw Hok]. congruence.
    + intros [_ Hall]. destruct (resolvable_split _ Hall Hex).
Qed.

(** ** The [Map] of unique dependents: order, and a second pass *)

Local Abbreviation set_value_of := (fun (o a : jsval * jsval) => (fst a, snd o)).
Local Abbreviation add_key :=
  (fun (ks : list jsval) (k : jsval) =>
     ks ++ (if existsb (same_value_zero k) ks then [] else [k])).

Lemma keys_map_set (kv : jsval * jsval) (m : js_map) :
  map fst (map_set kv m) = add_key (map fst m) (fst kv).
Proof.
  unfold map_set. induction m as [|a m IH]; [reflexivity|]. simpl.
  destruct (same_value_zero (fst kv) (fst a)); simpl.
  - now rewrite app_nil_r.
  - now rewrite IH.
Qed.

Lemma keys_map_set_all (ops m : js_map) :
  map fst (map_set_all ops m) = fold_left add_key (map fst ops) (map fst m).
Proof.
  revert m. induction ops as [|o ops IH]; intros m; [reflexivity|].
  change (map_set_all (o :: ops) m) with (map_set_all ops (map_set o m)).
  rewrite IH, keys_map_set. reflexivity.
Qed.

Lemma filter_filter_implied {A} (p q : A -> bool) (l : list A) :
  (forall x, p x = true -> q x = true) ->
  filter p (filter q l) = filter p l.
Proof.
  intros H. induction l as [|a l IH]; [reflexivity|]. simpl.
  destruct (q a) eqn:Eq; simpl.
  - now rewrite IH.
  - destruct (p a) eqn:Ep; [|exact IH].
    rewrite (H a Ep) in Eq. discriminate.
Qed.

Lemma filter_keys_twice (keep1 keep2 : jsval -> bool) (ks : list jsval) :
  filter keep1 (filter keep2 ks) = filter (fun k => keep2 k && keep1 k) ks.
Proof.
  induction ks as [|k ks IH]; [reflexivity|]. simpl.
  destruct (keep2 k); simpl; [destruct (keep1 k)|]; now rewrite IH.
Qed.

(** The keys a [Map] ends up with, after the keys [acc] it started with:
    the new keys, each where it first occurs. *)
Lemma fold_add_key (ks acc : list jsval) :
  fold_left add_key ks acc =
  acc ++ filter (fun k => negb (existsb (same_value_zero k) acc)) (first_keys ks).
Proof.
  revert acc. induction ks as [|k ks IH]; intros acc; simpl.
  - now rewrite app_nil_r.
  - rewrite IH. destruct (existsb (same_value_zero k) acc) eqn:E; simpl.
    + rewrite app_nil_r. f_equal.
      symmetry. apply filter_filter_implied. intros x Hx.
      apply negb_true_iff in Hx. apply negb_true_iff.
      destruct (same_value_zero x k) eqn:Exk; [|reflexivity].
      apply same_value_zero_eq in Exk. subst x. congruence.
    + rewrite <- app_assoc. simpl. f_equal. f_equal.
      rewrite filter_keys_twice. apply filter_ext. intros x.
      rewrite existsb_app. simpl. rewrite orb_false_r, negb_orb.
      apply andb_comm.
Qed.

Lemma keyed_entries_ids (ds : list jsval) :
  map fst (keyed_entries ds) = filter_some (map dependency_id ds).
Proof.
  unfold keyed_entries. induction ds as [|d ds IH]; [reflexivity|]. simpl.
  destruct (dependency_id d); simpl; now rewrite IH.
Qed.

(** X13.  The unique dependents come in the order in which their ids
    first occur: when no dependent is [null], [uniqueDependents] returns a
    list whose ids are the truthy [memberDependencyId]s of the input, one
    entry for each, each at the place of its first occurrence (and so the
    last write of an id takes the place of the first). *)
Theorem uniqueDependents_order (ds : list jsval) :
  ~ In JNull ds ->
  exists out,
    uniqueDependents ds = Ok out /\
    map dependency_id out =
      map Some (first_keys (filter_some (map dependency_id ds))).
Proof.
  intros Hnull. eexists. split; [now apply uniqueDependents_ok|].
  rewrite <- keyed_entries_ids.
  pose proof (keys_map_set_all (keyed_entries ds) []) as Hkeys.
  rewrite fold_add_key in Hkeys. simpl in Hkeys. rewrite filter_all in Hkeys.
  rewrite <- Hkeys. unfold map_values. rewrite !map_map.
  apply map_ext_in. intros e He.
  now destruct (proj1 (Forall_forall _ _) (map_set_all_entries ds) e He).
Qed.

Lemma uniqueDependents_order_witness :
  let ds := [dependent "D1" 1; keyless_dependent; dependent "D2" 5;
             dependent "D1" 2] in
  exists out,
    uniqueDependents ds = Ok out /\
    map dependency_id out = [Some (JStr "D1"); Some (JStr "D2")].
Proof.
  intros ds.
  apply (uniqueDependents_order ds).
  simpl. intros [H|[H|[H|[H|[]]]]]; discriminate.
Defined.

Lemma first_keys_ordered (ks : list jsval) :
  ForallOrdPairs (fun k k' => same_value_zero k' k = false) (first_keys ks).
Proof.
  induction ks as [|k ks IH]; simpl; constructor.
  - apply Forall_forall. intros x Hx. apply filter_In in Hx as [_ Hx].
    now apply negb_true_iff in Hx.
  - clear - IH. induction IH as [|a l Ha _ IHl]; simpl; [constructor|].
    destruct (negb (same_value_zero a k)); [|exact IHl].
    constructor; [|exact IHl].
    apply Forall_forall. intros x Hx. apply filter_In in Hx as [Hx _].
    exact (proj1 (Forall_forall _ _) Ha x Hx).
Qed.

(** Setting entries whose keys are new and differ from one another
    appends them. *)
Lemma map_set_all_fresh (l acc : js_map) :
  ForallOrdPairs (fun k k' => same_value_zero k' k = false) (map fst l) ->
  Forall (fun e => existsb (same_value_zero (fst e)) (map fst acc) = false) l ->
  map_set_all l acc = acc ++ l.
Proof.
  revert acc. induction l as [|e l IH]; intros acc Hord Hnew.
  - simpl. now rewrite app_nil_r.
  - inversion Hord as [|? ? Hhead Htail]; subst.
    inversion Hnew as [|? ? He Hl]; subst.
    change (map_set_all (e :: l) acc) with (map_set_all l (map_set e acc)).
    assert (Hset : map_set e acc = acc ++ [e]).
    { clear - He. unfold map_set. induction acc as [|a acc IHa]; [reflexivity|].
      simpl in *. apply orb_false_iff in He as [Ha He].
      rewrite Ha. simpl. f_equal. now apply IHa. }
    rewrite Hset, IH, <- app_assoc; [reflexivity|exact Htail|].
    apply Forall_forall. intros e' He'.
    rewrite map_app, existsb_app. simpl. rewrite orb_false_r.
    apply orb_false_iff. split.
    + exact (proj1 (Forall_forall _ _) Hl e' He').
    + apply (proj1 (Forall_forall _ _) Hhead (fst e')). now apply in_map.
Qed.

(** X14.  A second pass changes nothing: [uniqueDependents] applied to a
    list it returned returns that list (syncing the stored
    [dependentMembers] of a document back stores them as they are). *)
Theorem uniqueDependents_idempotent (ds out : list jsval) :
  uniqueDependents ds = Ok out -> uniqueDependents out = Ok out.
Proof.
  intros H. apply uniqueDependents_inv in H as [_ ->].
  set (m := map_set_all (keyed_entries ds) []).
  pose proof (map_set_all_entries ds) as Hm. fold m in Hm.
  assert (Hentries : keyed_entries (map_values m) = m).
  { unfold map_values, keyed_entries. clear - Hm.
    induction Hm as [|[k d] m [_ He] _ IH]; [reflexivity|].
    simpl in *. now rewrite He, IH. }
  assert (Hnull : ~ In JNull (map_values m)).
  { unfold map_values. intros Hin. apply in_map_iff in Hin as [e [He Hin]].
    destruct (proj1 (Forall_forall _ _) Hm e Hin) as [_ Hid].
    rewrite He in Hid. discriminate. }
  rewrite (uniqueDependents_ok _ Hnull), Hentries.
  rewrite map_set_all_fresh; [reflexivity| |].
  - pose proof (keys_map_set_all (keyed_entries ds) []) as Hkeys.
    rewrite fold_add_key in Hkeys. simpl in Hkeys. rewrite filter_all in Hkeys.
    fold m in Hkeys. rewrite Hkeys. apply first_keys_ordered.
  - apply Forall_forall. intros e _. reflexivity.
Qed.

Lemma uniqueDependents_idempotent_witness :
  let ds := [dependent "D1" 1; keyless_dependent; dependent "D2" 5;
             dependent "D1" 2] in
  uniqueDependents [dependent "D1" 2; dependent "D2" 5] =
    Ok [dependent "D1" 2; dependent "D2" 5].
Proof.
  intros ds.
  exact (uniqueDependents_idempotent ds [dependent "D1" 2; dependent "D2" 5]
           eq_refl).
Defined.

(** ** The flat sync: one operation for each record *)

Lemma prompt_ops_read (payload : list jsval) (ops : list update_op) :
  rmap prompt_op payload = Ok ops ->
  ops = map (fun r => UpdateOne "promptVersionId" (read_prompt_id r) r) payload.
Proof.
  intros H. apply rmap_Forall2 in H.
  induction H as [|r o l ops Hr _ IH]; [reflexivity|].
  simpl. now rewrite <- IH, <- (prompt_op_read _ _ Hr).
Qed.

(** X15.  A flat sync that succeeds has issued three calls: it opened the
    connection, submitted one bulk write to the target collection, and
    closed the connection.  The bulk write holds one upsert for each
    element of the payload, in the order of the payload, filtering on what
    the element has as [promptVersionId] (also when it has none) and
    setting the element itself; the count of the answer is the length of
    the payload. *)
Theorem sync_prompt_versions_one_op_per_record (req : request) (w : world)
    (payload : list jsval) :
  req_body req = Some (JArr payload) ->
  status (fst (sync_prompt_versions req w)) = 200%Z ->
  let dom := domain_of req in
  let ops := map (fun r => UpdateOne "promptVersionId" (read_prompt_id r) r)
               payload in
  fst (sync_prompt_versions req w) =
    Response 200 (upsert_body dom (List.length payload)) /\
  calls (snd (sync_prompt_versions req w)) =
    calls w ++ [Connect; BulkWrite dom ops; Close].
Proof.
  intros Hb H200 dom ops.
  assert (Hn : nonempty_array (req_body req) = Some payload).
  { rewrite Hb. destruct payload; [|reflexivity].
    unfold sync_prompt_versions in H200. rewrite Hb in H200. discriminate. }
  destruct (rmap prompt_op payload) as [ops'|e] eqn:Hops.
  2:{ rewrite (sync_prompt_versions_throw _ w _ _ Hn Hops) in H200.
      discriminate. }
  pose proof (prompt_ops_read _ _ Hops) as Hread. fold ops in Hread.
  subst ops'.
  rewrite (sync_prompt_versions_run _ w _ _ Hn Hops) in *. cbv zeta in *.
  destruct (fst (bulkWrite ops (db w (domain_of req)))); [|discriminate H200].
  cbn [fst snd calls].
  split; [reflexivity|]. now rewrite <- !app_assoc.
Qed.

Lemma sync_prompt_versions_one_op_per_record_witness :
  let keyed := JObj sample_version in
  let keyless := JObj [("name", JStr "second")] in
  let req := Request (Some "Drafts") (Some (JArr [keyed; keyless])) in
  let res := sync_prompt_versions req sample_prompt_world in
  fst res = Response 200 (upsert_body "Drafts" 2) /\
  calls (snd res) =
    [Connect;
     BulkWrite "Drafts"
       [UpdateOne "promptVersionId" (Some (JStr "v1")) keyed;
        UpdateOne "promptVersionId" None keyless];
     Close].
Proof.
  intros keyed keyless req res.
  exact (sync_prompt_versions_one_op_per_record req sample_prompt_world
           [keyed; keyless] eq_refl eq_refl).
Defined.
